(** * CUDPP plan interface: creation, destruction and composition of plans

    A shallow embedding of [cudpp/src/cudpp_plan.cpp]: option validation,
    the plan factory [cudppPlan], the sparse-matrix factory
    [cudppSparseMatrix], the two destroy entry points, and the constructors
    and destructors of the seven plan classes.

    Plans live on a heap indexed by their handle.  Every call of a storage
    collaborator ([alloc*Storage], [free*Storage]), every [operator new] and
    every [operator delete] is recorded, in program order, on a trace, so
    that ordering and exactly-once properties can be stated. *)

From Stdlib Require Import ZArith List Lia Bool.
From stdpp Require Import base decidable option list gmap.

Local Open Scope Z_scope.

(** ** Machine integers *)

(** [size_t] is taken 64 bits wide and [unsigned int] 32 bits wide (LP64). *)
Definition SIZE_MAX_plus_1 : Z := 2 ^ 64.
Definition UINT_MAX_plus_1 : Z := 2 ^ 32.

Definition to_size_t (z : Z) : Z := z mod SIZE_MAX_plus_1.
Definition to_uint (z : Z) : Z := z mod UINT_MAX_plus_1.

(** ** Declarations of cudpp.h *)

Inductive CUDPPResult :=
| CUDPP_SUCCESS
| CUDPP_ERROR_INVALID_HANDLE
| CUDPP_ERROR_ILLEGAL_CONFIGURATION
| CUDPP_ERROR_UNKNOWN.

Inductive CUDPPAlgorithm :=
| CUDPP_SCAN
| CUDPP_SEGMENTED_SCAN
| CUDPP_COMPACT
| CUDPP_REDUCE
| CUDPP_SORT_RADIX
| CUDPP_SPMVMULT
| CUDPP_RAND_MD5.

Inductive CUDPPOperator := CUDPP_ADD | CUDPP_MULTIPLY | CUDPP_MIN | CUDPP_MAX.

Inductive CUDPPDatatype := CUDPP_INT | CUDPP_UINT | CUDPP_FLOAT | CUDPP_DOUBLE.

#[global] Instance CUDPPResult_eq_dec : EqDecision CUDPPResult.
Proof. solve_decision. Defined.
#[global] Instance CUDPPAlgorithm_eq_dec : EqDecision CUDPPAlgorithm.
Proof. solve_decision. Defined.
#[global] Instance CUDPPOperator_eq_dec : EqDecision CUDPPOperator.
Proof. solve_decision. Defined.
#[global] Instance CUDPPDatatype_eq_dec : EqDecision CUDPPDatatype.
Proof. solve_decision. Defined.

Record CUDPPConfiguration := {
  algorithm : CUDPPAlgorithm;
  op : CUDPPOperator;
  datatype : CUDPPDatatype;
  options : Z                       (* unsigned int bit mask *)
}.

#[global] Instance CUDPPConfiguration_eq_dec : EqDecision CUDPPConfiguration.
Proof. solve_decision. Defined.

(** Modelled from the spec: the headers that declare the option bits, the
    invalid-handle sentinel, the sort and reduce tile sizes and the manager
    lookup are absent from the sources.  The spec names
    them (Forward, Backward, Exclusive, Inclusive, KeysOnly, the invalid
    sentinel, the fixed tile size, instance resolution) without fixing an
    encoding, so the development is parametric in them. *)
Record cudpp_header := {
  CUDPP_OPTION_FORWARD : Z;
  CUDPP_OPTION_BACKWARD : Z;
  CUDPP_OPTION_EXCLUSIVE : Z;
  CUDPP_OPTION_INCLUSIVE : Z;
  CUDPP_OPTION_KEYS_ONLY : Z;
  CUDPP_INVALID_HANDLE : Z;
  SORT_CTA_SIZE : Z;
  REDUCE_CTA_SIZE : Z;
  getManagerFromHandle : Z -> Z
}.

(** One instance of the header, used by the closed examples: distinct
    one-bit option masks, a sentinel far from the first addresses and a tile
    size of 512. *)
Definition example_header : cudpp_header := {|
  CUDPP_OPTION_FORWARD := 1;
  CUDPP_OPTION_BACKWARD := 2;
  CUDPP_OPTION_EXCLUSIVE := 4;
  CUDPP_OPTION_INCLUSIVE := 8;
  CUDPP_OPTION_KEYS_ONLY := 32;
  CUDPP_INVALID_HANDLE := 3235494609;
  SORT_CTA_SIZE := 512;
  REDUCE_CTA_SIZE := 256;
  getManagerFromHandle := fun h => h
|}.

(** ** Plan objects *)

(** The fields each derived class adds to [CUDPPPlan].  Pointers to nested
    plans are heap addresses, i.e. the nested plan's handle.  Device buffer
    pointers, which the constructors only set to 0 and hand to the storage
    collaborators, are not represented. *)
Inductive PlanClass :=
| ScanPlan
| SegmentedScanPlan
| CompactPlan (m_scanPlan : Z)
| ReducePlan (m_threadsPerBlock m_maxBlocks : Z)
| RadixSortPlan (m_scanPlan : Z) (m_bKeysOnly : bool)
| SparseMatrixVectorMultiplyPlan
    (m_segmentedScanPlan : Z) (m_rowFinalIndex : list Z)
    (m_numRows' m_numNonZeroElements : Z)
| RandPlan (m_seed : Z).

#[global] Instance PlanClass_eq_dec : EqDecision PlanClass.
Proof. solve_decision. Defined.

Record CUDPPPlan := {
  m_config : CUDPPConfiguration;
  m_numElements : Z;
  m_numRows : Z;
  m_rowPitch : Z;
  m_planManager : Z;
  derived : PlanClass
}.

#[global] Instance CUDPPPlan_eq_dec : EqDecision CUDPPPlan.
Proof. solve_decision. Defined.

(** The class an object was constructed as, named by its algorithm tag. *)
Definition class_of (c : PlanClass) : CUDPPAlgorithm :=
  match c with
  | ScanPlan => CUDPP_SCAN
  | SegmentedScanPlan => CUDPP_SEGMENTED_SCAN
  | CompactPlan _ => CUDPP_COMPACT
  | ReducePlan _ _ => CUDPP_REDUCE
  | RadixSortPlan _ _ => CUDPP_SORT_RADIX
  | SparseMatrixVectorMultiplyPlan _ _ _ _ => CUDPP_SPMVMULT
  | RandPlan _ => CUDPP_RAND_MD5
  end.

(** ** State, trace and the effect monad *)

(** Modelled from the spec: the storage collaborators [alloc*Storage] and
    [free*Storage] are absent from the sources.  Per the spec [alloc] sets up
    the scratch storage of one plan and [free] releases it; here a call of
    either is an event on the trace, next to the events of [new], of
    [delete] and of the destructors. *)
Inductive Event :=
| OpNew (k : CUDPPAlgorithm) (h : Z)         (* new CUDPP<k>Plan, at h *)
| AllocStorage (k : CUDPPAlgorithm) (h : Z)  (* alloc<k>Storage(plan) *)
| NewArray (h : Z) (n : Z)                   (* new unsigned int [n] *)
| Dtor (k : CUDPPAlgorithm) (h : Z)          (* ~CUDPP<k>Plan() entered *)
| FreeStorage (k : CUDPPAlgorithm) (h : Z)   (* free<k>Storage(plan) *)
| DeleteArray (h : Z)                        (* delete [] m_rowFinalIndex *)
| OpDelete (h : Z).                          (* object h released *)

#[global] Instance Event_eq_dec : EqDecision Event.
Proof. solve_decision. Defined.

(** Modelled from the spec: handle assignment ([getHandle]) is absent from
    the sources.  Per the spec it is drawn from the owning instance, is
    monotonic and never reused; [next_handle] is that counter. *)
Record State := {
  plans : gmap Z CUDPPPlan;     (* live plan objects, by handle *)
  next_handle : Z;
  trace : list Event
}.

Definition initial_state : State :=
  {| plans := ∅; next_handle := 1; trace := [] |}.

(** A call either returns a value and a new state, or its behaviour is
    undefined: a dangling or mistyped plan pointer is dereferenced, an
    [assert] fails, an array is read out of bounds, or a loop never exits. *)
Inductive outcome (A : Type) :=
| Ret (a : A) (s : State)
| Undefined.
Arguments Ret {A} a s.
Arguments Undefined {A}.

Definition M (A : Type) : Type := State -> outcome A.

Definition ret {A} (a : A) : M A := fun s => Ret a s.

Definition bind {A B} (c : M A) (k : A -> M B) : M B :=
  fun s => match c s with
           | Ret a s' => k a s'
           | Undefined => Undefined
           end.

Definition undefined {A} : M A := fun _ => Undefined.

Notation "'do' x <- c ; k" := (bind c (fun x => k))
  (at level 10, x name, c at level 100, k at level 200).
Notation "c ;; k" := (bind c (fun _ => k))
  (at level 100, k at level 200, right associativity).

Definition emit (e : Event) : M unit :=
  fun s => Ret tt {| plans := plans s; next_handle := next_handle s;
                     trace := trace s ++ [e] |}.

(** [assert(b)], with assertions compiled in: a failed assertion aborts. *)
Definition assert (b : bool) : M unit :=
  if b then ret tt else undefined.

(** [*p] for a plan pointer: defined only while the object is live. *)
Definition deref (h : Z) : M CUDPPPlan :=
  fun s => match plans s !! h with
           | Some p => Ret p s
           | None => Undefined
           end.

Definition store (h : Z) (p : CUDPPPlan) : M unit :=
  fun s => Ret tt {| plans := <[h := p]> (plans s);
                     next_handle := next_handle s; trace := trace s |}.

Section Plan.

Context (K : cudpp_header).

(** Modelled from the spec: a plan's handle is never the invalid sentinel,
    and [new] never yields a null pointer. *)
Definition usable (h : Z) : bool :=
  negb (h =? 0) && negb (h =? CUDPP_INVALID_HANDLE K).

Definition skip_unusable (h : Z) : Z := if usable h then h else h + 1.

Definition fresh_handle (s : State) : Z :=
  skip_unusable (skip_unusable (next_handle s)).

(** [operator new]: reserves the object's address. *)
Definition operator_new (k : CUDPPAlgorithm) : M Z :=
  fun s => let h := fresh_handle s in
           Ret h {| plans := plans s; next_handle := h + 1;
                    trace := trace s ++ [OpNew k h] |}.

(** [operator delete]: from here on the handle resolves to nothing. *)
Definition operator_delete (h : Z) : M unit :=
  fun s => Ret tt {| plans := delete h (plans s);
                     next_handle := next_handle s;
                     trace := trace s ++ [OpDelete h] |}.

(** ** validateOptions *)

(** [config.options & bit], as a C truth value. *)
Definition has_option (config : CUDPPConfiguration) (bit : Z) : bool :=
  negb (Z.land (options config) bit =? 0).

Definition validateOptions (config : CUDPPConfiguration)
    (numElements numRows rowPitch : Z) : CUDPPResult :=
  let ret := CUDPP_SUCCESS in
  let ret :=
    if has_option config (CUDPP_OPTION_BACKWARD K)
       && has_option config (CUDPP_OPTION_FORWARD K)
    then CUDPP_ERROR_ILLEGAL_CONFIGURATION else ret in
  let ret :=
    if has_option config (CUDPP_OPTION_EXCLUSIVE K)
       && has_option config (CUDPP_OPTION_INCLUSIVE K)
    then CUDPP_ERROR_ILLEGAL_CONFIGURATION else ret in
  let ret :=
    if bool_decide (algorithm config = CUDPP_COMPACT) && (1 <? numRows)
    then CUDPP_ERROR_ILLEGAL_CONFIGURATION else ret in
  ret.

(** ** Constructors

    [new_X args] is [new X(args)]: [operator new] reserves the address
    [this], the base-class constructor and the member initialisers fill in
    the fields, and the constructor body runs.  The object is written to the
    heap once, when all its fields are known. *)

(** The base-class constructor [CUDPPPlan::CUDPPPlan]. *)
Definition CUDPPPlan_ctor (mgr : Z) (config : CUDPPConfiguration)
    (numElements numRows rowPitch : Z) (d : PlanClass) : CUDPPPlan :=
  {| m_config := config; m_numElements := numElements;
     m_numRows := numRows; m_rowPitch := rowPitch;
     m_planManager := mgr; derived := d |}.

Definition new_CUDPPScanPlan (mgr : Z) (config : CUDPPConfiguration)
    (numElements numRows rowPitch : Z) : M Z :=
  do this <- operator_new CUDPP_SCAN;
  store this (CUDPPPlan_ctor mgr config numElements numRows rowPitch ScanPlan);;
  emit (AllocStorage CUDPP_SCAN this);;
  ret this.

Definition new_CUDPPSegmentedScanPlan (mgr : Z) (config : CUDPPConfiguration)
    (numElements : Z) : M Z :=
  do this <- operator_new CUDPP_SEGMENTED_SCAN;
  store this (CUDPPPlan_ctor mgr config numElements 1 0 SegmentedScanPlan);;
  emit (AllocStorage CUDPP_SEGMENTED_SCAN this);;
  ret this.

Definition new_CUDPPCompactPlan (mgr : Z) (config : CUDPPConfiguration)
    (numElements numRows rowPitch : Z) : M Z :=
  do this <- operator_new CUDPP_COMPACT;
  assert (numRows =? 1);;
  let scanConfig :=
    {| algorithm := CUDPP_SCAN; op := CUDPP_ADD; datatype := CUDPP_UINT;
       options :=
         if has_option config (CUDPP_OPTION_BACKWARD K)
         then Z.lor (CUDPP_OPTION_BACKWARD K) (CUDPP_OPTION_EXCLUSIVE K)
         else Z.lor (CUDPP_OPTION_FORWARD K) (CUDPP_OPTION_EXCLUSIVE K) |} in
  do scanPlan <- new_CUDPPScanPlan mgr scanConfig numElements numRows rowPitch;
  store this (CUDPPPlan_ctor mgr config numElements numRows rowPitch
                             (CompactPlan scanPlan));;
  emit (AllocStorage CUDPP_COMPACT this);;
  ret this.

(** The [tuneConfig] argument is passed by value and only written to, so it
    is not a parameter here. *)
Definition new_CUDPPReducePlan (mgr : Z) (config : CUDPPConfiguration)
    (numElements : Z) : M Z :=
  do this <- operator_new CUDPP_REDUCE;
  store this (CUDPPPlan_ctor mgr config numElements 1 0
                             (ReducePlan (REDUCE_CTA_SIZE K) 64));;
  emit (AllocStorage CUDPP_REDUCE this);;
  ret this.

(** [numBlocks2] of the radix-sort constructor, in [size_t] arithmetic. *)
Definition numBlocks2 (numElements : Z) : Z :=
  if numElements mod to_size_t (SORT_CTA_SIZE K * 2) =? 0
  then numElements / to_size_t (SORT_CTA_SIZE K * 2)
  else to_size_t (numElements / to_size_t (SORT_CTA_SIZE K * 2) + 1).

Definition new_CUDPPRadixSortPlan (mgr : Z) (config : CUDPPConfiguration)
    (numElements : Z) : M Z :=
  do this <- operator_new CUDPP_SORT_RADIX;
  let numBlocks2 := numBlocks2 numElements in
  let scanConfig :=
    {| algorithm := CUDPP_SCAN; op := CUDPP_ADD; datatype := CUDPP_UINT;
       options :=
         Z.lor (CUDPP_OPTION_FORWARD K) (CUDPP_OPTION_EXCLUSIVE K) |} in
  let m_bKeysOnly :=
    if options config =? CUDPP_OPTION_KEYS_ONLY K then true else false in
  do scanPlan <-
    new_CUDPPScanPlan mgr scanConfig (to_size_t (numBlocks2 * 16)) 1 0;
  store this (CUDPPPlan_ctor mgr config numElements 1 0
                             (RadixSortPlan scanPlan m_bKeysOnly));;
  emit (AllocStorage CUDPP_SORT_RADIX this);;
  ret this.

(** The loop that fills [m_rowFinalIndex].  Of the three arrays handed to
    the constructor only [rowIndex] is read here, so it is a list; the
    matrix data [A] and the column indices [index] are only passed on to
    the storage collaborator and stay opaque addresses.  The counter [i] is
    an [unsigned int]; it is compared with the [size_t] row count.  [None]
    stands for a read past the end of [rowIndex] or for running out of
    [fuel]. *)
Fixpoint fill_rowFinalIndex (fuel : nat) (m_numRows : Z) (rowIndex : list Z)
    (numNonZeroElements : Z) (i : Z) (m_rowFinalIndex : list Z)
    : option (list Z) :=
  match fuel with
  | O => None
  | S fuel' =>
      if i <? m_numRows then
        if i <? to_size_t (m_numRows - 1) then
          match rowIndex !! Z.to_nat (to_uint (i + 1)) with
          | Some v =>
              fill_rowFinalIndex fuel' m_numRows rowIndex numNonZeroElements
                (to_uint (i + 1)) (<[Z.to_nat i := v]> m_rowFinalIndex)
          | None => None
          end
        else
          fill_rowFinalIndex fuel' m_numRows rowIndex numNonZeroElements
            (to_uint (i + 1))
            (<[Z.to_nat i := to_uint numNonZeroElements]> m_rowFinalIndex)
      else Some m_rowFinalIndex
  end.

(** The table as the constructor leaves it.  The loop tests its guard
    [numRows + 1] times when it exits at all, so that much fuel decides
    whether it does; the fresh array's cells are taken as 0. *)
Definition rowFinalIndex_table (numRows : Z) (rowIndex : list Z)
    (numNonZeroElements : Z) : option (list Z) :=
  fill_rowFinalIndex (S (Z.to_nat numRows)) numRows rowIndex
    numNonZeroElements 0 (replicate (Z.to_nat numRows) 0).

Definition new_CUDPPSparseMatrixVectorMultiplyPlan (mgr : Z)
    (config : CUDPPConfiguration) (numNonZeroElements : Z)
    (A : Z) (rowIndex : list Z) (index : Z) (numRows : Z) : M Z :=
  do this <- operator_new CUDPP_SPMVMULT;
  let segScanConfig :=
    {| algorithm := CUDPP_SEGMENTED_SCAN; op := CUDPP_ADD;
       datatype := datatype config;
       options :=
         Z.lor (CUDPP_OPTION_FORWARD K) (CUDPP_OPTION_INCLUSIVE K) |} in
  do segmentedScanPlan <-
    new_CUDPPSegmentedScanPlan mgr segScanConfig numNonZeroElements;
  emit (NewArray this numRows);;
  match rowFinalIndex_table numRows rowIndex numNonZeroElements with
  | None => undefined
  | Some rowFinalIndex =>
      store this (CUDPPPlan_ctor mgr config numNonZeroElements 1 0
                    (SparseMatrixVectorMultiplyPlan segmentedScanPlan
                       rowFinalIndex numRows numNonZeroElements));;
      emit (AllocStorage CUDPP_SPMVMULT this);;
      ret this
  end.

Definition new_CUDPPRandPlan (mgr : Z) (config : CUDPPConfiguration)
    (num_elements : Z) : M Z :=
  do this <- operator_new CUDPP_RAND_MD5;
  store this (CUDPPPlan_ctor mgr config num_elements 1 0 (RandPlan 0));;
  ret this.

(** ** Destructors

    [delete_X h] is [delete static_cast<X*>(p)] for the plan pointer [h]:
    the destructor body of class [X], then [operator delete].  Casting to a
    class the object was not constructed as is undefined.  Nested plan
    pointers are never null once a constructor has returned, so the null
    case of [delete] does not arise in the destructors; a pointer that comes
    from a caller's handle is deleted through [delete_or_null] below. *)

Definition delete_CUDPPScanPlan (h : Z) : M unit :=
  do p <- deref h;
  match derived p with
  | ScanPlan =>
      emit (Dtor CUDPP_SCAN h);;
      emit (FreeStorage CUDPP_SCAN h);;
      operator_delete h
  | _ => undefined
  end.

Definition delete_CUDPPSegmentedScanPlan (h : Z) : M unit :=
  do p <- deref h;
  match derived p with
  | SegmentedScanPlan =>
      emit (Dtor CUDPP_SEGMENTED_SCAN h);;
      emit (FreeStorage CUDPP_SEGMENTED_SCAN h);;
      operator_delete h
  | _ => undefined
  end.

Definition delete_CUDPPCompactPlan (h : Z) : M unit :=
  do p <- deref h;
  match derived p with
  | CompactPlan m_scanPlan =>
      emit (Dtor CUDPP_COMPACT h);;
      delete_CUDPPScanPlan m_scanPlan;;
      emit (FreeStorage CUDPP_COMPACT h);;
      operator_delete h
  | _ => undefined
  end.

Definition delete_CUDPPReducePlan (h : Z) : M unit :=
  do p <- deref h;
  match derived p with
  | ReducePlan _ _ =>
      emit (Dtor CUDPP_REDUCE h);;
      emit (FreeStorage CUDPP_REDUCE h);;
      operator_delete h
  | _ => undefined
  end.

Definition delete_CUDPPRadixSortPlan (h : Z) : M unit :=
  do p <- deref h;
  match derived p with
  | RadixSortPlan m_scanPlan _ =>
      emit (Dtor CUDPP_SORT_RADIX h);;
      delete_CUDPPScanPlan m_scanPlan;;
      emit (FreeStorage CUDPP_SORT_RADIX h);;
      operator_delete h
  | _ => undefined
  end.

Definition delete_CUDPPSparseMatrixVectorMultiplyPlan (h : Z) : M unit :=
  do p <- deref h;
  match derived p with
  | SparseMatrixVectorMultiplyPlan m_segmentedScanPlan _ _ _ =>
      emit (Dtor CUDPP_SPMVMULT h);;
      emit (FreeStorage CUDPP_SPMVMULT h);;
      delete_CUDPPSegmentedScanPlan m_segmentedScanPlan;;
      emit (DeleteArray h);;
      operator_delete h
  | _ => undefined
  end.

(** No destructor body is given for the random-number plan: it holds no
    storage of its own. *)
Definition delete_CUDPPRandPlan (h : Z) : M unit :=
  do p <- deref h;
  match derived p with
  | RandPlan _ =>
      emit (Dtor CUDPP_RAND_MD5 h);;
      operator_delete h
  | _ => undefined
  end.

(** The null pointer is address 0, at which no object lives.  (In a heap
    with an object at 0 that address is an object's, not null; the entry
    points reach no such heap.) *)
Definition is_null (p : Z) : M bool :=
  fun s => Ret ((p =? 0) && bool_decide (plans s !! p = None)) s.

(** [delete p] for a pointer that may be null: nothing happens for the null
    pointer; otherwise the destructor runs and the object is released. *)
Definition delete_or_null (delete_X : Z -> M unit) (p : Z) : M unit :=
  do null <- is_null p;
  if null then ret tt else delete_X p.

(** ** The public interface *)

(** The tail of [cudppPlan], after the switch: the null test on the new plan
    pointer and the store of its handle.

    Modelled from the spec: [getHandle] is absent from the sources.  Plans
    are kept by handle, so a plan's handle is the address it lives at. *)
Definition getHandle (plan : Z) : Z := plan.

Definition finish_plan (plan : Z) : M (CUDPPResult * option Z) :=
  if plan =? 0 then ret (CUDPP_ERROR_UNKNOWN, None)
  else ret (CUDPP_SUCCESS, Some (getHandle plan)).

(** [*planHandle] is an out-parameter: the second component of the result
    is [Some h] when the call stored [h] there and [None] when the call
    left it untouched. *)
Definition cudppPlan (cudppHandle : Z) (config : CUDPPConfiguration)
    (numElements numRows rowPitch : Z) : M (CUDPPResult * option Z) :=
  let mgr := getManagerFromHandle K cudppHandle in
  let result := validateOptions config numElements numRows rowPitch in
  if negb (bool_decide (result = CUDPP_SUCCESS)) then
    ret (result, Some (CUDPP_INVALID_HANDLE K))
  else
    match algorithm config with
    | CUDPP_SCAN =>
        do plan <- new_CUDPPScanPlan mgr config numElements numRows rowPitch;
        finish_plan plan
    | CUDPP_COMPACT =>
        do plan <- new_CUDPPCompactPlan mgr config numElements numRows rowPitch;
        finish_plan plan
    | CUDPP_SORT_RADIX =>
        do plan <- new_CUDPPRadixSortPlan mgr config numElements;
        finish_plan plan
    | CUDPP_SEGMENTED_SCAN =>
        do plan <- new_CUDPPSegmentedScanPlan mgr config numElements;
        finish_plan plan
    | CUDPP_RAND_MD5 =>
        do plan <- new_CUDPPRandPlan mgr config numElements;
        finish_plan plan
    | CUDPP_REDUCE =>
        do plan <- new_CUDPPReducePlan mgr config numElements;
        finish_plan plan
    | _ => ret (CUDPP_ERROR_ILLEGAL_CONFIGURATION, None)
    end.

(** Modelled from the spec: [getPlanPtrFromHandle] is absent from the
    sources.  Per the spec a handle resolves to exactly one live plan or to
    none.  The callers below use its result as a plan pointer without any
    test, so the pointer is the handle and whether it resolves shows at the
    dereference. *)
Definition getPlanPtrFromHandle (handle : Z) : Z := handle.

Definition cudppDestroyPlan (planHandle : Z) : M CUDPPResult :=
  if planHandle =? CUDPP_INVALID_HANDLE K then ret CUDPP_ERROR_INVALID_HANDLE
  else
    let plan := getPlanPtrFromHandle planHandle in
    do plan_obj <- deref plan;
    match algorithm (m_config plan_obj) with
    | CUDPP_SCAN => delete_CUDPPScanPlan plan;; ret CUDPP_SUCCESS
    | CUDPP_COMPACT => delete_CUDPPCompactPlan plan;; ret CUDPP_SUCCESS
    | CUDPP_SORT_RADIX => delete_CUDPPRadixSortPlan plan;; ret CUDPP_SUCCESS
    | CUDPP_SEGMENTED_SCAN =>
        delete_CUDPPSegmentedScanPlan plan;; ret CUDPP_SUCCESS
    | CUDPP_RAND_MD5 => delete_CUDPPRandPlan plan;; ret CUDPP_SUCCESS
    | CUDPP_REDUCE => delete_CUDPPReducePlan plan;; ret CUDPP_SUCCESS
    | _ => ret CUDPP_ERROR_ILLEGAL_CONFIGURATION
    end.

Definition cudppSparseMatrix (cudppHandle : Z) (config : CUDPPConfiguration)
    (numNonZeroElements numRows : Z)
    (A : Z) (h_rowIndices : list Z) (h_indices : Z)
    : M (CUDPPResult * option Z) :=
  let result := CUDPP_SUCCESS in
  let mgr := getManagerFromHandle K cudppHandle in
  let result :=
    if negb (bool_decide (algorithm config = CUDPP_SPMVMULT))
       || (numNonZeroElements <=? 0) || (numRows <=? 0)
    then CUDPP_ERROR_ILLEGAL_CONFIGURATION else result in
  if negb (bool_decide (result = CUDPP_SUCCESS)) then
    ret (result, Some (CUDPP_INVALID_HANDLE K))
  else
    do sparseMatrix <-
      new_CUDPPSparseMatrixVectorMultiplyPlan mgr config numNonZeroElements
        A h_rowIndices h_indices numRows;
    if negb (sparseMatrix =? 0)
    then ret (CUDPP_SUCCESS, Some (getHandle sparseMatrix))
    else ret (CUDPP_ERROR_UNKNOWN, None).

Definition cudppDestroySparseMatrix (sparseMatrixHandle : Z) : M CUDPPResult :=
  if sparseMatrixHandle =? CUDPP_INVALID_HANDLE K
  then ret CUDPP_ERROR_INVALID_HANDLE
  else
    let plan := getPlanPtrFromHandle sparseMatrixHandle in
    delete_or_null delete_CUDPPSparseMatrixVectorMultiplyPlan plan;;
    ret CUDPP_SUCCESS.

End Plan.

(** ** Order of events *)

(** Some occurrence of [a] on the trace comes before some occurrence of
    [b]. *)
Fixpoint precedes (a b : Event) (l : list Event) : bool :=
  match l with
  | [] => false
  | e :: l' => (bool_decide (e = a) && bool_decide (b ∈ l')) || precedes a b l'
  end.

(** The nested plan a plan points to, if it has one, is live and of the
    class the parent's destructor deletes it as. *)
Definition nested_live (s : State) (p : CUDPPPlan) : bool :=
  match derived p with
  | CompactPlan hs | RadixSortPlan hs _ =>
      match plans s !! hs with
      | Some ps => bool_decide (derived ps = ScanPlan)
      | None => false
      end
  | SparseMatrixVectorMultiplyPlan hs _ _ _ =>
      match plans s !! hs with
      | Some ps => bool_decide (derived ps = SegmentedScanPlan)
      | None => false
      end
  | _ => true
  end.

(** ** Vocabulary of the properties *)

(** The ceiling of [a / b], for positive [b]. *)
Definition ceil_div (a b : Z) : Z := (a + b - 1) / b.

(** The request used by the closed examples on compact plans. *)
Definition compact_request : CUDPPConfiguration :=
  {| algorithm := CUDPP_COMPACT; op := CUDPP_ADD; datatype := CUDPP_UINT;
     options := 1 |}.

Section Vocabulary.

Context (K : cudpp_header).

(** An option bit is set in a configuration. *)
Definition option_set (config : CUDPPConfiguration) (bit : Z) : Prop :=
  Z.land (options config) bit ≠ 0.

(** The three conditions under which a request is rejected. *)
Definition illegal_request (config : CUDPPConfiguration) (numRows : Z) : Prop :=
  (option_set config (CUDPP_OPTION_FORWARD K)
   ∧ option_set config (CUDPP_OPTION_BACKWARD K))
  ∨ (option_set config (CUDPP_OPTION_EXCLUSIVE K)
     ∧ option_set config (CUDPP_OPTION_INCLUSIVE K))
  ∨ (algorithm config = CUDPP_COMPACT ∧ 1 < numRows).

(** The handle the next [operator new] after the one that returned [h]
    hands out. *)
Definition handle_after (h : Z) : Z :=
  skip_unusable K (skip_unusable K (h + 1)).

(** The state a successful [new CUDPPScanPlan] leaves. *)
Definition after_new_scan (mgr : Z) (config : CUDPPConfiguration)
    (numElements numRows rowPitch : Z) (s : State) : State :=
  let h := fresh_handle K s in
  {| plans := <[h := CUDPPPlan_ctor mgr config numElements numRows rowPitch
                       ScanPlan]> (plans s);
     next_handle := h + 1;
     trace := trace s ++ [OpNew CUDPP_SCAN h; AllocStorage CUDPP_SCAN h] |}.

(** The configuration of the scan plan a compact plan builds. *)
Definition compact_scanConfig (config : CUDPPConfiguration) : CUDPPConfiguration :=
  {| algorithm := CUDPP_SCAN; op := CUDPP_ADD; datatype := CUDPP_UINT;
     options :=
       if has_option config (CUDPP_OPTION_BACKWARD K)
       then Z.lor (CUDPP_OPTION_BACKWARD K) (CUDPP_OPTION_EXCLUSIVE K)
       else Z.lor (CUDPP_OPTION_FORWARD K) (CUDPP_OPTION_EXCLUSIVE K) |}.

(** The configuration of the scan plan a radix-sort plan builds. *)
Definition radix_scanConfig : CUDPPConfiguration :=
  {| algorithm := CUDPP_SCAN; op := CUDPP_ADD; datatype := CUDPP_UINT;
     options := Z.lor (CUDPP_OPTION_FORWARD K) (CUDPP_OPTION_EXCLUSIVE K) |}.

(** Every live plan was constructed as the class its recorded tag names. *)
Definition tags_match (s : State) : Prop :=
  map_Forall (fun _ p => class_of (derived p) = algorithm (m_config p))
             (plans s).

(** The states a client can bring about through the public interface. *)
Inductive reachable : State -> Prop :=
| reachable_initial : reachable initial_state
| reachable_cudppPlan s cudppHandle config numElements numRows rowPitch r s' :
    reachable s ->
    cudppPlan K cudppHandle config numElements numRows rowPitch s = Ret r s' ->
    reachable s'
| reachable_cudppDestroyPlan s planHandle r s' :
    reachable s ->
    cudppDestroyPlan K planHandle s = Ret r s' ->
    reachable s'
| reachable_cudppSparseMatrix s cudppHandle config numNonZeroElements numRows
    A h_rowIndices h_indices r s' :
    reachable s ->
    cudppSparseMatrix K cudppHandle config numNonZeroElements numRows
      A h_rowIndices h_indices s = Ret r s' ->
    reachable s'
| reachable_cudppDestroySparseMatrix s sparseMatrixHandle r s' :
    reachable s ->
    cudppDestroySparseMatrix K sparseMatrixHandle s = Ret r s' ->
    reachable s'.

End Vocabulary.

(** * The test rig's vector utilities

    [apps/cudpp_testrig/cudpp_testrig_utils.cpp]: the identities of the max
    and min operators, the generator of random key vectors and the checker
    of a sort's result, at the instances for [int] and [unsigned int].  The
    [float] and [double] instances compute in floating point and are not
    modelled. *)

Definition INT_MIN : Z := - 2 ^ 31.
Definition INT_MAX : Z := 2 ^ 31 - 1.
Definition UINT_MAX : Z := 2 ^ 32 - 1.

(** The [int] with the bits of [z] (two's complement). *)
Definition to_int (z : Z) : Z := (z + 2 ^ 31) mod 2 ^ 32 - 2 ^ 31.

Definition OperatorMax_int_identity : Z := INT_MIN.
Definition OperatorMax_uint_identity : Z := 0.
Definition OperatorMin_int_identity : Z := INT_MAX.
Definition OperatorMin_uint_identity : Z := UINT_MAX.

(** ** Loops over an unsigned counter *)

(** What one run of a loop body does: go on, [break], or fault (a read or
    write outside an array). *)
Inductive loop_step (S : Type) :=
| Continue (s : S)
| Break (s : S)
| Fault.
Arguments Continue {S} s.
Arguments Break {S} s.
Arguments Fault {S}.

(** [for (unsigned int i = ...; i < n; ++i) body], from counter [i] on, with
    [n] a [size_t].  [None] stands for a fault or for running out of
    [fuel]; the properties below say how much fuel is enough. *)
Fixpoint for_uint {S : Type} (fuel : nat) (n : Z)
    (body : Z -> S -> loop_step S) (i : Z) (s : S) : option S :=
  match fuel with
  | O => None
  | S fuel' =>
      if i <? n then
        match body i s with
        | Continue s' => for_uint fuel' n body (to_uint (i + 1)) s'
        | Break s' => Some s'
        | Fault => None
        end
      else Some s
  end.

(** ** fillVector *)

(** [1 << n] on [int]: defined while the result is an [int]. *)
Definition shl_one (n : Z) : option Z :=
  if (0 <=? n) && (n <? 31) then Some (Z.shiftl 1 n) else None.

(** The two masks [fillVector] derives from [keybits]. *)
Definition key_masks (keybits : Z) : option (Z * Z) :=
  keyshiftmask ←
    (if 16 <? keybits
     then (fun x => x - 1) <$> shl_one (to_uint (keybits - 16))
     else Some 0);
  keymask ←
    (if keybits <? 16
     then (fun x => x - 1) <$> shl_one keybits
     else Some 65535);
  Some (keyshiftmask, keymask).

Section FillVector.

(** The library's generator after [srand(95123)]: [rand k] is the value of
    the [k]-th call of [rand()].  The two calls in one element's expression
    are unsequenced; [hi_first] says whether the one of the high half runs
    first. *)
Context (rand : nat -> Z) (hi_first : bool).

(** [((rand() & keyshiftmask) << 16) | (rand() & keymask)], stored to an
    [unsigned int]; the shift wraps as the hardware does. *)
Definition fill_element (keyshiftmask keymask : Z) (k : nat) : Z :=
  let r_hi := if hi_first then rand k else rand (S k) in
  let r_lo := if hi_first then rand (S k) else rand k in
  to_uint (Z.lor (to_int (Z.shiftl (Z.land r_hi keyshiftmask) 16))
                 (Z.land r_lo keymask)).

(** The body of the filling loop: the state is the array and the number of
    [rand()] calls made so far. *)
Definition fill_body (keyshiftmask keymask : Z) (i : Z)
    (st : list Z * nat) : loop_step (list Z * nat) :=
  let '(a, k) := st in
  if (Z.to_nat i <? length a)%nat
  then Continue (<[Z.to_nat i := fill_element keyshiftmask keymask k]> a,
                 S (S k))
  else Fault.

(** [VectorSupport<unsigned int>::fillVector]; [range] is not used by the
    function. *)
Definition fillVector_uint (fuel : nat) (a : list Z) (numElements : Z)
    (keybits : Z) (range : Z) : option (list Z) :=
  '(keyshiftmask, keymask) ← key_masks keybits;
  fst <$> for_uint fuel numElements (fill_body keyshiftmask keymask) 0 (a, O).

(** [VectorSupport<int>::fillVector]: the same array seen as
    [unsigned int], filled, and seen as [int] again. *)
Definition fillVector_int (fuel : nat) (a : list Z) (numElements : Z)
    (keybits : Z) (range : Z) : option (list Z) :=
  (fun a' : list Z => to_int <$> a')
    <$> fillVector_uint fuel (to_uint <$> a) numElements keybits
          (to_uint range).

End FillVector.

(** ** verifySort *)

(** The arguments of the two diagnostics [verifySort] prints. *)
Inductive Report :=
| UnorderedKey (i key_i i' key_i' : Z)
| IncorrectValue (i value_i key_unsorted key_i : Z).

(** The body of the loop over adjacent keys; the state is [retval] and the
    output so far. *)
Definition order_body (keysSorted : list Z) (i : Z)
    (st : Z * list Report) : loop_step (Z * list Report) :=
  match keysSorted !! Z.to_nat i,
        keysSorted !! Z.to_nat (to_uint (i + 1)) with
  | Some a, Some b =>
      if b <? a
      then Break (1, st.2 ++ [UnorderedKey i a (to_uint (i + 1)) b])
      else Continue st
  | _, _ => Fault
  end.

(** The body of the loop over the values. *)
Definition values_body (keysSorted valuesSorted keysUnsorted : list Z)
    (i : Z) (st : Z * list Report) : loop_step (Z * list Report) :=
  match valuesSorted !! Z.to_nat i with
  | Some v =>
      match keysUnsorted !! Z.to_nat v, keysSorted !! Z.to_nat i with
      | Some ku, Some ks =>
          if negb (ku =? ks)
          then Break (1, st.2 ++ [IncorrectValue i v ku ks])
          else Continue st
      | _, _ => Fault
      end
  | None => Fault
  end.

(** [VectorSupport<T>::verifySort] for [T] = [unsigned int] and [int]; a
    null [valuesSorted] is [None].  The result is [retval] and what was
    printed. *)
Definition verifySort (fuel : nat) (keysSorted : list Z)
    (valuesSorted : option (list Z)) (keysUnsorted : list Z) (len : Z)
    : option (Z * list Report) :=
  st ← for_uint fuel (to_size_t (len - 1)) (order_body keysSorted) 0 (0, []);
  match valuesSorted with
  | Some values =>
      for_uint fuel len (values_body keysSorted values keysUnsorted) 0 st
  | None => Some st
  end.

(** The first [len] keys ascend. *)
Definition ascending (keys : list Z) (len : Z) : Prop :=
  ∀ (i : nat) (a b : Z),
    Z.of_nat i < len - 1 -> keys !! i = Some a -> keys !! S i = Some b ->
    a <= b.

(** Each of the first [len] values names the place its key came from. *)
Definition values_match (keysSorted values keysUnsorted : list Z) (len : Z)
    : Prop :=
  ∀ (i : nat) (v ku ks : Z),
    Z.of_nat i < len -> values !! i = Some v ->
    keysUnsorted !! Z.to_nat v = Some ku -> keysSorted !! i = Some ks ->
    ku = ks.

(** What [verifySort] checks: the keys ascend and, where values are given,
    they match. *)
Definition sort_ok (keysSorted : list Z) (valuesSorted : option (list Z))
    (keysUnsorted : list Z) (len : Z) : Prop :=
  ascending keysSorted len
  ∧ match valuesSorted with
    | Some values => values_match keysSorted values keysUnsorted len
    | None => True
    end.

(** The reads of the loop over the values stay inside the arrays: there
    are [len] values, each an index into the unsorted keys. *)
Definition values_in_bounds (valuesSorted : option (list Z))
    (keysUnsorted : list Z) (len : Z) : Prop :=
  match valuesSorted with
  | Some values =>
      len <= Z.of_nat (length values)
      ∧ ∀ (i : nat) (v : Z),
          Z.of_nat i < len -> values !! i = Some v ->
          0 <= v < Z.of_nat (length keysUnsorted)
  | None => True
  end.

(** ** Vocabulary of the further properties *)

(** The tags that [cudppPlan] constructs and [cudppDestroyPlan] releases:
    all but the sparse matrix-vector tag. *)
Definition plan_tag (a : CUDPPAlgorithm) : bool :=
  match a with
  | CUDPP_SPMVMULT => false
  | _ => true
  end.

(** The nested plan a plan owns, if its class has one. *)
Definition nested_plan (p : CUDPPPlan) : option Z :=
  match derived p with
  | CompactPlan hs | RadixSortPlan hs _
  | SparseMatrixVectorMultiplyPlan hs _ _ _ => Some hs
  | _ => None
  end.

(** The heap without the nested plan of [p]. *)
Definition without_nested (p : CUDPPPlan) (m : gmap Z CUDPPPlan)
    : gmap Z CUDPPPlan :=
  match nested_plan p with
  | Some hs => delete hs m
  | None => m
  end.

(** Every live handle has been handed out, so it lies below the counter,
    and it is neither null nor the invalid sentinel. *)
Definition heap_below (K : cudpp_header) (s : State) : Prop :=
  map_Forall (fun h _ => h < next_handle s ∧ h ≠ 0
                         ∧ h ≠ CUDPP_INVALID_HANDLE K) (plans s).

(** The state a successful [cudppSparseMatrix] leaves, given the final-index
    table [tbl]; tied to the constructor by
    [new_CUDPPSparseMatrixVectorMultiplyPlan_run]. *)
Definition created_sparse_state (K : cudpp_header) (mgr : Z)
    (config : CUDPPConfiguration) (numNonZeroElements numRows : Z)
    (tbl : list Z) (s : State) : State :=
  let h := fresh_handle K s in
  let hs := handle_after K h in
  {| plans :=
       <[h := CUDPPPlan_ctor mgr config numNonZeroElements 1 0
                (SparseMatrixVectorMultiplyPlan hs tbl numRows
                   numNonZeroElements)]>
         (<[hs := CUDPPPlan_ctor mgr
                    {| algorithm := CUDPP_SEGMENTED_SCAN; op := CUDPP_ADD;
                       datatype := datatype config;
                       options := Z.lor (CUDPP_OPTION_FORWARD K)
                                        (CUDPP_OPTION_INCLUSIVE K) |}
                    numNonZeroElements 1 0 SegmentedScanPlan]> (plans s));
     next_handle := hs + 1;
     trace := trace s ++ [OpNew CUDPP_SPMVMULT h;
                          OpNew CUDPP_SEGMENTED_SCAN hs;
                          AllocStorage CUDPP_SEGMENTED_SCAN hs;
                          NewArray h numRows;
                          AllocStorage CUDPP_SPMVMULT h] |}.

(** On a stretch of the trace every storage allocation is matched by a
    release for the same plan, every constructed object is destructed as the
    class it was constructed as, and every array is freed. *)
Definition balanced (evs : list Event) : Prop :=
  ∀ (k : CUDPPAlgorithm) (h n : Z),
    count_occ Event_eq_dec evs (AllocStorage k h)
    = count_occ Event_eq_dec evs (FreeStorage k h)
    ∧ count_occ Event_eq_dec evs (OpNew k h)
      = count_occ Event_eq_dec evs (Dtor k h)
    ∧ (count_occ Event_eq_dec evs (NewArray h n)
       <= count_occ Event_eq_dec evs (DeleteArray h))%nat.

(** What the constructors called by [cudppPlan] leave behind, by tag: the
    plan stored at the new handle [h], the nested plan stored at the next
    handle, and the events of the construction.  They are tied to the
    constructors by [cudppPlan_success] below. *)
Section Created.

Context (K : cudpp_header).

Definition created_plan (mgr : Z) (config : CUDPPConfiguration)
    (numElements numRows rowPitch : Z) (h : Z) : CUDPPPlan :=
  match algorithm config with
  | CUDPP_SCAN =>
      CUDPPPlan_ctor mgr config numElements numRows rowPitch ScanPlan
  | CUDPP_COMPACT =>
      CUDPPPlan_ctor mgr config numElements numRows rowPitch
        (CompactPlan (handle_after K h))
  | CUDPP_SEGMENTED_SCAN =>
      CUDPPPlan_ctor mgr config numElements 1 0 SegmentedScanPlan
  | CUDPP_REDUCE =>
      CUDPPPlan_ctor mgr config numElements 1 0
        (ReducePlan (REDUCE_CTA_SIZE K) 64)
  | CUDPP_SORT_RADIX =>
      CUDPPPlan_ctor mgr config numElements 1 0
        (RadixSortPlan (handle_after K h)
           (options config =? CUDPP_OPTION_KEYS_ONLY K))
  | CUDPP_RAND_MD5 => CUDPPPlan_ctor mgr config numElements 1 0 (RandPlan 0)
  | CUDPP_SPMVMULT => CUDPPPlan_ctor mgr config numElements 1 0 ScanPlan
  end.

Definition created_nested (mgr : Z) (config : CUDPPConfiguration)
    (numElements numRows rowPitch : Z) : option CUDPPPlan :=
  match algorithm config with
  | CUDPP_COMPACT =>
      Some (CUDPPPlan_ctor mgr (compact_scanConfig K config)
              numElements numRows rowPitch ScanPlan)
  | CUDPP_SORT_RADIX =>
      Some (CUDPPPlan_ctor mgr (radix_scanConfig K)
              (to_size_t (numBlocks2 K numElements * 16)) 1 0 ScanPlan)
  | _ => None
  end.

Definition creation_events (a : CUDPPAlgorithm) (h : Z) : list Event :=
  match a with
  | CUDPP_COMPACT | CUDPP_SORT_RADIX =>
      [OpNew a h; OpNew CUDPP_SCAN (handle_after K h);
       AllocStorage CUDPP_SCAN (handle_after K h); AllocStorage a h]
  | CUDPP_RAND_MD5 => [OpNew a h]
  | _ => [OpNew a h; AllocStorage a h]
  end.

Definition created_state (mgr : Z) (config : CUDPPConfiguration)
    (numElements numRows rowPitch : Z) (s : State) : State :=
  let h := fresh_handle K s in
  match created_nested mgr config numElements numRows rowPitch with
  | Some ps =>
      {| plans :=
           <[h := created_plan mgr config numElements numRows rowPitch h]>
             (<[handle_after K h := ps]> (plans s));
         next_handle := handle_after K h + 1;
         trace := trace s ++ creation_events (algorithm config) h |}
  | None =>
      {| plans :=
           <[h := created_plan mgr config numElements numRows rowPitch h]>
             (plans s);
         next_handle := h + 1;
         trace := trace s ++ creation_events (algorithm config) h |}
  end.

End Created.

(** The events of destroying the live plan [p] at handle [h], by class.
    They are tied to the destructors by [cudppDestroyPlan_success] and
    [cudppDestroySparseMatrix_success] below. *)
Definition cleanup_events (h : Z) (p : CUDPPPlan) : list Event :=
  match derived p with
  | ScanPlan => [Dtor CUDPP_SCAN h; FreeStorage CUDPP_SCAN h; OpDelete h]
  | SegmentedScanPlan =>
      [Dtor CUDPP_SEGMENTED_SCAN h; FreeStorage CUDPP_SEGMENTED_SCAN h;
       OpDelete h]
  | CompactPlan hs =>
      [Dtor CUDPP_COMPACT h; Dtor CUDPP_SCAN hs; FreeStorage CUDPP_SCAN hs;
       OpDelete hs; FreeStorage CUDPP_COMPACT h; OpDelete h]
  | ReducePlan _ _ =>
      [Dtor CUDPP_REDUCE h; FreeStorage CUDPP_REDUCE h; OpDelete h]
  | RadixSortPlan hs _ =>
      [Dtor CUDPP_SORT_RADIX h; Dtor CUDPP_SCAN hs; FreeStorage CUDPP_SCAN hs;
       OpDelete hs; FreeStorage CUDPP_SORT_RADIX h; OpDelete h]
  | SparseMatrixVectorMultiplyPlan hs _ _ _ =>
      [Dtor CUDPP_SPMVMULT h; FreeStorage CUDPP_SPMVMULT h;
       Dtor CUDPP_SEGMENTED_SCAN hs; FreeStorage CUDPP_SEGMENTED_SCAN hs;
       OpDelete hs; DeleteArray h; OpDelete h]
  | RandPlan _ => [Dtor CUDPP_RAND_MD5 h; OpDelete h]
  end.

(** * Properties *)

(** ** Running the primitives *)

(** Brings a trace built by successive [emit]s into the form
    [old ++ [e1; ...; en]]. *)
Ltac trace_norm := repeat rewrite <- app_assoc; cbn [app].

(** Counts the occurrences of an event in an explicit list of events. *)
Ltac count_events :=
  cbn [count_occ];
  repeat match goal with
         | |- context [Event_eq_dec ?a ?b] =>
             destruct (Event_eq_dec a b); try congruence
         end.

(** An event does not occur in an explicit list of events. *)
Ltac absent_event :=
  rewrite ?not_elem_of_cons;
  repeat split; try congruence; try apply not_elem_of_nil.

(** Closes the goal of a successful destroy: the cleanup events are
    [evs], and the handle's release follows them. *)
Ltac exists_cleanup evs :=
  eexists _, evs; split; [reflexivity |]; cbn [trace plans];
  split; [reflexivity |];
  split; [count_events |];
  split; [intros ? ?; absent_event |];
  split; [intros ?; count_events |];
  split; [absent_event | apply lookup_delete_eq].

Section Facts.

Context (K : cudpp_header).

Lemma usable_skip (h : Z) :
  usable K h = false -> usable K (h + 1) = false -> usable K (h + 2) = true.
Proof.
  unfold usable. intros H1 H2.
  destruct (Z.eqb_spec h 0), (Z.eqb_spec h (CUDPP_INVALID_HANDLE K)),
    (Z.eqb_spec (h + 1) 0), (Z.eqb_spec (h + 1) (CUDPP_INVALID_HANDLE K)),
    (Z.eqb_spec (h + 2) 0), (Z.eqb_spec (h + 2) (CUDPP_INVALID_HANDLE K));
    simpl in *; try done; lia.
Qed.

Lemma fresh_handle_usable (s : State) : usable K (fresh_handle K s) = true.
Proof.
  unfold fresh_handle, skip_unusable.
  destruct (usable K (next_handle s)) eqn:E1.
  - by rewrite E1.
  - destruct (usable K (next_handle s + 1)) eqn:E2; [done |].
    replace (next_handle s + 1 + 1) with (next_handle s + 2) by lia.
    by apply usable_skip.
Qed.

Lemma fresh_handle_ge (s : State) : next_handle s <= fresh_handle K s.
Proof.
  unfold fresh_handle, skip_unusable.
  repeat match goal with |- context [if ?b then _ else _] => destruct b end; lia.
Qed.

Lemma fresh_handle_nonnull (s : State) : fresh_handle K s ≠ 0.
Proof.
  pose proof (fresh_handle_usable s) as H. unfold usable in H.
  apply andb_true_iff in H as [H _]. apply negb_true_iff in H. lia.
Qed.

Lemma fresh_handle_valid (s : State) : fresh_handle K s ≠ CUDPP_INVALID_HANDLE K.
Proof.
  pose proof (fresh_handle_usable s) as H. unfold usable in H.
  apply andb_true_iff in H as [_ H]. apply negb_true_iff in H. lia.
Qed.

Lemma new_CUDPPScanPlan_run mgr config numElements numRows rowPitch s :
  new_CUDPPScanPlan K mgr config numElements numRows rowPitch s
  = Ret (fresh_handle K s)
        (after_new_scan K mgr config numElements numRows rowPitch s).
Proof.
  unfold new_CUDPPScanPlan, after_new_scan, bind, operator_new, store, emit, ret.
  cbn. by trace_norm.
Qed.

Lemma handle_after_gt (h : Z) : h < handle_after K h.
Proof.
  unfold handle_after, skip_unusable.
  repeat match goal with |- context [if ?b then _ else _] => destruct b end; lia.
Qed.

Lemma handle_after_ne (h : Z) : handle_after K h ≠ h.
Proof. pose proof (handle_after_gt h). lia. Qed.

Lemma new_CUDPPCompactPlan_run mgr config numElements rowPitch s :
  let h := fresh_handle K s in
  let hs := handle_after K h in
  new_CUDPPCompactPlan K mgr config numElements 1 rowPitch s
  = Ret h
      {| plans :=
           <[h := CUDPPPlan_ctor mgr config numElements 1 rowPitch
                    (CompactPlan hs)]>
             (<[hs := CUDPPPlan_ctor mgr (compact_scanConfig K config)
                        numElements 1 rowPitch ScanPlan]> (plans s));
         next_handle := hs + 1;
         trace := trace s ++ [OpNew CUDPP_COMPACT h; OpNew CUDPP_SCAN hs;
                              AllocStorage CUDPP_SCAN hs;
                              AllocStorage CUDPP_COMPACT h] |}.
Proof.
  unfold new_CUDPPCompactPlan, bind, operator_new, assert.
  cbn -[new_CUDPPScanPlan]. rewrite new_CUDPPScanPlan_run.
  unfold after_new_scan, store, emit, ret, fresh_handle, handle_after. cbn.
  by trace_norm.
Qed.

Lemma new_CUDPPCompactPlan_assert mgr config numElements numRows rowPitch s :
  numRows ≠ 1 ->
  new_CUDPPCompactPlan K mgr config numElements numRows rowPitch s = Undefined.
Proof.
  intros H. unfold new_CUDPPCompactPlan, bind, operator_new, assert. cbn.
  destruct (Z.eqb_spec numRows 1); done.
Qed.

Lemma new_CUDPPRadixSortPlan_run mgr config numElements s :
  let h := fresh_handle K s in
  let hs := handle_after K h in
  new_CUDPPRadixSortPlan K mgr config numElements s
  = Ret h
      {| plans :=
           <[h := CUDPPPlan_ctor mgr config numElements 1 0
                    (RadixSortPlan hs
                       (options config =? CUDPP_OPTION_KEYS_ONLY K))]>
             (<[hs := CUDPPPlan_ctor mgr (radix_scanConfig K)
                        (to_size_t (numBlocks2 K numElements * 16)) 1 0
                        ScanPlan]> (plans s));
         next_handle := hs + 1;
         trace := trace s ++ [OpNew CUDPP_SORT_RADIX h; OpNew CUDPP_SCAN hs;
                              AllocStorage CUDPP_SCAN hs;
                              AllocStorage CUDPP_SORT_RADIX h] |}.
Proof.
  unfold new_CUDPPRadixSortPlan, bind, operator_new.
  cbn -[new_CUDPPScanPlan]. rewrite new_CUDPPScanPlan_run.
  unfold after_new_scan, store, emit, ret, fresh_handle, handle_after. cbn.
  trace_norm.
  by destruct (options config =? CUDPP_OPTION_KEYS_ONLY K).
Qed.

Lemma new_CUDPPSegmentedScanPlan_run mgr config numElements s :
  let h := fresh_handle K s in
  new_CUDPPSegmentedScanPlan K mgr config numElements s
  = Ret h
      {| plans := <[h := CUDPPPlan_ctor mgr config numElements 1 0
                           SegmentedScanPlan]> (plans s);
         next_handle := h + 1;
         trace := trace s ++ [OpNew CUDPP_SEGMENTED_SCAN h;
                              AllocStorage CUDPP_SEGMENTED_SCAN h] |}.
Proof.
  unfold new_CUDPPSegmentedScanPlan, bind, operator_new, store, emit, ret.
  cbn. by trace_norm.
Qed.

Lemma new_CUDPPReducePlan_run mgr config numElements s :
  let h := fresh_handle K s in
  new_CUDPPReducePlan K mgr config numElements s
  = Ret h
      {| plans := <[h := CUDPPPlan_ctor mgr config numElements 1 0
                           (ReducePlan (REDUCE_CTA_SIZE K) 64)]> (plans s);
         next_handle := h + 1;
         trace := trace s ++ [OpNew CUDPP_REDUCE h;
                              AllocStorage CUDPP_REDUCE h] |}.
Proof.
  unfold new_CUDPPReducePlan, bind, operator_new, store, emit, ret.
  cbn. by trace_norm.
Qed.

Lemma new_CUDPPRandPlan_run mgr config num_elements s :
  let h := fresh_handle K s in
  new_CUDPPRandPlan K mgr config num_elements s
  = Ret h
      {| plans := <[h := CUDPPPlan_ctor mgr config num_elements 1 0
                           (RandPlan 0)]> (plans s);
         next_handle := h + 1;
         trace := trace s ++ [OpNew CUDPP_RAND_MD5 h] |}.
Proof. reflexivity. Qed.

(** ** Radix-sort block count *)

Lemma ceil_div_spec (a b : Z) :
  0 < b -> a <= ceil_div a b * b < a + b.
Proof.
  intros Hb. unfold ceil_div.
  pose proof (Z.div_mod (a + b - 1) b ltac:(lia)) as Hdm.
  pose proof (Z.mod_pos_bound (a + b - 1) b Hb) as Hm.
  lia.
Qed.

Lemma to_size_t_small (z : Z) : 0 <= z < 2 ^ 64 -> to_size_t z = z.
Proof. intros H. unfold to_size_t, SIZE_MAX_plus_1. by apply Z.mod_small. Qed.

Section NumBlocks2.

Context (numElements : Z).
Hypothesis numElements_size_t : 0 <= numElements < 2 ^ 64.
Hypothesis tile_min : 8 < SORT_CTA_SIZE K.
Hypothesis tile_int : SORT_CTA_SIZE K * 2 < 2 ^ 31.

Lemma numBlocks2_unfold :
  numBlocks2 K numElements
  = if numElements mod (SORT_CTA_SIZE K * 2) =? 0
    then numElements / (SORT_CTA_SIZE K * 2)
    else numElements / (SORT_CTA_SIZE K * 2) + 1.
Proof.
  unfold numBlocks2.
  rewrite (to_size_t_small (SORT_CTA_SIZE K * 2)) by lia.
  destruct (_ =? 0); [done |].
  apply to_size_t_small.
  pose proof (Z.div_pos numElements (SORT_CTA_SIZE K * 2) ltac:(lia) ltac:(lia)).
  pose proof (Z.mul_div_le numElements (SORT_CTA_SIZE K * 2) ltac:(lia)).
  nia.
Qed.

Lemma numBlocks2_ceil :
  numBlocks2 K numElements = ceil_div numElements (2 * SORT_CTA_SIZE K).
Proof.
  rewrite numBlocks2_unfold. unfold ceil_div.
  replace (2 * SORT_CTA_SIZE K) with (SORT_CTA_SIZE K * 2) by lia.
  set (d := SORT_CTA_SIZE K * 2) in *.
  assert (Hd : 0 < d) by (unfold d; lia).
  pose proof (Z.div_mod numElements d ltac:(lia)) as Hdm.
  pose proof (Z.mod_pos_bound numElements d Hd) as Hm.
  destruct (Z.eqb_spec (numElements mod d) 0) as [E | E].
  - apply (Z.div_unique _ _ _ (d - 1)); lia.
  - apply (Z.div_unique _ _ _ (numElements mod d - 1)); lia.
Qed.

Lemma numBlocks2_times_16 :
  to_size_t (numBlocks2 K numElements * 16) = numBlocks2 K numElements * 16.
Proof.
  apply to_size_t_small. rewrite numBlocks2_unfold.
  set (d := SORT_CTA_SIZE K * 2) in *.
  assert (Hd : 18 <= d) by (unfold d; lia).
  pose proof (Z.div_pos numElements d ltac:(lia) ltac:(lia)).
  pose proof (Z.mul_div_le numElements d ltac:(lia)).
  assert (18 * (numElements / d) <= numElements) by nia.
  destruct (_ =? 0); lia.
Qed.

End NumBlocks2.

(** ** Validation *)

Lemma has_option_set config bit :
  has_option config bit = true <-> option_set config bit.
Proof.
  unfold has_option, option_set. rewrite negb_true_iff, Z.eqb_neq. done.
Qed.

Lemma validateOptions_illegal config numElements numRows rowPitch :
  illegal_request K config numRows ->
  validateOptions K config numElements numRows rowPitch
  = CUDPP_ERROR_ILLEGAL_CONFIGURATION.
Proof.
  unfold illegal_request, validateOptions.
  intros [[Hf Hb] | [[He Hi] | [Hc Hr]]].
  - apply has_option_set in Hf, Hb. rewrite Hf, Hb. simpl.
    repeat match goal with |- context [if ?b then _ else _] => destruct b end;
      done.
  - apply has_option_set in He, Hi. rewrite He, Hi. simpl.
    repeat match goal with |- context [if ?b then _ else _] => destruct b end;
      done.
  - rewrite Hc. rewrite bool_decide_eq_true_2 by done.
    apply Z.ltb_lt in Hr. rewrite Hr. done.
Qed.

Lemma validateOptions_success config numElements numRows rowPitch :
  ¬ illegal_request K config numRows ->
  validateOptions K config numElements numRows rowPitch = CUDPP_SUCCESS.
Proof.
  unfold illegal_request, validateOptions. intros Hn.
  destruct (has_option config (CUDPP_OPTION_BACKWARD K)) eqn:Hb,
    (has_option config (CUDPP_OPTION_FORWARD K)) eqn:Hf;
    try (exfalso; apply Hn; left; split; by apply has_option_set);
  destruct (has_option config (CUDPP_OPTION_EXCLUSIVE K)) eqn:He,
    (has_option config (CUDPP_OPTION_INCLUSIVE K)) eqn:Hi;
    try (exfalso; apply Hn; right; left; split; by apply has_option_set);
  simpl;
  (destruct (bool_decide (algorithm config = CUDPP_COMPACT)) eqn:Hc;
   [apply bool_decide_eq_true in Hc | done]);
  (destruct (1 <? numRows) eqn:Hr; [| done]);
  apply Z.ltb_lt in Hr; exfalso; apply Hn; right; right; done.
Qed.

(** ** The factory after validation *)

Lemma finish_plan_fresh (s s' : State) :
  finish_plan (fresh_handle K s) s'
  = Ret (CUDPP_SUCCESS, Some (fresh_handle K s)) s'.
Proof.
  unfold finish_plan, getHandle.
  destruct (Z.eqb_spec (fresh_handle K s) 0) as [E | E]; [| done].
  by apply fresh_handle_nonnull in E.
Qed.

Lemma cudppPlan_validated cudppHandle config numElements numRows rowPitch s :
  ¬ illegal_request K config numRows ->
  cudppPlan K cudppHandle config numElements numRows rowPitch s
  = let mgr := getManagerFromHandle K cudppHandle in
    match algorithm config with
    | CUDPP_SCAN =>
        bind (new_CUDPPScanPlan K mgr config numElements numRows rowPitch)
             finish_plan s
    | CUDPP_COMPACT =>
        bind (new_CUDPPCompactPlan K mgr config numElements numRows rowPitch)
             finish_plan s
    | CUDPP_SORT_RADIX =>
        bind (new_CUDPPRadixSortPlan K mgr config numElements) finish_plan s
    | CUDPP_SEGMENTED_SCAN =>
        bind (new_CUDPPSegmentedScanPlan K mgr config numElements) finish_plan s
    | CUDPP_RAND_MD5 =>
        bind (new_CUDPPRandPlan K mgr config numElements) finish_plan s
    | CUDPP_REDUCE =>
        bind (new_CUDPPReducePlan K mgr config numElements) finish_plan s
    | CUDPP_SPMVMULT => Ret (CUDPP_ERROR_ILLEGAL_CONFIGURATION, None) s
    end.
Proof.
  intros H. unfold cudppPlan.
  rewrite (validateOptions_success _ numElements _ rowPitch H).
  cbn [bool_decide negb]. rewrite bool_decide_eq_true_2 by done.
  cbn [negb]. by destruct (algorithm config).
Qed.

(** Bits: adding a bit outside a mask changes the mask. *)
Lemma lor_other_bit (k other : Z) :
  Z.land other k = 0 -> other ≠ 0 -> Z.lor k other ≠ k.
Proof.
  intros Hdisj Hne Heq. apply Hne. apply Z.bits_inj'. intros n Hn.
  rewrite Z.bits_0. destruct (Z.testbit other n) eqn:E; [| done].
  assert (Hk : Z.testbit k n = true).
  { rewrite <- Heq, Z.lor_spec, E. apply orb_true_r. }
  assert (Hl : Z.testbit (Z.land other k) n = true).
  { rewrite Z.land_spec, E, Hk. done. }
  rewrite Hdisj, Z.bits_0 in Hl. done.
Qed.

(** ** Running the destructors *)

Lemma delete_CUDPPScanPlan_run h p s :
  plans s !! h = Some p -> derived p = ScanPlan ->
  delete_CUDPPScanPlan h s
  = Ret tt {| plans := delete h (plans s); next_handle := next_handle s;
              trace := trace s ++ [Dtor CUDPP_SCAN h; FreeStorage CUDPP_SCAN h;
                                   OpDelete h] |}.
Proof.
  intros Hp Hd. unfold delete_CUDPPScanPlan, bind, deref. rewrite Hp, Hd.
  unfold emit, operator_delete. cbn. by trace_norm.
Qed.

Lemma delete_CUDPPSegmentedScanPlan_run h p s :
  plans s !! h = Some p -> derived p = SegmentedScanPlan ->
  delete_CUDPPSegmentedScanPlan h s
  = Ret tt {| plans := delete h (plans s); next_handle := next_handle s;
              trace := trace s ++ [Dtor CUDPP_SEGMENTED_SCAN h;
                                   FreeStorage CUDPP_SEGMENTED_SCAN h;
                                   OpDelete h] |}.
Proof.
  intros Hp Hd. unfold delete_CUDPPSegmentedScanPlan, bind, deref.
  rewrite Hp, Hd. unfold emit, operator_delete. cbn. by trace_norm.
Qed.

Lemma delete_CUDPPReducePlan_run h p a b s :
  plans s !! h = Some p -> derived p = ReducePlan a b ->
  delete_CUDPPReducePlan h s
  = Ret tt {| plans := delete h (plans s); next_handle := next_handle s;
              trace := trace s ++ [Dtor CUDPP_REDUCE h;
                                   FreeStorage CUDPP_REDUCE h; OpDelete h] |}.
Proof.
  intros Hp Hd. unfold delete_CUDPPReducePlan, bind, deref. rewrite Hp, Hd.
  unfold emit, operator_delete. cbn. by trace_norm.
Qed.

Lemma delete_CUDPPRandPlan_run h p seed s :
  plans s !! h = Some p -> derived p = RandPlan seed ->
  delete_CUDPPRandPlan h s
  = Ret tt {| plans := delete h (plans s); next_handle := next_handle s;
              trace := trace s ++ [Dtor CUDPP_RAND_MD5 h; OpDelete h] |}.
Proof.
  intros Hp Hd. unfold delete_CUDPPRandPlan, bind, deref. rewrite Hp, Hd.
  unfold emit, operator_delete. cbn. by trace_norm.
Qed.

Lemma delete_CUDPPCompactPlan_run h hs p ps s :
  plans s !! h = Some p -> derived p = CompactPlan hs ->
  plans s !! hs = Some ps -> derived ps = ScanPlan ->
  delete_CUDPPCompactPlan h s
  = Ret tt {| plans := delete h (delete hs (plans s));
              next_handle := next_handle s;
              trace := trace s ++ [Dtor CUDPP_COMPACT h;
                                   Dtor CUDPP_SCAN hs; FreeStorage CUDPP_SCAN hs;
                                   OpDelete hs;
                                   FreeStorage CUDPP_COMPACT h; OpDelete h] |}.
Proof.
  intros Hp Hd Hps Hds. unfold delete_CUDPPCompactPlan, bind at 1, deref.
  rewrite Hp, Hd. unfold bind at 1, emit at 1.
  unfold bind at 1. erewrite delete_CUDPPScanPlan_run; [| exact Hps | exact Hds].
  unfold bind, emit, operator_delete. cbn. by trace_norm.
Qed.

Lemma delete_CUDPPRadixSortPlan_run h hs keysOnly p ps s :
  plans s !! h = Some p -> derived p = RadixSortPlan hs keysOnly ->
  plans s !! hs = Some ps -> derived ps = ScanPlan ->
  delete_CUDPPRadixSortPlan h s
  = Ret tt {| plans := delete h (delete hs (plans s));
              next_handle := next_handle s;
              trace := trace s ++ [Dtor CUDPP_SORT_RADIX h;
                                   Dtor CUDPP_SCAN hs; FreeStorage CUDPP_SCAN hs;
                                   OpDelete hs;
                                   FreeStorage CUDPP_SORT_RADIX h; OpDelete h] |}.
Proof.
  intros Hp Hd Hps Hds. unfold delete_CUDPPRadixSortPlan, bind at 1, deref.
  rewrite Hp, Hd. unfold bind at 1, emit at 1.
  unfold bind at 1. erewrite delete_CUDPPScanPlan_run; [| exact Hps | exact Hds].
  unfold bind, emit, operator_delete. cbn. by trace_norm.
Qed.

Lemma delete_CUDPPSparseMatrixVectorMultiplyPlan_run
    h hs tbl rows nnz p ps s :
  plans s !! h = Some p ->
  derived p = SparseMatrixVectorMultiplyPlan hs tbl rows nnz ->
  plans s !! hs = Some ps -> derived ps = SegmentedScanPlan ->
  delete_CUDPPSparseMatrixVectorMultiplyPlan h s
  = Ret tt {| plans := delete h (delete hs (plans s));
              next_handle := next_handle s;
              trace := trace s ++ [Dtor CUDPP_SPMVMULT h;
                                   FreeStorage CUDPP_SPMVMULT h;
                                   Dtor CUDPP_SEGMENTED_SCAN hs;
                                   FreeStorage CUDPP_SEGMENTED_SCAN hs;
                                   OpDelete hs;
                                   DeleteArray h; OpDelete h] |}.
Proof.
  intros Hp Hd Hps Hds.
  unfold delete_CUDPPSparseMatrixVectorMultiplyPlan, bind at 1, deref.
  rewrite Hp, Hd. unfold bind at 1, emit at 1.
  unfold bind at 1, emit at 1. unfold bind at 1.
  erewrite delete_CUDPPSegmentedScanPlan_run; [| exact Hps | exact Hds].
  unfold bind, emit, operator_delete. cbn. by trace_norm.
Qed.

(** ** The final-index table *)

Lemma to_uint_small (z : Z) : 0 <= z < 2 ^ 32 -> to_uint z = z.
Proof. intros H. unfold to_uint, UINT_MAX_plus_1. by apply Z.mod_small. Qed.

Lemma to_uint_range (z : Z) : 0 <= to_uint z < 2 ^ 32.
Proof. unfold to_uint, UINT_MAX_plus_1. by apply Z.mod_pos_bound. Qed.

Section RowFinalIndex.

Context (numRows : Z) (rowIndex : list Z) (numNonZeroElements : Z).

(** Whenever the loop exits, having started at counter [i] on a table of
    [numRows] cells, it has left the cells below [i] alone, copied
    [rowIndex[j+1]] to every cell [j] from [i] up to the last but one, and
    written the truncated element count to the last cell. *)
Lemma fill_rowFinalIndex_sound :
  0 < numRows < 2 ^ 32 ->
  ∀ (fuel : nat) (i : Z) (tbl tbl' : list Z),
    0 <= i <= numRows ->
    Z.of_nat (length tbl) = numRows ->
    fill_rowFinalIndex fuel numRows rowIndex numNonZeroElements i tbl
    = Some tbl' ->
    length tbl' = length tbl
    ∧ (∀ j : nat, Z.of_nat j < i -> tbl' !! j = tbl !! j)
    ∧ (∀ j : nat, i <= Z.of_nat j < numRows - 1 ->
                  tbl' !! j = rowIndex !! S j)
    ∧ (i < numRows ->
       tbl' !! Z.to_nat (numRows - 1) = Some (to_uint numNonZeroElements)).
Proof.
  intros Hrows fuel.
  induction fuel as [| fuel IH]; intros i tbl tbl' Hi Htbl Hrun;
    cbn [fill_rowFinalIndex] in Hrun; [done |].
  destruct (Z.ltb_spec i numRows) as [Hlt | Hge].
  - rewrite (to_size_t_small (numRows - 1)) in Hrun by lia.
    rewrite (to_uint_small (i + 1)) in Hrun by lia.
    destruct (Z.ltb_spec i (numRows - 1)) as [Hmid | Hlast].
    + destruct (rowIndex !! Z.to_nat (i + 1)) as [v |] eqn:Hv; [| done].
      apply IH in Hrun as (Hl & Hlow & Hup & Hend);
        [| lia | by rewrite length_insert].
      rewrite length_insert in Hl.
      split; [done |]. split; [| split].
      * intros j Hj. rewrite Hlow by lia.
        apply list_lookup_insert_ne. lia.
      * intros j Hj. destruct (decide (Z.of_nat j = i)) as [E | E].
        -- rewrite Hlow by lia. replace j with (Z.to_nat i) by lia.
           rewrite list_lookup_insert_eq by lia.
           rewrite <- Hv. f_equal. lia.
        -- apply Hup. lia.
      * intros _. apply Hend. lia.
    + apply IH in Hrun as (Hl & Hlow & _ & _);
        [| lia | by rewrite length_insert].
      rewrite length_insert in Hl.
      split; [done |]. split; [| split].
      * intros j Hj. rewrite Hlow by lia.
        apply list_lookup_insert_ne. lia.
      * intros j Hj. lia.
      * intros _. rewrite Hlow by lia.
        replace (Z.to_nat (numRows - 1)) with (Z.to_nat i) by lia.
        apply list_lookup_insert_eq. lia.
  - injection Hrun as <-. split; [done |]. split; [done |].
    split; [intros j Hj |]; lia.
Qed.

(** With [k] rows left to fill from counter [i] on and every read of
    [rowIndex] in bounds, any fuel above [k] lets the loop exit. *)
Lemma fill_rowFinalIndex_exits :
  0 < numRows < 2 ^ 32 ->
  numRows <= Z.of_nat (length rowIndex) ->
  ∀ (k : nat) (i : Z) (tbl : list Z) (fuel : nat),
    0 <= i -> i + Z.of_nat k = numRows -> (k < fuel)%nat ->
    is_Some (fill_rowFinalIndex fuel numRows rowIndex numNonZeroElements
               i tbl).
Proof.
  intros Hrows Hlen k.
  induction k as [| k IH]; intros i tbl fuel Hi Hk Hfuel;
    (destruct fuel as [| fuel]; [lia |]); cbn [fill_rowFinalIndex].
  - destruct (Z.ltb_spec i numRows); [lia | done].
  - destruct (Z.ltb_spec i numRows); [| lia].
    rewrite (to_size_t_small (numRows - 1)) by lia.
    rewrite (to_uint_small (i + 1)) by lia.
    destruct (Z.ltb_spec i (numRows - 1)) as [Hlt | Hge].
    + destruct (lookup_lt_is_Some_2 rowIndex (Z.to_nat (i + 1)) ltac:(lia))
        as [v Hv].
      rewrite Hv. apply IH; lia.
    + apply IH; lia.
Qed.

(** With 2^32 rows or more the 32-bit counter never reaches the row
    count: no amount of fuel makes the loop exit. *)
Lemma fill_rowFinalIndex_diverges (fuel : nat) (i : Z) (tbl : list Z) :
  2 ^ 32 <= numRows -> 0 <= i < 2 ^ 32 ->
  fill_rowFinalIndex fuel numRows rowIndex numNonZeroElements i tbl = None.
Proof.
  intros Hrows. revert i tbl.
  induction fuel as [| fuel IH]; intros i tbl Hi; cbn [fill_rowFinalIndex];
    [done |].
  destruct (Z.ltb_spec i numRows); [| lia].
  pose proof (to_uint_range (i + 1)).
  destruct (_ <? _); [destruct (rowIndex !! _); [| done] |]; by apply IH.
Qed.

(** Every table the constructor gets out of the loop has [numRows] entries
    with the contents described, and the row count is below 2^32. *)
Lemma rowFinalIndex_table_sound (tbl : list Z) :
  0 < numRows ->
  rowFinalIndex_table numRows rowIndex numNonZeroElements = Some tbl ->
  numRows < 2 ^ 32
  ∧ Z.of_nat (length tbl) = numRows
  ∧ (∀ i : nat, Z.of_nat i < numRows - 1 -> tbl !! i = rowIndex !! S i)
  ∧ tbl !! Z.to_nat (numRows - 1) = Some (to_uint numNonZeroElements).
Proof.
  intros Hpos Hrun. unfold rowFinalIndex_table in Hrun.
  assert (Hrows : numRows < 2 ^ 32).
  { destruct (Z.lt_ge_cases numRows (2 ^ 32)) as [| Hbig]; [done |].
    rewrite fill_rowFinalIndex_diverges in Hrun by lia. done. }
  split; [done |].
  apply fill_rowFinalIndex_sound in Hrun as (Hl & _ & Hmid & Hlast);
    [| lia | lia | rewrite length_replicate; lia].
  rewrite length_replicate in Hl.
  split; [lia |]. split.
  - intros i Hi. apply Hmid. lia.
  - apply Hlast. lia.
Qed.

Lemma rowFinalIndex_table_exits :
  0 < numRows < 2 ^ 32 ->
  numRows <= Z.of_nat (length rowIndex) ->
  is_Some (rowFinalIndex_table numRows rowIndex numNonZeroElements).
Proof.
  intros Hrows Hlen. unfold rowFinalIndex_table.
  apply (fill_rowFinalIndex_exits Hrows Hlen (Z.to_nat numRows)); lia.
Qed.

(** In closed form the table is [rowIndex[1 .. numRows-1]] followed by the
    truncated element count. *)
Lemma rowFinalIndex_table_closed_form :
  0 < numRows < 2 ^ 32 ->
  numRows <= Z.of_nat (length rowIndex) ->
  rowFinalIndex_table numRows rowIndex numNonZeroElements
  = Some (drop 1 (take (Z.to_nat numRows) rowIndex)
          ++ [to_uint numNonZeroElements]).
Proof.
  intros Hrows Hlen.
  destruct (rowFinalIndex_table_exits Hrows Hlen) as [tbl Htbl].
  rewrite Htbl.
  apply rowFinalIndex_table_sound in Htbl as (_ & Hl & Hmid & Hlast); [| lia].
  f_equal. apply list_eq. intros i.
  assert (Hpre : length (drop 1 (take (Z.to_nat numRows) rowIndex))
                 = Z.to_nat (numRows - 1)).
  { rewrite length_drop, length_take_le by lia. lia. }
  destruct (decide (i < Z.to_nat (numRows - 1))%nat) as [Hi | Hi].
  - rewrite lookup_app_l by lia.
    rewrite lookup_drop, lookup_take_lt by lia. apply Hmid. lia.
  - destruct (decide (i = Z.to_nat (numRows - 1))) as [-> | Hne].
    + rewrite Hlast, lookup_app_r by lia.
      by rewrite Hpre, Nat.sub_diag.
    + rewrite !lookup_ge_None_2; [done | | lia].
      rewrite length_app, Hpre. cbn [length]. lia.
Qed.

End RowFinalIndex.

(** ** The sparse-matrix constructor *)

Lemma new_CUDPPSparseMatrixVectorMultiplyPlan_run
    mgr config numNonZeroElements A rowIndex index numRows tbl s :
  rowFinalIndex_table numRows rowIndex numNonZeroElements = Some tbl ->
  let h := fresh_handle K s in
  let hs := handle_after K h in
  new_CUDPPSparseMatrixVectorMultiplyPlan K mgr config numNonZeroElements
    A rowIndex index numRows s
  = Ret h
      {| plans :=
           <[h := CUDPPPlan_ctor mgr config numNonZeroElements 1 0
                    (SparseMatrixVectorMultiplyPlan hs tbl numRows
                       numNonZeroElements)]>
             (<[hs := CUDPPPlan_ctor mgr
                        {| algorithm := CUDPP_SEGMENTED_SCAN; op := CUDPP_ADD;
                           datatype := datatype config;
                           options := Z.lor (CUDPP_OPTION_FORWARD K)
                                            (CUDPP_OPTION_INCLUSIVE K) |}
                        numNonZeroElements 1 0 SegmentedScanPlan]> (plans s));
         next_handle := hs + 1;
         trace := trace s ++ [OpNew CUDPP_SPMVMULT h;
                              OpNew CUDPP_SEGMENTED_SCAN hs;
                              AllocStorage CUDPP_SEGMENTED_SCAN hs;
                              NewArray h numRows;
                              AllocStorage CUDPP_SPMVMULT h] |}.
Proof.
  intros Htbl.
  unfold new_CUDPPSparseMatrixVectorMultiplyPlan, bind at 1, operator_new.
  unfold bind at 1. rewrite new_CUDPPSegmentedScanPlan_run.
  unfold bind at 1, emit at 1. rewrite Htbl.
  unfold bind, store, emit, ret, fresh_handle, handle_after. cbn.
  by trace_norm.
Qed.

Lemma new_CUDPPSparseMatrixVectorMultiplyPlan_undefined
    mgr config numNonZeroElements A rowIndex index numRows s :
  rowFinalIndex_table numRows rowIndex numNonZeroElements = None ->
  new_CUDPPSparseMatrixVectorMultiplyPlan K mgr config numNonZeroElements
    A rowIndex index numRows s
  = Undefined.
Proof.
  intros Htbl.
  unfold new_CUDPPSparseMatrixVectorMultiplyPlan, bind at 1, operator_new.
  unfold bind at 1. rewrite new_CUDPPSegmentedScanPlan_run.
  unfold bind at 1, emit at 1. by rewrite Htbl.
Qed.

(** ** An invariant of the reachable states *)

Lemma tags_match_delete (s : State) (h : Z) n t :
  tags_match s ->
  tags_match {| plans := delete h (plans s); next_handle := n; trace := t |}.
Proof. intros Hs. unfold tags_match. cbn. by apply map_Forall_delete. Qed.

Lemma tags_match_plans (s s' : State) :
  plans s' = plans s -> tags_match s -> tags_match s'.
Proof. unfold tags_match. by intros ->. Qed.

(** A constructor adds plans whose class is the one their tag names. *)
Ltac tags_match_grows :=
  unfold tags_match in *; cbn [plans after_new_scan];
  repeat (apply map_Forall_insert_2; [cbn; congruence |]);
  assumption.

(** Every destructor only takes plans off the heap. *)
Ltac destructor_shrinks :=
  intros Hs;
  unfold delete_CUDPPScanPlan, delete_CUDPPSegmentedScanPlan,
    delete_CUDPPReducePlan, delete_CUDPPRandPlan,
    bind, deref, emit, operator_delete, ret, undefined;
  cbn;
  repeat case_match; simplify_eq; try done;
  intros [= <-]; by apply tags_match_delete.

(** The same for a destructor that deletes a nested plan, given the lemma
    for the nested plan's class. *)
Ltac destructor_shrinks_nested nested :=
  intros Hs;
  unfold delete_CUDPPCompactPlan, delete_CUDPPRadixSortPlan,
    delete_CUDPPSparseMatrixVectorMultiplyPlan,
    bind, deref, emit, operator_delete, ret, undefined;
  cbn;
  repeat case_match; simplify_eq; try done;
  intros [= <-]; apply tags_match_delete;
  repeat match goal with u : unit |- _ => destruct u end;
  match goal with
  | H : _ = Ret _ ?s1 |- tags_match ?s1 =>
      eapply nested; [| exact H]; by eapply tags_match_plans
  end.

Lemma delete_CUDPPScanPlan_tags_match h s s' :
  tags_match s -> delete_CUDPPScanPlan h s = Ret tt s' -> tags_match s'.
Proof. destructor_shrinks. Qed.

Lemma delete_CUDPPSegmentedScanPlan_tags_match h s s' :
  tags_match s -> delete_CUDPPSegmentedScanPlan h s = Ret tt s' -> tags_match s'.
Proof. destructor_shrinks. Qed.

Lemma delete_CUDPPCompactPlan_tags_match h s s' :
  tags_match s -> delete_CUDPPCompactPlan h s = Ret tt s' -> tags_match s'.
Proof.
  destructor_shrinks_nested delete_CUDPPScanPlan_tags_match.
Qed.

Lemma delete_CUDPPReducePlan_tags_match h s s' :
  tags_match s -> delete_CUDPPReducePlan h s = Ret tt s' -> tags_match s'.
Proof. destructor_shrinks. Qed.

Lemma delete_CUDPPRadixSortPlan_tags_match h s s' :
  tags_match s -> delete_CUDPPRadixSortPlan h s = Ret tt s' -> tags_match s'.
Proof.
  destructor_shrinks_nested delete_CUDPPScanPlan_tags_match.
Qed.

Lemma delete_CUDPPSparseMatrixVectorMultiplyPlan_tags_match h s s' :
  tags_match s ->
  delete_CUDPPSparseMatrixVectorMultiplyPlan h s = Ret tt s' -> tags_match s'.
Proof.
  destructor_shrinks_nested delete_CUDPPSegmentedScanPlan_tags_match.
Qed.

Lemma delete_CUDPPRandPlan_tags_match h s s' :
  tags_match s -> delete_CUDPPRandPlan h s = Ret tt s' -> tags_match s'.
Proof. destructor_shrinks. Qed.

Lemma cudppDestroyPlan_tags_match planHandle r s s' :
  tags_match s -> cudppDestroyPlan K planHandle s = Ret r s' -> tags_match s'.
Proof.
  intros Hs. unfold cudppDestroyPlan, getPlanPtrFromHandle. cbv zeta.
  destruct (planHandle =? CUDPP_INVALID_HANDLE K); [by intros [= <- <-] |].
  unfold bind at 1, deref.
  destruct (plans s !! planHandle) as [p |]; [| done].
  destruct (algorithm (m_config p)); unfold bind, ret;
    try (by intros [= <- <-]);
    match goal with
    | |- context [match ?c with Ret _ _ => _ | Undefined => _ end] =>
        destruct c as [[] s1 |] eqn:Hdel; [| done]
    end;
    intros [= <- <-];
    eauto using delete_CUDPPScanPlan_tags_match,
      delete_CUDPPSegmentedScanPlan_tags_match,
      delete_CUDPPCompactPlan_tags_match, delete_CUDPPReducePlan_tags_match,
      delete_CUDPPRadixSortPlan_tags_match, delete_CUDPPRandPlan_tags_match.
Qed.

Lemma delete_or_null_live (delete_X : Z -> M unit) p obj s :
  plans s !! p = Some obj -> delete_or_null delete_X p s = delete_X p s.
Proof.
  intros Hp. unfold delete_or_null, is_null, bind.
  rewrite (bool_decide_eq_false_2 (plans s !! p = None)) by congruence.
  by rewrite andb_false_r.
Qed.

Lemma delete_or_null_nonnull (delete_X : Z -> M unit) p s :
  p ≠ 0 -> delete_or_null delete_X p s = delete_X p s.
Proof.
  intros Hp. unfold delete_or_null, is_null, bind.
  by destruct (Z.eqb_spec p 0).
Qed.

Lemma delete_or_null_null (delete_X : Z -> M unit) s :
  plans s !! 0 = None -> delete_or_null delete_X 0 s = Ret tt s.
Proof.
  intros Hp. unfold delete_or_null, is_null, bind.
  by rewrite (bool_decide_eq_true_2 (plans s !! 0 = None)) by done.
Qed.

Lemma delete_or_null_cases (delete_X : Z -> M unit) p s :
  (p = 0 ∧ plans s !! p = None ∧ delete_or_null delete_X p s = Ret tt s)
  ∨ delete_or_null delete_X p s = delete_X p s.
Proof.
  destruct (decide (p = 0)) as [-> | Hp];
    [| right; by apply delete_or_null_nonnull].
  destruct (plans s !! 0) as [obj |] eqn:Hobj.
  - right. by apply (delete_or_null_live _ _ obj).
  - left. do 2 (split; [done |]). by apply delete_or_null_null.
Qed.

Lemma cudppDestroySparseMatrix_tags_match sparseMatrixHandle r s s' :
  tags_match s ->
  cudppDestroySparseMatrix K sparseMatrixHandle s = Ret r s' -> tags_match s'.
Proof.
  intros Hs. unfold cudppDestroySparseMatrix, getPlanPtrFromHandle. cbv zeta.
  destruct (sparseMatrixHandle =? CUDPP_INVALID_HANDLE K);
    [by intros [= <- <-] |].
  unfold bind, ret.
  destruct (delete_or_null_cases delete_CUDPPSparseMatrixVectorMultiplyPlan
              sparseMatrixHandle s) as [(_ & _ & ->) | ->];
    [by intros [= <- <-] |].
  destruct (delete_CUDPPSparseMatrixVectorMultiplyPlan _ s)
    as [[] s1 |] eqn:Hdel; [| done].
  intros [= <- <-].
  eauto using delete_CUDPPSparseMatrixVectorMultiplyPlan_tags_match.
Qed.

Lemma cudppPlan_tags_match cudppHandle config numElements numRows rowPitch
    r s s' :
  tags_match s ->
  cudppPlan K cudppHandle config numElements numRows rowPitch s = Ret r s' ->
  tags_match s'.
Proof.
  intros Hs. unfold cudppPlan.
  destruct (negb _); [by intros [= <- <-] |].
  destruct (algorithm config) eqn:Halg; unfold bind.
  - rewrite new_CUDPPScanPlan_run, finish_plan_fresh. intros [= <- <-].
    tags_match_grows.
  - rewrite new_CUDPPSegmentedScanPlan_run, finish_plan_fresh.
    intros [= <- <-]. tags_match_grows.
  - destruct (decide (numRows = 1)) as [-> | Hne].
    + rewrite new_CUDPPCompactPlan_run, finish_plan_fresh. intros [= <- <-].
      tags_match_grows.
    + by rewrite new_CUDPPCompactPlan_assert.
  - rewrite new_CUDPPReducePlan_run, finish_plan_fresh. intros [= <- <-].
    tags_match_grows.
  - rewrite new_CUDPPRadixSortPlan_run, finish_plan_fresh. intros [= <- <-].
    tags_match_grows.
  - by intros [= <- <-].
  - rewrite new_CUDPPRandPlan_run, finish_plan_fresh. intros [= <- <-].
    tags_match_grows.
Qed.

Lemma cudppSparseMatrix_tags_match cudppHandle config numNonZeroElements
    numRows A h_rowIndices h_indices r s s' :
  tags_match s ->
  cudppSparseMatrix K cudppHandle config numNonZeroElements numRows
    A h_rowIndices h_indices s = Ret r s' ->
  tags_match s'.
Proof.
  intros Hs. unfold cudppSparseMatrix. cbv zeta.
  destruct (bool_decide_reflect (algorithm config = CUDPP_SPMVMULT))
    as [Halg | Halg]; [| by intros [= <- <-]].
  cbn [negb orb].
  destruct (_ || _); [by intros [= <- <-] |]. cbn [negb bool_decide].
  rewrite bool_decide_eq_true_2 by done. cbn [negb]. unfold bind.
  destruct (rowFinalIndex_table numRows h_rowIndices numNonZeroElements)
    as [tbl |] eqn:Htbl.
  - rewrite (new_CUDPPSparseMatrixVectorMultiplyPlan_run _ _ _ _ _ _ _ tbl)
      by done.
    destruct (negb _); intros [= <- <-]; tags_match_grows.
  - by rewrite new_CUDPPSparseMatrixVectorMultiplyPlan_undefined.
Qed.

(** In every reachable state the class of each live plan is the one its
    tag names: the tag-driven casts of [cudppDestroyPlan] are to the right
    class. *)
Lemma reachable_tags_match (s : State) : reachable K s -> tags_match s.
Proof.
  induction 1 as [| s ? ? ? ? ? r s' _ IH Hrun | s ? r s' _ IH Hrun
                  | s ? ? ? ? ? ? ? r s' _ IH Hrun | s ? r s' _ IH Hrun].
  - unfold tags_match. apply map_Forall_empty.
  - eauto using cudppPlan_tags_match.
  - eauto using cudppDestroyPlan_tags_match.
  - eauto using cudppSparseMatrix_tags_match.
  - eauto using cudppDestroySparseMatrix_tags_match.
Qed.

End Facts.

(** ** Claims *)

(** C1. A request in which Forward and Backward are both set, or Exclusive
    and Inclusive are both set, or whose algorithm is Compact with more than
    one row, makes [cudppPlan] return [CUDPP_ERROR_ILLEGAL_CONFIGURATION]
    and store the invalid sentinel in the output handle.  The state it
    returns is the state it was called in: no constructor has run, no
    storage collaborator was called, the heap and the trace are unchanged. *)
Theorem cudppPlan_rejects_illegal_request (K : cudpp_header)
    (cudppHandle : Z) (config : CUDPPConfiguration)
    (numElements numRows rowPitch : Z) (s : State) :
  illegal_request K config numRows ->
  cudppPlan K cudppHandle config numElements numRows rowPitch s
  = Ret (CUDPP_ERROR_ILLEGAL_CONFIGURATION, Some (CUDPP_INVALID_HANDLE K)) s.
Proof.
  intros H. unfold cudppPlan.
  rewrite (validateOptions_illegal K _ numElements _ rowPitch H). done.
Qed.

Lemma cudppPlan_rejects_illegal_request_witness :
  cudppPlan example_header 7
    {| algorithm := CUDPP_SCAN; op := CUDPP_ADD; datatype := CUDPP_INT;
       options := 3 |} 100 1 0 initial_state
  = Ret (CUDPP_ERROR_ILLEGAL_CONFIGURATION, Some 3235494609) initial_state.
Proof.
  apply (cudppPlan_rejects_illegal_request example_header).
  left. split; vm_compute; lia.
Defined.

(** C2, as the code has it.  Destroying a plan that owns a nested plan
    always ends with the release of the parent object itself, after the
    nested plan is gone.  The order of the two earlier steps depends on the
    class.  A compact plan and a radix-sort plan destroy the nested scan plan
    first and release their own scratch storage after it.  A sparse
    matrix-vector plan releases its own scratch storage first, then destroys
    the nested segmented-scan plan, then frees its final-index table. *)
Theorem nested_plan_destruction_order (s : State) (h hs : Z)
    (p ps : CUDPPPlan) :
  plans s !! h = Some p ->
  plans s !! hs = Some ps ->
  (derived p = CompactPlan hs -> derived ps = ScanPlan ->
   ∃ s', delete_CUDPPCompactPlan h s = Ret tt s'
         ∧ plans s' = delete h (delete hs (plans s))
         ∧ trace s' = trace s ++ [Dtor CUDPP_COMPACT h;
                                  Dtor CUDPP_SCAN hs; FreeStorage CUDPP_SCAN hs;
                                  OpDelete hs;
                                  FreeStorage CUDPP_COMPACT h;
                                  OpDelete h])
  ∧ (∀ keysOnly, derived p = RadixSortPlan hs keysOnly ->
     derived ps = ScanPlan ->
     ∃ s', delete_CUDPPRadixSortPlan h s = Ret tt s'
           ∧ plans s' = delete h (delete hs (plans s))
           ∧ trace s' = trace s ++ [Dtor CUDPP_SORT_RADIX h;
                                    Dtor CUDPP_SCAN hs;
                                    FreeStorage CUDPP_SCAN hs; OpDelete hs;
                                    FreeStorage CUDPP_SORT_RADIX h;
                                    OpDelete h])
  ∧ (∀ tbl rows nnz,
     derived p = SparseMatrixVectorMultiplyPlan hs tbl rows nnz ->
     derived ps = SegmentedScanPlan ->
     ∃ s', delete_CUDPPSparseMatrixVectorMultiplyPlan h s = Ret tt s'
           ∧ plans s' = delete h (delete hs (plans s))
           ∧ trace s' = trace s ++ [Dtor CUDPP_SPMVMULT h;
                                    FreeStorage CUDPP_SPMVMULT h;
                                    Dtor CUDPP_SEGMENTED_SCAN hs;
                                    FreeStorage CUDPP_SEGMENTED_SCAN hs;
                                    OpDelete hs;
                                    DeleteArray h; OpDelete h]).
Proof.
  intros Hp Hps. split; [| split].
  - intros Hd Hds. eexists.
    by rewrite (delete_CUDPPCompactPlan_run h hs p ps s Hp Hd Hps Hds).
  - intros keysOnly Hd Hds. eexists.
    by rewrite (delete_CUDPPRadixSortPlan_run h hs keysOnly p ps s
                  Hp Hd Hps Hds).
  - intros tbl rows nnz Hd Hds. eexists.
    by rewrite (delete_CUDPPSparseMatrixVectorMultiplyPlan_run
                  h hs tbl rows nnz p ps s Hp Hd Hps Hds).
Qed.

Lemma nested_plan_destruction_order_witness :
  ∃ s1 s2,
    cudppPlan example_header 7 compact_request 100 1 0 initial_state
    = Ret (CUDPP_SUCCESS, Some 1) s1
    ∧ delete_CUDPPCompactPlan 1 s1 = Ret tt s2
    ∧ trace s2 = trace s1 ++ [Dtor CUDPP_COMPACT 1;
                              Dtor CUDPP_SCAN 2; FreeStorage CUDPP_SCAN 2;
                              OpDelete 2;
                              FreeStorage CUDPP_COMPACT 1; OpDelete 1].
Proof.
  eexists _. eassert (Hrun : cudppPlan example_header 7 compact_request
                               100 1 0 initial_state = Ret _ _)
    by (vm_compute; reflexivity).
  match type of Hrun with _ = Ret _ ?s1 =>
    destruct (nested_plan_destruction_order s1 1 2
                (CUDPPPlan_ctor 7 compact_request 100 1 0 (CompactPlan 2))
                (CUDPPPlan_ctor 7 {| algorithm := CUDPP_SCAN; op := CUDPP_ADD;
                                     datatype := CUDPP_UINT; options := 5 |}
                   100 1 0 ScanPlan)
                eq_refl eq_refl) as [H _]
  end.
  destruct (H eq_refl eq_refl) as (s2 & H1 & _ & H2).
  exists s2. split; [exact Hrun |]. split; [exact H1 | exact H2].
Defined.

(** Destroying the compact plan at handle 1 finishes with its nested scan
    plan (handle 2) before the compact plan's own scratch storage is
    released; the release of the parent's storage comes before no step of
    the nested plan's destruction. *)
Lemma nested_plan_destruction_order_counterexample :
  ∃ s1 s2,
    cudppPlan example_header 7 compact_request 100 1 0 initial_state
    = Ret (CUDPP_SUCCESS, Some 1) s1
    ∧ derived <$> plans s1 !! 1 = Some (CompactPlan 2)
    ∧ cudppDestroyPlan example_header 1 s1 = Ret CUDPP_SUCCESS s2
    ∧ precedes (OpDelete 2) (FreeStorage CUDPP_COMPACT 1) (trace s2) = true
    ∧ precedes (FreeStorage CUDPP_COMPACT 1) (Dtor CUDPP_SCAN 2) (trace s2)
      = false
    ∧ precedes (FreeStorage CUDPP_COMPACT 1) (OpDelete 2) (trace s2) = false.
Proof.
  eexists _, _. split; [by vm_compute |]. split; [by vm_compute |].
  split; [by vm_compute |]. by vm_compute.
Qed.

(** C3, as the code has it.  [cudppDestroyPlan] returns
    [CUDPP_ERROR_INVALID_HANDLE], and leaves the state as it was, when the
    handle is the invalid sentinel; it returns that code for no other
    handle.  A handle that resolves to no live plan and is not the sentinel
    is not detected: the plan pointer is dereferenced unchecked and the
    behaviour is undefined.  So after [cudppPlan] and [cudppDestroyPlan] on a
    scan request, which both succeed, a second [cudppDestroyPlan] on the same
    handle is undefined. *)
Theorem cudppDestroyPlan_invalid_handle (K : cudpp_header) (s : State) :
  cudppDestroyPlan K (CUDPP_INVALID_HANDLE K) s
  = Ret CUDPP_ERROR_INVALID_HANDLE s
  ∧ (∀ h s', cudppDestroyPlan K h s = Ret CUDPP_ERROR_INVALID_HANDLE s' ->
             h = CUDPP_INVALID_HANDLE K)
  ∧ (∀ h, h ≠ CUDPP_INVALID_HANDLE K -> plans s !! h = None ->
          cudppDestroyPlan K h s = Undefined)
  ∧ (∀ cudppHandle config numElements numRows rowPitch,
       algorithm config = CUDPP_SCAN ->
       ¬ illegal_request K config numRows ->
       ∃ h s1 s2,
         cudppPlan K cudppHandle config numElements numRows rowPitch s
         = Ret (CUDPP_SUCCESS, Some h) s1
         ∧ cudppDestroyPlan K h s1 = Ret CUDPP_SUCCESS s2
         ∧ plans s2 !! h = None
         ∧ cudppDestroyPlan K h s2 = Undefined).
Proof.
  split; [| split; [| split]].
  - unfold cudppDestroyPlan, getPlanPtrFromHandle. cbv zeta. by rewrite Z.eqb_refl.
  - intros h s'. unfold cudppDestroyPlan, getPlanPtrFromHandle. cbv zeta.
    destruct (Z.eqb_spec h (CUDPP_INVALID_HANDLE K)) as [E | E]; [done |].
    unfold bind, deref, ret. destruct (plans s !! h) as [p |]; [| done].
    destruct (algorithm (m_config p));
      repeat match goal with
             | |- context [match ?c with Ret _ _ => _ | Undefined => _ end] =>
                 destruct c
             end; done.
  - intros h Hh Hnone. unfold cudppDestroyPlan, getPlanPtrFromHandle. cbv zeta.
    destruct (Z.eqb_spec h (CUDPP_INVALID_HANDLE K)) as [E | E]; [done |].
    unfold bind, deref. by rewrite Hnone.
  - intros cudppHandle config numElements numRows rowPitch Halg Hv.
    pose proof (fresh_handle_valid K s) as Hfresh.
    set (h := fresh_handle K s) in *.
    set (p := CUDPPPlan_ctor (getManagerFromHandle K cudppHandle) config
                numElements numRows rowPitch ScanPlan).
    assert (Hdestroy : ∀ s1 : State, plans s1 !! h = Some p ->
      cudppDestroyPlan K h s1
      = Ret CUDPP_SUCCESS
          {| plans := delete h (plans s1); next_handle := next_handle s1;
             trace := trace s1 ++ [Dtor CUDPP_SCAN h; FreeStorage CUDPP_SCAN h;
                                   OpDelete h] |}).
    { intros s1 Hp. unfold cudppDestroyPlan, getPlanPtrFromHandle. cbv zeta.
      destruct (Z.eqb_spec h (CUDPP_INVALID_HANDLE K)) as [E | E]; [done |].
      unfold bind at 1, deref. rewrite Hp. cbn [p CUDPPPlan_ctor m_config].
      rewrite Halg. unfold bind.
      by rewrite (delete_CUDPPScanPlan_run h p s1 Hp eq_refl). }
    eexists h, _, _.
    rewrite (cudppPlan_validated K cudppHandle config numElements numRows
               rowPitch s Hv), Halg.
    cbv zeta. unfold bind. rewrite new_CUDPPScanPlan_run, finish_plan_fresh.
    split; [reflexivity |].
    rewrite Hdestroy by (cbn [plans after_new_scan]; apply lookup_insert_eq).
    split; [reflexivity |]. cbn [plans after_new_scan].
    split; [apply lookup_delete_eq |].
    unfold cudppDestroyPlan, getPlanPtrFromHandle. cbv zeta.
    destruct (Z.eqb_spec h (CUDPP_INVALID_HANDLE K)) as [E | E]; [done |].
    unfold bind, deref. cbn [plans]. by rewrite lookup_delete_eq.
Qed.

Lemma cudppDestroyPlan_invalid_handle_witness :
  ∃ h s1 s2,
    cudppPlan example_header 7
      {| algorithm := CUDPP_SCAN; op := CUDPP_ADD; datatype := CUDPP_INT;
         options := 5 |} 100 1 0 initial_state
    = Ret (CUDPP_SUCCESS, Some h) s1
    ∧ cudppDestroyPlan example_header h s1 = Ret CUDPP_SUCCESS s2
    ∧ plans s2 !! h = None
    ∧ cudppDestroyPlan example_header h s2 = Undefined.
Proof.
  destruct (cudppDestroyPlan_invalid_handle example_header initial_state)
    as (_ & _ & _ & H).
  apply H; [reflexivity |].
  unfold illegal_request, option_set. vm_compute.
  intros [[_ H'] | [[_ H'] | [H' _]]];
    [by apply H' | by apply H' | discriminate].
Defined.

(** The second destroy of a scan plan's handle does not return
    [CUDPP_ERROR_INVALID_HANDLE]: the handle 1 no longer resolves and the
    call is undefined. *)
Lemma cudppDestroyPlan_twice_counterexample :
  ∃ s1 s2,
    cudppPlan example_header 7
      {| algorithm := CUDPP_SCAN; op := CUDPP_ADD; datatype := CUDPP_INT;
         options := 5 |} 100 1 0 initial_state
    = Ret (CUDPP_SUCCESS, Some 1) s1
    ∧ cudppDestroyPlan example_header 1 s1 = Ret CUDPP_SUCCESS s2
    ∧ cudppDestroyPlan example_header 1 s2 = Undefined
    ∧ cudppDestroyPlan example_header 1 s2
      ≠ Ret CUDPP_ERROR_INVALID_HANDLE s2.
Proof.
  eexists _, _. split; [by vm_compute |]. split; [by vm_compute |].
  split; [by vm_compute |]. vm_compute. discriminate.
Qed.

(** C4, as the code has it.  For a live plan whose recorded tag is scan,
    segmented scan, compact, radix sort, reduce or random,
    [cudppDestroyPlan] dispatches on the tag stored in the plan, runs the
    destructor of that class exactly once (and no other class's destructor
    on this handle), frees that class's storage exactly once where the class
    has storage, and only then releases the object: the release of the
    handle is the last event and the handle resolves no more.  The switch
    has no case for the sparse matrix-vector tag: such a plan is refused with
    [CUDPP_ERROR_ILLEGAL_CONFIGURATION], no cleanup runs and the state is
    unchanged; those plans are released by [cudppDestroySparseMatrix]. *)
Theorem cudppDestroyPlan_dispatch (K : cudpp_header) (s : State) (h : Z)
    (p : CUDPPPlan) :
  h ≠ CUDPP_INVALID_HANDLE K ->
  plans s !! h = Some p ->
  class_of (derived p) = algorithm (m_config p) ->
  nested_live s p = true ->
  let t := algorithm (m_config p) in
  (t ≠ CUDPP_SPMVMULT ->
   ∃ s' cleanup,
     cudppDestroyPlan K h s = Ret CUDPP_SUCCESS s'
     ∧ trace s' = trace s ++ cleanup ++ [OpDelete h]
     ∧ count_occ Event_eq_dec cleanup (Dtor t h) = 1%nat
     ∧ (∀ k, k ≠ t -> Dtor k h ∉ cleanup)
     ∧ (t ≠ CUDPP_RAND_MD5 ->
        count_occ Event_eq_dec cleanup (FreeStorage t h) = 1%nat)
     ∧ (OpDelete h ∉ cleanup)
     ∧ plans s' !! h = None)
  ∧ (t = CUDPP_SPMVMULT ->
     cudppDestroyPlan K h s = Ret CUDPP_ERROR_ILLEGAL_CONFIGURATION s
     ∧ ∃ s', cudppDestroySparseMatrix K h s = Ret CUDPP_SUCCESS s'
             ∧ plans s' !! h = None).
Proof.
  intros Hh Hp Hclass Hnested t.
  assert (Hrun : cudppDestroyPlan K h s
    = match t with
      | CUDPP_SCAN => bind (delete_CUDPPScanPlan h) (fun _ => ret CUDPP_SUCCESS) s
      | CUDPP_COMPACT =>
          bind (delete_CUDPPCompactPlan h) (fun _ => ret CUDPP_SUCCESS) s
      | CUDPP_SORT_RADIX =>
          bind (delete_CUDPPRadixSortPlan h) (fun _ => ret CUDPP_SUCCESS) s
      | CUDPP_SEGMENTED_SCAN =>
          bind (delete_CUDPPSegmentedScanPlan h) (fun _ => ret CUDPP_SUCCESS) s
      | CUDPP_RAND_MD5 =>
          bind (delete_CUDPPRandPlan h) (fun _ => ret CUDPP_SUCCESS) s
      | CUDPP_REDUCE =>
          bind (delete_CUDPPReducePlan h) (fun _ => ret CUDPP_SUCCESS) s
      | CUDPP_SPMVMULT => Ret CUDPP_ERROR_ILLEGAL_CONFIGURATION s
      end).
  { unfold cudppDestroyPlan, getPlanPtrFromHandle. cbv zeta.
    destruct (Z.eqb_spec h (CUDPP_INVALID_HANDLE K)) as [E | E]; [done |].
    unfold bind at 1, deref. rewrite Hp. fold t. by destruct t. }
  rewrite Hrun. clear Hrun. unfold nested_live in Hnested.
  split.
  - intros Ht.
    destruct (derived p) as [| | hs | a b | hs k | hs tbl rows nnz | seed] eqn:Hd;
      cbn [class_of] in Hclass; fold t in Hclass; rewrite <- Hclass in *;
      try done; unfold bind.
    + rewrite (delete_CUDPPScanPlan_run h p s Hp Hd).
      exists_cleanup [Dtor CUDPP_SCAN h; FreeStorage CUDPP_SCAN h].
    + rewrite (delete_CUDPPSegmentedScanPlan_run h p s Hp Hd).
      exists_cleanup [Dtor CUDPP_SEGMENTED_SCAN h;
                      FreeStorage CUDPP_SEGMENTED_SCAN h].
    + destruct (plans s !! hs) as [ps |] eqn:Hps; [| done].
      apply bool_decide_eq_true in Hnested.
      assert (Hne : hs ≠ h) by (intros ->; congruence).
      rewrite (delete_CUDPPCompactPlan_run h hs p ps s Hp Hd Hps Hnested).
      exists_cleanup [Dtor CUDPP_COMPACT h; Dtor CUDPP_SCAN hs;
                      FreeStorage CUDPP_SCAN hs; OpDelete hs;
                      FreeStorage CUDPP_COMPACT h].
    + rewrite (delete_CUDPPReducePlan_run h p a b s Hp Hd).
      exists_cleanup [Dtor CUDPP_REDUCE h; FreeStorage CUDPP_REDUCE h].
    + destruct (plans s !! hs) as [ps |] eqn:Hps; [| done].
      apply bool_decide_eq_true in Hnested.
      assert (Hne : hs ≠ h) by (intros ->; congruence).
      rewrite (delete_CUDPPRadixSortPlan_run h hs k p ps s Hp Hd Hps Hnested).
      exists_cleanup [Dtor CUDPP_SORT_RADIX h; Dtor CUDPP_SCAN hs;
                      FreeStorage CUDPP_SCAN hs; OpDelete hs;
                      FreeStorage CUDPP_SORT_RADIX h].
    + rewrite (delete_CUDPPRandPlan_run h p seed s Hp Hd).
      exists_cleanup [Dtor CUDPP_RAND_MD5 h].
  - intros Ht. rewrite Ht. split; [reflexivity |].
    destruct (derived p) as [| | hs | a b | hs k | hs tbl rows nnz | seed] eqn:Hd;
      cbn [class_of] in Hclass; fold t in Hclass; rewrite Ht in Hclass;
      try done.
    destruct (plans s !! hs) as [ps |] eqn:Hps; [| done].
    apply bool_decide_eq_true in Hnested.
    unfold cudppDestroySparseMatrix, getPlanPtrFromHandle. cbv zeta.
    destruct (Z.eqb_spec h (CUDPP_INVALID_HANDLE K)) as [E | E]; [done |].
    unfold bind. rewrite (delete_or_null_live _ h p s Hp).
    rewrite (delete_CUDPPSparseMatrixVectorMultiplyPlan_run
               h hs tbl rows nnz p ps s Hp Hd Hps Hnested).
    eexists. split; [reflexivity |]. cbn [plans]. apply lookup_delete_eq.
Qed.


Lemma cudppDestroyPlan_dispatch_witness :
  ∃ s1 s2 cleanup,
    cudppPlan example_header 7 compact_request 100 1 0 initial_state
    = Ret (CUDPP_SUCCESS, Some 1) s1
    ∧ cudppDestroyPlan example_header 1 s1 = Ret CUDPP_SUCCESS s2
    ∧ trace s2 = trace s1 ++ cleanup ++ [OpDelete 1]
    ∧ count_occ Event_eq_dec cleanup (Dtor CUDPP_COMPACT 1) = 1%nat
    ∧ plans s2 !! 1 = None.
Proof.
  eexists _. eassert (Hrun : cudppPlan example_header 7 compact_request
                               100 1 0 initial_state = Ret _ _)
    by (vm_compute; reflexivity).
  match type of Hrun with _ = Ret _ ?s1 =>
    destruct (cudppDestroyPlan_dispatch example_header s1 1
                (CUDPPPlan_ctor 7 compact_request 100 1 0 (CompactPlan 2)))
      as [H _]; [by vm_compute | reflexivity | reflexivity | reflexivity |]
  end.
  destruct H as (s2 & cleanup & H1 & H2 & H3 & _ & _ & _ & H4);
    [by vm_compute |].
  exists s2, cleanup. split; [exact Hrun |]. by repeat split.
Defined.

(** A sparse matrix-vector plan is a registered plan whose tag is in the
    closed set, yet [cudppDestroyPlan] on its handle runs no cleanup and
    removes nothing: it returns [CUDPP_ERROR_ILLEGAL_CONFIGURATION], the
    trace is as before and the handle still resolves. *)
Lemma cudppDestroyPlan_dispatch_counterexample :
  ∃ s1,
    cudppSparseMatrix example_header 7
      {| algorithm := CUDPP_SPMVMULT; op := CUDPP_ADD; datatype := CUDPP_FLOAT;
         options := 0 |} 12 3 4096 [0; 4; 9] 8192 initial_state
    = Ret (CUDPP_SUCCESS, Some 1) s1
    ∧ (algorithm ∘ m_config) <$> plans s1 !! 1 = Some CUDPP_SPMVMULT
    ∧ cudppDestroyPlan example_header 1 s1
      = Ret CUDPP_ERROR_ILLEGAL_CONFIGURATION s1
    ∧ count_occ Event_eq_dec (trace s1) (Dtor CUDPP_SPMVMULT 1) = 0%nat
    ∧ is_Some (plans s1 !! 1).
Proof.
  eexists _. split; [by vm_compute |]. split; [by vm_compute |].
  split; [by vm_compute |]. split; [by vm_compute |].
  eexists. by vm_compute.
Qed.

(** C5. For every element count, the radix-sort constructor computes
    [numBlocks2] as the ceiling of [numElements / (2 * SORT_CTA_SIZE)], that
    is the integer [b] with [numElements <= b * (2 * SORT_CTA_SIZE) <
    numElements + 2 * SORT_CTA_SIZE], and returns a plan whose nested scan
    plan is live and records, field by field, exactly [numBlocks2 * 16]
    elements, 1 row and pitch 0 (the product does not wrap) under the
    configuration Scan, Add, unsigned int, Forward | Exclusive and the
    caller's manager.  With 1000 elements and a tile size of 512 the block
    count is 1 and the nested scan plan is sized for 16 elements. *)
Theorem radix_sort_nested_scan_size (K : cudpp_header)
    (mgr : Z) (config : CUDPPConfiguration) (numElements : Z) (s : State) :
  0 <= numElements < 2 ^ 64 ->
  8 < SORT_CTA_SIZE K ->
  SORT_CTA_SIZE K * 2 < 2 ^ 31 ->
  let h := fresh_handle K s in
  let hs := handle_after K h in
  let b := numBlocks2 K numElements in
  b = ceil_div numElements (2 * SORT_CTA_SIZE K)
  ∧ numElements <= b * (2 * SORT_CTA_SIZE K) < numElements + 2 * SORT_CTA_SIZE K
  ∧ (∃ s' keysOnly p ps,
       new_CUDPPRadixSortPlan K mgr config numElements s = Ret h s'
       ∧ plans s' !! h = Some p
       ∧ derived p = RadixSortPlan hs keysOnly
       ∧ m_config p = config
       ∧ m_numElements p = numElements
       ∧ m_numRows p = 1
       ∧ m_rowPitch p = 0
       ∧ m_planManager p = mgr
       ∧ plans s' !! hs = Some ps
       ∧ derived ps = ScanPlan
       ∧ m_config ps
         = {| algorithm := CUDPP_SCAN; op := CUDPP_ADD;
              datatype := CUDPP_UINT;
              options := Z.lor (CUDPP_OPTION_FORWARD K)
                               (CUDPP_OPTION_EXCLUSIVE K) |}
       ∧ m_numElements ps = b * 16
       ∧ m_numRows ps = 1
       ∧ m_rowPitch ps = 0
       ∧ m_planManager ps = mgr)
  ∧ (numElements = 1000 -> SORT_CTA_SIZE K = 512 -> b = 1 ∧ b * 16 = 16).
Proof.
  intros Hn Hmin Hint h hs b.
  assert (Hb : b = ceil_div numElements (2 * SORT_CTA_SIZE K))
    by (by apply numBlocks2_ceil).
  split; [done |]. split.
  { rewrite Hb. apply ceil_div_spec. lia. }
  split.
  - eexists _, _, _, _. rewrite new_CUDPPRadixSortPlan_run.
    split; [reflexivity |]. cbn [plans]. fold h. fold hs.
    split; [by rewrite lookup_insert_eq |].
    do 6 (split; [reflexivity |]).
    split.
    { rewrite lookup_insert_ne by (symmetry; apply handle_after_ne).
      by rewrite lookup_insert_eq. }
    do 2 (split; [reflexivity |]).
    split; [| by repeat split].
    cbn [m_numElements CUDPPPlan_ctor].
    by rewrite (numBlocks2_times_16 K numElements Hn Hmin Hint).
  - intros -> HT. rewrite Hb, HT. by vm_compute.
Qed.

Lemma radix_sort_nested_scan_size_witness :
  numBlocks2 example_header 1000 = 1
  ∧ ∃ s', new_CUDPPRadixSortPlan example_header 7
            {| algorithm := CUDPP_SORT_RADIX; op := CUDPP_ADD;
               datatype := CUDPP_UINT; options := 32 |} 1000 initial_state
          = Ret 1 s'
          ∧ m_numElements <$> plans s' !! 2 = Some 16
          ∧ m_numRows <$> plans s' !! 2 = Some 1
          ∧ m_rowPitch <$> plans s' !! 2 = Some 0.
Proof.
  destruct (radix_sort_nested_scan_size example_header 7
              {| algorithm := CUDPP_SORT_RADIX; op := CUDPP_ADD;
                 datatype := CUDPP_UINT; options := 32 |} 1000 initial_state)
    as (_ & _ & (s' & k & p & ps & Hrun & _ & _ & _ & _ & _ & _ & _ & Hs
                 & _ & _ & Hn & Hr & Hp & _) & Hex);
    [vm_compute; split; [discriminate | reflexivity] | reflexivity
    | reflexivity |].
  split; [apply Hex; reflexivity |].
  exists s'. split; [exact Hrun |].
  change (handle_after example_header (fresh_handle example_header initial_state))
    with 2 in Hs.
  rewrite Hs. cbn [fmap option_fmap option_map]. rewrite Hn, Hr, Hp.
  by vm_compute.
Defined.

(** C6. Constructing a compact plan with one row builds exactly one nested
    plan, a scan plan: the heap gains the compact plan and that scan plan and
    nothing else, and one [new CUDPPScanPlan] is on the trace.  The scan
    plan's configuration is Scan, Add, unsigned int, with options
    Exclusive | Backward when Backward is set in the caller's options and
    Exclusive | Forward otherwise; it records the caller's element count, row
    count and row pitch. *)
Theorem compact_nested_scan_plan (K : cudpp_header)
    (mgr : Z) (config : CUDPPConfiguration)
    (numElements numRows rowPitch : Z) (s : State) :
  numRows = 1 ->
  let h := fresh_handle K s in
  let hs := handle_after K h in
  ∃ s' p ps,
    new_CUDPPCompactPlan K mgr config numElements numRows rowPitch s = Ret h s'
    ∧ hs ≠ h
    ∧ plans s' = <[h := p]> (<[hs := ps]> (plans s))
    ∧ trace s'
      = trace s ++ [OpNew CUDPP_COMPACT h; OpNew CUDPP_SCAN hs;
                    AllocStorage CUDPP_SCAN hs; AllocStorage CUDPP_COMPACT h]
    ∧ derived p = CompactPlan hs
    ∧ m_config p = config
    ∧ m_numElements p = numElements
    ∧ m_numRows p = numRows
    ∧ m_rowPitch p = rowPitch
    ∧ m_planManager p = mgr
    ∧ derived ps = ScanPlan
    ∧ algorithm (m_config ps) = CUDPP_SCAN
    ∧ op (m_config ps) = CUDPP_ADD
    ∧ datatype (m_config ps) = CUDPP_UINT
    ∧ (option_set config (CUDPP_OPTION_BACKWARD K) ->
       options (m_config ps)
       = Z.lor (CUDPP_OPTION_EXCLUSIVE K) (CUDPP_OPTION_BACKWARD K))
    ∧ (¬ option_set config (CUDPP_OPTION_BACKWARD K) ->
       options (m_config ps)
       = Z.lor (CUDPP_OPTION_EXCLUSIVE K) (CUDPP_OPTION_FORWARD K))
    ∧ m_numElements ps = numElements
    ∧ m_numRows ps = numRows
    ∧ m_rowPitch ps = rowPitch
    ∧ m_planManager ps = mgr.
Proof.
  intros -> h hs. eexists _, _, _.
  rewrite new_CUDPPCompactPlan_run. split; [reflexivity |].
  split; [apply handle_after_ne |].
  split; [reflexivity |].
  do 11 (split; [reflexivity |]).
  cbn [m_config CUDPPPlan_ctor]. unfold compact_scanConfig. cbn [options].
  split; [| split; [| by repeat split]]; intros H.
  - apply has_option_set in H. rewrite H. apply Z.lor_comm.
  - destruct (has_option config (CUDPP_OPTION_BACKWARD K)) eqn:E.
    + by apply has_option_set in E.
    + apply Z.lor_comm.
Qed.

Lemma compact_nested_scan_plan_witness :
  ∃ s', new_CUDPPCompactPlan example_header 7
          {| algorithm := CUDPP_COMPACT; op := CUDPP_MAX;
             datatype := CUDPP_FLOAT; options := 2 |} 100 1 0 initial_state
        = Ret 1 s'
        ∧ options <$> (m_config <$> plans s' !! 2) = Some 6
        ∧ m_numElements <$> plans s' !! 2 = Some 100.
Proof.
  destruct (compact_nested_scan_plan example_header 7
              {| algorithm := CUDPP_COMPACT; op := CUDPP_MAX;
                 datatype := CUDPP_FLOAT; options := 2 |} 100 1 0
              initial_state eq_refl)
    as (s' & p & ps & Hrun & _ & Hheap & _ & _ & _ & _ & _ & _ & _ & _ & _
        & _ & _ & Hback & _ & Hn & _).
  exists s'. split; [exact Hrun |].
  rewrite Hheap.
  change (handle_after example_header
            (fresh_handle example_header initial_state)) with 2.
  change (fresh_handle example_header initial_state) with 1.
  rewrite lookup_insert_ne by done. rewrite lookup_insert_eq.
  cbn [fmap option_fmap option_map]. rewrite Hn.
  rewrite Hback by (by vm_compute). done.
Defined.


(** C7, as the code has it.  Every sparse matrix-vector plan the
    constructor returns for a positive row count has a final-index table of
    exactly [numRows] entries; entry [i] equals [rowIndex[i+1]] for every
    [i < numRows - 1]; the last entry is the element count converted to
    [unsigned int], which is the element count itself when that is below
    2^32.  The constructor does return a plan when the row count is below
    2^32 and [rowIndex] has at least that many entries.  For 3 rows,
    [rowIndex = [0; 4; 9]] and 12 nonzero elements the table is
    [[4; 9; 12]]. *)
Theorem spmv_rowFinalIndex_table (K : cudpp_header)
    (mgr : Z) (config : CUDPPConfiguration) (numNonZeroElements : Z)
    (A : Z) (rowIndex : list Z) (index : Z) (numRows : Z) (s : State) :
  0 < numRows ->
  (∀ h s',
     new_CUDPPSparseMatrixVectorMultiplyPlan K mgr config numNonZeroElements
       A rowIndex index numRows s
     = Ret h s' ->
     ∃ hs tbl,
       derived <$> plans s' !! h
       = Some (SparseMatrixVectorMultiplyPlan hs tbl numRows
                 numNonZeroElements)
       ∧ Z.of_nat (length tbl) = numRows
       ∧ (∀ i : nat, Z.of_nat i < numRows - 1 -> tbl !! i = rowIndex !! S i)
       ∧ tbl !! Z.to_nat (numRows - 1) = Some (to_uint numNonZeroElements)
       ∧ (0 <= numNonZeroElements < 2 ^ 32 ->
          tbl !! Z.to_nat (numRows - 1) = Some numNonZeroElements))
  ∧ (numRows < 2 ^ 32 -> numRows <= Z.of_nat (length rowIndex) ->
     ∃ s' hs tbl,
       new_CUDPPSparseMatrixVectorMultiplyPlan K mgr config numNonZeroElements
         A rowIndex index numRows s
       = Ret (fresh_handle K s) s'
       ∧ derived <$> plans s' !! fresh_handle K s
         = Some (SparseMatrixVectorMultiplyPlan hs tbl numRows
                   numNonZeroElements)
       ∧ (numRows = 3 -> rowIndex = [0; 4; 9] -> numNonZeroElements = 12 ->
          tbl = [4; 9; 12])).
Proof.
  intros Hpos. split.
  - intros h s' Hret.
    destruct (rowFinalIndex_table numRows rowIndex numNonZeroElements)
      as [tbl |] eqn:Htbl.
    + rewrite (new_CUDPPSparseMatrixVectorMultiplyPlan_run
                 K mgr config numNonZeroElements A rowIndex index numRows
                 tbl s Htbl) in Hret.
      injection Hret as <- <-. cbn [plans]. rewrite lookup_insert_eq.
      apply rowFinalIndex_table_sound in Htbl as (_ & Hl & Hmid & Hlast);
        [| done].
      eexists _, tbl. split; [reflexivity |]. do 3 (split; [done |]).
      intros Hnz. by rewrite Hlast, to_uint_small.
    + by rewrite new_CUDPPSparseMatrixVectorMultiplyPlan_undefined in Hret.
  - intros Hrows Hlen.
    destruct (rowFinalIndex_table_exits numRows rowIndex numNonZeroElements
                ltac:(lia) Hlen) as [tbl Htbl].
    eexists _, _, tbl.
    rewrite (new_CUDPPSparseMatrixVectorMultiplyPlan_run
               K mgr config numNonZeroElements A rowIndex index numRows
               tbl s Htbl).
    split; [reflexivity |]. cbn [plans]. rewrite lookup_insert_eq.
    split; [reflexivity |].
    intros -> -> ->.
    rewrite rowFinalIndex_table_closed_form in Htbl by (cbn; lia).
    by injection Htbl as <-.
Qed.

Lemma spmv_rowFinalIndex_table_witness :
  ∃ s' hs,
    new_CUDPPSparseMatrixVectorMultiplyPlan example_header 7
      {| algorithm := CUDPP_SPMVMULT; op := CUDPP_ADD; datatype := CUDPP_FLOAT;
         options := 0 |} 12 4096 [0; 4; 9] 8192 3 initial_state
    = Ret 1 s'
    ∧ derived <$> plans s' !! 1
      = Some (SparseMatrixVectorMultiplyPlan hs [4; 9; 12] 3 12).
Proof.
  destruct (spmv_rowFinalIndex_table example_header 7
              {| algorithm := CUDPP_SPMVMULT; op := CUDPP_ADD;
                 datatype := CUDPP_FLOAT; options := 0 |}
              12 4096 [0; 4; 9] 8192 3 initial_state) as [_ H]; [lia |].
  destruct H as (s' & hs & tbl & Hrun & Hd & Hex); [lia | cbn; lia |].
  exists s', hs. split; [exact Hrun |].
  rewrite <- (Hex eq_refl eq_refl eq_refl). exact Hd.
Defined.

(** With 2^32 nonzero elements and one row, [cudppSparseMatrix] succeeds
    and the last (and only) entry of the final-index table is 0, not the
    element count. *)
Lemma spmv_rowFinalIndex_table_counterexample :
  ∃ s' hs tbl,
    cudppSparseMatrix example_header 7
      {| algorithm := CUDPP_SPMVMULT; op := CUDPP_ADD; datatype := CUDPP_FLOAT;
         options := 0 |} (2 ^ 32) 1 4096 [0] 8192 initial_state
    = Ret (CUDPP_SUCCESS, Some 1) s'
    ∧ derived <$> plans s' !! 1
      = Some (SparseMatrixVectorMultiplyPlan hs tbl 1 (2 ^ 32))
    ∧ tbl !! Z.to_nat (1 - 1) = Some 0
    ∧ tbl !! Z.to_nat (1 - 1) ≠ Some (2 ^ 32).
Proof.
  eexists _, _, _. split; [by vm_compute |]. split; [by vm_compute |].
  split; [by vm_compute |]. vm_compute. discriminate.
Qed.

(** C8. The radix-sort constructor sets the plan's keys-only flag to true
    exactly when the whole options field equals [CUDPP_OPTION_KEYS_ONLY].
    The flag is not a test of that bit: whenever the options are the
    keys-only value together with some bit outside it, the flag is false. *)
Theorem radix_sort_keys_only_flag (K : cudpp_header)
    (mgr : Z) (config : CUDPPConfiguration) (numElements : Z) (s : State) :
  ∃ s' hs keysOnly,
    new_CUDPPRadixSortPlan K mgr config numElements s
    = Ret (fresh_handle K s) s'
    ∧ derived <$> plans s' !! fresh_handle K s
      = Some (RadixSortPlan hs keysOnly)
    ∧ (keysOnly = true <-> options config = CUDPP_OPTION_KEYS_ONLY K)
    ∧ (∀ other : Z,
         Z.land other (CUDPP_OPTION_KEYS_ONLY K) = 0 -> other ≠ 0 ->
         options config = Z.lor (CUDPP_OPTION_KEYS_ONLY K) other ->
         keysOnly = false).
Proof.
  eexists _, _, _. rewrite new_CUDPPRadixSortPlan_run.
  split; [reflexivity |]. cbn [plans]. rewrite lookup_insert_eq.
  split; [reflexivity |]. split.
  - apply Z.eqb_eq.
  - intros other Hdisj Hne Heq. apply Z.eqb_neq. rewrite Heq.
    by apply lor_other_bit.
Qed.

Lemma radix_sort_keys_only_flag_witness :
  ∃ s' hs,
    new_CUDPPRadixSortPlan example_header 7
      {| algorithm := CUDPP_SORT_RADIX; op := CUDPP_ADD; datatype := CUDPP_UINT;
         options := 33 |} 1000 initial_state
    = Ret 1 s'
    ∧ derived <$> plans s' !! 1 = Some (RadixSortPlan hs false).
Proof.
  destruct (radix_sort_keys_only_flag example_header 7
              {| algorithm := CUDPP_SORT_RADIX; op := CUDPP_ADD;
                 datatype := CUDPP_UINT; options := 33 |} 1000 initial_state)
    as (s' & hs & keysOnly & Hrun & Hd & _ & Hother).
  exists s', hs. split; [exact Hrun |].
  rewrite <- (Hother 1); [exact Hd | reflexivity | lia | reflexivity].
Defined.

(** C9. [cudppSparseMatrix] called with an algorithm other than
    sparse matrix-vector multiply, or with no nonzero elements, or with no
    rows, returns [CUDPP_ERROR_ILLEGAL_CONFIGURATION], stores the invalid
    sentinel in the output handle and returns the state unchanged: no plan
    is constructed. *)
Theorem cudppSparseMatrix_rejects (K : cudpp_header)
    (cudppHandle : Z) (config : CUDPPConfiguration)
    (numNonZeroElements numRows : Z)
    (A : Z) (h_rowIndices : list Z) (h_indices : Z) (s : State) :
  algorithm config ≠ CUDPP_SPMVMULT ∨ numNonZeroElements = 0 ∨ numRows = 0 ->
  cudppSparseMatrix K cudppHandle config numNonZeroElements numRows
    A h_rowIndices h_indices s
  = Ret (CUDPP_ERROR_ILLEGAL_CONFIGURATION, Some (CUDPP_INVALID_HANDLE K)) s.
Proof.
  intros H. unfold cudppSparseMatrix.
  destruct H as [H | [H | H]].
  - rewrite (bool_decide_eq_false_2 (algorithm config = CUDPP_SPMVMULT) H).
    reflexivity.
  - subst. rewrite (Z.leb_refl 0), orb_true_r. reflexivity.
  - subst. rewrite (Z.leb_refl 0), orb_true_r. reflexivity.
Qed.

Lemma cudppSparseMatrix_rejects_witness :
  cudppSparseMatrix example_header 7
    {| algorithm := CUDPP_SPMVMULT; op := CUDPP_ADD; datatype := CUDPP_FLOAT;
       options := 0 |} 0 3 4096 [0; 4; 9] 8192 initial_state
  = Ret (CUDPP_ERROR_ILLEGAL_CONFIGURATION, Some 3235494609) initial_state.
Proof.
  apply (cudppSparseMatrix_rejects example_header).
  right. left. reflexivity.
Defined.

(** C10. For a request that passes validation, [cudppPlan] on the tags
    segmented scan, radix sort, reduce and random returns success with a
    handle to a plan that records 1 row and pitch 0, whatever row count and
    pitch the caller supplied.  On the tag scan, and on the tag compact with
    one row, it returns success with a handle to a plan that records the
    caller's row count and pitch.  No other plan is constructed: the
    sparse-matrix tag is refused without a plan, and a compact request with
    a row count other than 1 fails the constructor's assertion. *)
Theorem cudppPlan_recorded_rows (K : cudpp_header)
    (cudppHandle : Z) (config : CUDPPConfiguration)
    (numElements numRows rowPitch : Z) (s : State) :
  ¬ illegal_request K config numRows ->
  (algorithm config ∈ [CUDPP_SEGMENTED_SCAN; CUDPP_SORT_RADIX; CUDPP_REDUCE;
                       CUDPP_RAND_MD5] ->
   ∃ h s' p,
     cudppPlan K cudppHandle config numElements numRows rowPitch s
     = Ret (CUDPP_SUCCESS, Some h) s'
     ∧ plans s' !! h = Some p
     ∧ m_config p = config
     ∧ m_numRows p = 1 ∧ m_rowPitch p = 0)
  ∧ (algorithm config = CUDPP_SCAN
     ∨ (algorithm config = CUDPP_COMPACT ∧ numRows = 1) ->
     ∃ h s' p,
       cudppPlan K cudppHandle config numElements numRows rowPitch s
       = Ret (CUDPP_SUCCESS, Some h) s'
       ∧ plans s' !! h = Some p
       ∧ m_config p = config
       ∧ m_numRows p = numRows ∧ m_rowPitch p = rowPitch)
  ∧ (algorithm config = CUDPP_SPMVMULT ->
     cudppPlan K cudppHandle config numElements numRows rowPitch s
     = Ret (CUDPP_ERROR_ILLEGAL_CONFIGURATION, None) s)
  ∧ (algorithm config = CUDPP_COMPACT -> numRows ≠ 1 ->
     cudppPlan K cudppHandle config numElements numRows rowPitch s
     = Undefined).
Proof.
  intros Hv.
  rewrite (cudppPlan_validated K cudppHandle config numElements numRows
             rowPitch s Hv).
  cbv zeta. split; [| split; [| split]].
  - intros Hin.
    repeat (apply elem_of_cons in Hin as [-> | Hin]);
      [| | | | by apply elem_of_nil in Hin]; eexists _, _, _; unfold bind.
    + rewrite new_CUDPPSegmentedScanPlan_run, finish_plan_fresh.
      split; [reflexivity |]. cbn [plans]. rewrite lookup_insert_eq. done.
    + rewrite new_CUDPPRadixSortPlan_run, finish_plan_fresh.
      split; [reflexivity |]. cbn [plans]. rewrite lookup_insert_eq. done.
    + rewrite new_CUDPPReducePlan_run, finish_plan_fresh.
      split; [reflexivity |]. cbn [plans]. rewrite lookup_insert_eq. done.
    + rewrite new_CUDPPRandPlan_run, finish_plan_fresh.
      split; [reflexivity |]. cbn [plans]. rewrite lookup_insert_eq. done.
  - intros [-> | [-> ->]]; eexists _, _, _; unfold bind.
    + rewrite new_CUDPPScanPlan_run, finish_plan_fresh.
      split; [reflexivity |]. cbn [plans after_new_scan].
      rewrite lookup_insert_eq. done.
    + rewrite new_CUDPPCompactPlan_run, finish_plan_fresh.
      split; [reflexivity |]. cbn [plans]. rewrite lookup_insert_eq. done.
  - by intros ->.
  - intros -> Hne. unfold bind. by rewrite new_CUDPPCompactPlan_assert.
Qed.

Lemma cudppPlan_recorded_rows_witness :
  ∃ h s' p,
    cudppPlan example_header 7
      {| algorithm := CUDPP_REDUCE; op := CUDPP_ADD; datatype := CUDPP_FLOAT;
         options := 1 |} 4096 5 640 initial_state
    = Ret (CUDPP_SUCCESS, Some h) s'
    ∧ plans s' !! h = Some p
    ∧ m_numRows p = 1 ∧ m_rowPitch p = 0.
Proof.
  destruct (cudppPlan_recorded_rows example_header 7
              {| algorithm := CUDPP_REDUCE; op := CUDPP_ADD;
                 datatype := CUDPP_FLOAT; options := 1 |} 4096 5 640
              initial_state) as [H _].
  - unfold illegal_request, option_set. vm_compute.
    intros [[_ H] | [[_ H] | [H _]]]; [by apply H | by apply H | discriminate].
  - destruct H as (h & s' & p & H1 & H2 & _ & H3 & H4).
    + set_solver.
    + by exists h, s', p.
Defined.

(** * The plan interface beyond the claims *)

Section Interface.

Context (K : cudpp_header).

(** ** Validation, both ways *)

Lemma validateOptions_codes config numElements numRows rowPitch :
  validateOptions K config numElements numRows rowPitch = CUDPP_SUCCESS
  ∨ (validateOptions K config numElements numRows rowPitch
     = CUDPP_ERROR_ILLEGAL_CONFIGURATION
     ∧ illegal_request K config numRows).
Proof.
  unfold illegal_request, validateOptions.
  destruct (has_option config (CUDPP_OPTION_BACKWARD K)) eqn:Hb,
    (has_option config (CUDPP_OPTION_FORWARD K)) eqn:Hf,
    (has_option config (CUDPP_OPTION_EXCLUSIVE K)) eqn:He,
    (has_option config (CUDPP_OPTION_INCLUSIVE K)) eqn:Hi,
    (bool_decide_reflect (algorithm config = CUDPP_COMPACT)) as [Hc | Hc],
    (Z.ltb_spec 1 numRows) as [Hr | Hr];
    cbn [andb]; rewrite ?has_option_set in *; auto 10.
Qed.

(** ** The factory and the destroy entry points, in one step *)

Lemma validateOptions_success_inv config numElements numRows rowPitch :
  validateOptions K config numElements numRows rowPitch = CUDPP_SUCCESS ->
  ¬ illegal_request K config numRows.
Proof.
  intros Hv Hi.
  by rewrite (validateOptions_illegal K _ numElements _ rowPitch Hi) in Hv.
Qed.

Lemma cudppPlan_success cudppHandle config numElements numRows rowPitch s :
  ¬ illegal_request K config numRows ->
  plan_tag (algorithm config) = true ->
  (algorithm config = CUDPP_COMPACT -> numRows = 1) ->
  cudppPlan K cudppHandle config numElements numRows rowPitch s
  = Ret (CUDPP_SUCCESS, Some (fresh_handle K s))
        (created_state K (getManagerFromHandle K cudppHandle) config
           numElements numRows rowPitch s).
Proof.
  intros Hv Htag Hrows.
  rewrite (cudppPlan_validated K cudppHandle config numElements numRows
             rowPitch s Hv).
  cbv zeta. unfold created_state, created_nested, created_plan, bind.
  destruct (algorithm config) eqn:Halg; try done.
  - by rewrite new_CUDPPScanPlan_run, finish_plan_fresh.
  - by rewrite new_CUDPPSegmentedScanPlan_run, finish_plan_fresh.
  - rewrite (Hrows eq_refl).
    by rewrite new_CUDPPCompactPlan_run, finish_plan_fresh.
  - by rewrite new_CUDPPReducePlan_run, finish_plan_fresh.
  - by rewrite new_CUDPPRadixSortPlan_run, finish_plan_fresh.
  - by rewrite new_CUDPPRandPlan_run, finish_plan_fresh.
Qed.

Lemma cudppDestroyPlan_success h p s :
  h ≠ CUDPP_INVALID_HANDLE K ->
  plans s !! h = Some p ->
  class_of (derived p) = algorithm (m_config p) ->
  plan_tag (algorithm (m_config p)) = true ->
  nested_live s p = true ->
  cudppDestroyPlan K h s
  = Ret CUDPP_SUCCESS
        {| plans := delete h (without_nested p (plans s));
           next_handle := next_handle s;
           trace := trace s ++ cleanup_events h p |}.
Proof.
  intros Hh Hp Hclass Htag Hnested.
  unfold cudppDestroyPlan, getPlanPtrFromHandle. cbv zeta.
  destruct (Z.eqb_spec h (CUDPP_INVALID_HANDLE K)) as [E | E]; [done |].
  unfold bind at 1, deref. rewrite Hp.
  unfold nested_live in Hnested.
  unfold without_nested, nested_plan, cleanup_events.
  destruct (derived p) as [| | hs | a b | hs k | hs tbl rows nnz | seed] eqn:Hd;
    cbn [class_of] in Hclass; rewrite <- Hclass in *; try done; unfold bind.
  - by rewrite (delete_CUDPPScanPlan_run h p s Hp Hd).
  - by rewrite (delete_CUDPPSegmentedScanPlan_run h p s Hp Hd).
  - destruct (plans s !! hs) as [ps |] eqn:Hps; [| done].
    apply bool_decide_eq_true in Hnested.
    by rewrite (delete_CUDPPCompactPlan_run h hs p ps s Hp Hd Hps Hnested).
  - by rewrite (delete_CUDPPReducePlan_run h p a b s Hp Hd).
  - destruct (plans s !! hs) as [ps |] eqn:Hps; [| done].
    apply bool_decide_eq_true in Hnested.
    by rewrite (delete_CUDPPRadixSortPlan_run h hs k p ps s Hp Hd Hps Hnested).
  - by rewrite (delete_CUDPPRandPlan_run h p seed s Hp Hd).
Qed.

(** ** Reading a result backwards *)

Lemma cudppPlan_inv cudppHandle config numElements numRows rowPitch s r out s' :
  cudppPlan K cudppHandle config numElements numRows rowPitch s
  = Ret (r, out) s' ->
  (r = CUDPP_ERROR_ILLEGAL_CONFIGURATION ∧ s' = s
   ∧ out = Some (CUDPP_INVALID_HANDLE K) ∧ illegal_request K config numRows)
  ∨ (r = CUDPP_ERROR_ILLEGAL_CONFIGURATION ∧ s' = s ∧ out = None
     ∧ algorithm config = CUDPP_SPMVMULT)
  ∨ (r = CUDPP_SUCCESS ∧ out = Some (fresh_handle K s)
     ∧ plan_tag (algorithm config) = true
     ∧ ¬ illegal_request K config numRows
     ∧ s' = created_state K (getManagerFromHandle K cudppHandle) config
              numElements numRows rowPitch s).
Proof.
  intros Hrun.
  destruct (validateOptions_codes config numElements numRows rowPitch)
    as [Hv | [Hv Hi]].
  - apply validateOptions_success_inv in Hv.
    destruct (decide (algorithm config = CUDPP_SPMVMULT)) as [Halg | Halg].
    + rewrite (cudppPlan_validated K _ _ _ _ _ _ Hv), Halg in Hrun.
      injection Hrun as <- <- <-. right. left. done.
    + assert (Htag : plan_tag (algorithm config) = true)
        by (by destruct (algorithm config)).
      destruct (decide (algorithm config = CUDPP_COMPACT ∧ numRows ≠ 1))
        as [[Hc Hne] | Hok].
      * rewrite (cudppPlan_validated K _ _ _ _ _ _ Hv), Hc in Hrun.
        cbv zeta in Hrun. unfold bind in Hrun.
        by rewrite new_CUDPPCompactPlan_assert in Hrun.
      * rewrite cudppPlan_success in Hrun; [| done | done |].
        -- injection Hrun as <- <- <-. right. right. done.
        -- intros Hc. destruct (decide (numRows = 1)); [done |].
           exfalso. by apply Hok.
  - unfold cudppPlan in Hrun. rewrite Hv in Hrun. cbn in Hrun.
    injection Hrun as <- <- <-. left. done.
Qed.

Lemma delete_CUDPPScanPlan_inv h s s' :
  delete_CUDPPScanPlan h s = Ret tt s' ->
  ∃ p, plans s !! h = Some p ∧ derived p = ScanPlan.
Proof.
  unfold delete_CUDPPScanPlan, bind, deref.
  destruct (plans s !! h) as [p |]; [| done].
  destruct (derived p) eqn:Hd; try done. eauto.
Qed.

Lemma delete_CUDPPSegmentedScanPlan_inv h s s' :
  delete_CUDPPSegmentedScanPlan h s = Ret tt s' ->
  ∃ p, plans s !! h = Some p ∧ derived p = SegmentedScanPlan.
Proof.
  unfold delete_CUDPPSegmentedScanPlan, bind, deref.
  destruct (plans s !! h) as [p |]; [| done].
  destruct (derived p) eqn:Hd; try done. eauto.
Qed.

Lemma delete_CUDPPReducePlan_inv h s s' :
  delete_CUDPPReducePlan h s = Ret tt s' ->
  ∃ p a b, plans s !! h = Some p ∧ derived p = ReducePlan a b.
Proof.
  unfold delete_CUDPPReducePlan, bind, deref.
  destruct (plans s !! h) as [p |]; [| done].
  destruct (derived p) eqn:Hd; try done. eauto.
Qed.

Lemma delete_CUDPPRandPlan_inv h s s' :
  delete_CUDPPRandPlan h s = Ret tt s' ->
  ∃ p seed, plans s !! h = Some p ∧ derived p = RandPlan seed.
Proof.
  unfold delete_CUDPPRandPlan, bind, deref.
  destruct (plans s !! h) as [p |]; [| done].
  destruct (derived p) eqn:Hd; try done. eauto.
Qed.

Lemma delete_CUDPPCompactPlan_inv h s s' :
  delete_CUDPPCompactPlan h s = Ret tt s' ->
  ∃ p hs ps, plans s !! h = Some p ∧ derived p = CompactPlan hs
             ∧ plans s !! hs = Some ps ∧ derived ps = ScanPlan.
Proof.
  unfold delete_CUDPPCompactPlan, bind at 1, deref.
  destruct (plans s !! h) as [p |] eqn:Hp; [| done].
  destruct (derived p) as [| | hs | | | |] eqn:Hd; try done.
  unfold bind at 1, emit at 1. unfold bind at 1.
  destruct (delete_CUDPPScanPlan hs _) as [[] s1 |] eqn:Hn; [| done].
  apply delete_CUDPPScanPlan_inv in Hn as (ps & Hps & Hds). eauto 10.
Qed.

Lemma delete_CUDPPRadixSortPlan_inv h s s' :
  delete_CUDPPRadixSortPlan h s = Ret tt s' ->
  ∃ p hs k ps, plans s !! h = Some p ∧ derived p = RadixSortPlan hs k
               ∧ plans s !! hs = Some ps ∧ derived ps = ScanPlan.
Proof.
  unfold delete_CUDPPRadixSortPlan, bind at 1, deref.
  destruct (plans s !! h) as [p |] eqn:Hp; [| done].
  destruct (derived p) as [| | | | hs k | |] eqn:Hd; try done.
  unfold bind at 1, emit at 1. unfold bind at 1.
  destruct (delete_CUDPPScanPlan hs _) as [[] s1 |] eqn:Hn; [| done].
  apply delete_CUDPPScanPlan_inv in Hn as (ps & Hps & Hds). eauto 10.
Qed.

Lemma delete_CUDPPSparseMatrixVectorMultiplyPlan_inv h s s' :
  delete_CUDPPSparseMatrixVectorMultiplyPlan h s = Ret tt s' ->
  ∃ p hs tbl rows nnz ps,
    plans s !! h = Some p
    ∧ derived p = SparseMatrixVectorMultiplyPlan hs tbl rows nnz
    ∧ plans s !! hs = Some ps ∧ derived ps = SegmentedScanPlan.
Proof.
  unfold delete_CUDPPSparseMatrixVectorMultiplyPlan, bind at 1, deref.
  destruct (plans s !! h) as [p |] eqn:Hp; [| done].
  destruct (derived p) as [| | | | | hs tbl rows nnz |] eqn:Hd; try done.
  unfold bind at 1, emit at 1. unfold bind at 1, emit at 1. unfold bind at 1.
  destruct (delete_CUDPPSegmentedScanPlan hs _) as [[] s1 |] eqn:Hn; [| done].
  apply delete_CUDPPSegmentedScanPlan_inv in Hn as (ps & Hps & Hds).
  eauto 10.
Qed.

Lemma cudppDestroyPlan_inv h r s s' :
  cudppDestroyPlan K h s = Ret r s' ->
  (h = CUDPP_INVALID_HANDLE K ∧ r = CUDPP_ERROR_INVALID_HANDLE ∧ s' = s)
  ∨ (h ≠ CUDPP_INVALID_HANDLE K
     ∧ ∃ p, plans s !! h = Some p
            ∧ ((algorithm (m_config p) = CUDPP_SPMVMULT
                ∧ r = CUDPP_ERROR_ILLEGAL_CONFIGURATION ∧ s' = s)
               ∨ (plan_tag (algorithm (m_config p)) = true
                  ∧ class_of (derived p) = algorithm (m_config p)
                  ∧ nested_live s p = true
                  ∧ r = CUDPP_SUCCESS
                  ∧ s' = {| plans := delete h (without_nested p (plans s));
                            next_handle := next_handle s;
                            trace := trace s ++ cleanup_events h p |}))).
Proof.
  intros Hrun.
  destruct (decide (h = CUDPP_INVALID_HANDLE K)) as [-> | Hh].
  { left. unfold cudppDestroyPlan in Hrun. rewrite Z.eqb_refl in Hrun.
    by injection Hrun as <- <-. }
  right. split; [done |].
  assert (Hp : ∃ p, plans s !! h = Some p).
  { revert Hrun. unfold cudppDestroyPlan, getPlanPtrFromHandle. cbv zeta.
    destruct (Z.eqb_spec h (CUDPP_INVALID_HANDLE K)); [done |].
    unfold bind at 1, deref. destruct (plans s !! h); [eauto | done]. }
  destruct Hp as [p Hp]. exists p. split; [done |].
  assert (Hcases : algorithm (m_config p) = CUDPP_SPMVMULT
    ∨ (plan_tag (algorithm (m_config p)) = true
       ∧ class_of (derived p) = algorithm (m_config p)
       ∧ nested_live s p = true)).
  { revert Hrun. unfold cudppDestroyPlan, getPlanPtrFromHandle. cbv zeta.
    destruct (Z.eqb_spec h (CUDPP_INVALID_HANDLE K)); [done |].
    unfold bind at 1, deref. rewrite Hp. unfold nested_live.
    destruct (algorithm (m_config p)) eqn:Halg; [| | | | | by left |];
      unfold bind;
      match goal with
      | |- context [match ?c with Ret _ _ => _ | Undefined => _ end] =>
          destruct c as [[] s1 |] eqn:Hdel; [| done]
      end; intros _; right; (split; [done |]).
    - apply delete_CUDPPScanPlan_inv in Hdel as (p' & Hp' & Hd).
      simplify_eq. by rewrite Hd.
    - apply delete_CUDPPSegmentedScanPlan_inv in Hdel as (p' & Hp' & Hd).
      simplify_eq. by rewrite Hd.
    - apply delete_CUDPPCompactPlan_inv in Hdel
        as (p' & hs & ps & Hp' & Hd & Hps & Hds).
      simplify_eq. rewrite Hd, Hps. split; [done |].
      by apply bool_decide_eq_true.
    - apply delete_CUDPPReducePlan_inv in Hdel as (p' & a & b & Hp' & Hd).
      simplify_eq. by rewrite Hd.
    - apply delete_CUDPPRadixSortPlan_inv in Hdel
        as (p' & hs & k & ps & Hp' & Hd & Hps & Hds).
      simplify_eq. rewrite Hd, Hps. split; [done |].
      by apply bool_decide_eq_true.
    - apply delete_CUDPPRandPlan_inv in Hdel as (p' & seed & Hp' & Hd).
      simplify_eq. by rewrite Hd. }
  destruct Hcases as [Hspmv | (Htag & Hclass & Hnested)].
  - left. revert Hrun. unfold cudppDestroyPlan, getPlanPtrFromHandle. cbv zeta.
    destruct (Z.eqb_spec h (CUDPP_INVALID_HANDLE K)); [done |].
    unfold bind at 1, deref. rewrite Hp, Hspmv. by intros [= <- <-].
  - right. rewrite (cudppDestroyPlan_success h p s) in Hrun by done.
    by injection Hrun as <- <-.
Qed.

Lemma cudppDestroySparseMatrix_success h p s :
  h ≠ CUDPP_INVALID_HANDLE K ->
  plans s !! h = Some p ->
  class_of (derived p) = CUDPP_SPMVMULT ->
  nested_live s p = true ->
  cudppDestroySparseMatrix K h s
  = Ret CUDPP_SUCCESS
        {| plans := delete h (without_nested p (plans s));
           next_handle := next_handle s;
           trace := trace s ++ cleanup_events h p |}.
Proof.
  intros Hh Hp Hclass Hnested.
  unfold cudppDestroySparseMatrix, getPlanPtrFromHandle. cbv zeta.
  destruct (Z.eqb_spec h (CUDPP_INVALID_HANDLE K)) as [E | E]; [done |].
  unfold nested_live in Hnested.
  unfold without_nested, nested_plan, cleanup_events.
  destruct (derived p) as [| | | | | hs tbl rows nnz |] eqn:Hd; try done.
  destruct (plans s !! hs) as [ps |] eqn:Hps; [| done].
  apply bool_decide_eq_true in Hnested. unfold bind.
  rewrite (delete_or_null_live _ h p s Hp).
  by rewrite (delete_CUDPPSparseMatrixVectorMultiplyPlan_run
                h hs tbl rows nnz p ps s Hp Hd Hps Hnested).
Qed.

Lemma cudppDestroySparseMatrix_null s :
  0 ≠ CUDPP_INVALID_HANDLE K ->
  plans s !! 0 = None ->
  cudppDestroySparseMatrix K 0 s = Ret CUDPP_SUCCESS s.
Proof.
  intros Hh Hnone.
  unfold cudppDestroySparseMatrix, getPlanPtrFromHandle. cbv zeta.
  destruct (Z.eqb_spec 0 (CUDPP_INVALID_HANDLE K)) as [E | E]; [done |].
  unfold bind. by rewrite delete_or_null_null.
Qed.

Lemma cudppDestroySparseMatrix_inv h r s s' :
  cudppDestroySparseMatrix K h s = Ret r s' ->
  (h = CUDPP_INVALID_HANDLE K ∧ r = CUDPP_ERROR_INVALID_HANDLE ∧ s' = s)
  ∨ (h ≠ CUDPP_INVALID_HANDLE K ∧ h = 0 ∧ plans s !! h = None
     ∧ r = CUDPP_SUCCESS ∧ s' = s)
  ∨ (h ≠ CUDPP_INVALID_HANDLE K
     ∧ ∃ p, plans s !! h = Some p
            ∧ class_of (derived p) = CUDPP_SPMVMULT
            ∧ nested_live s p = true
            ∧ r = CUDPP_SUCCESS
            ∧ s' = {| plans := delete h (without_nested p (plans s));
                      next_handle := next_handle s;
                      trace := trace s ++ cleanup_events h p |}).
Proof.
  intros Hrun.
  destruct (decide (h = CUDPP_INVALID_HANDLE K)) as [-> | Hh].
  { left. unfold cudppDestroySparseMatrix in Hrun.
    rewrite Z.eqb_refl in Hrun. by injection Hrun as <- <-. }
  right.
  destruct (delete_or_null_cases delete_CUDPPSparseMatrixVectorMultiplyPlan
              h s) as [(-> & Hnone & _) | Hlive].
  { left. rewrite cudppDestroySparseMatrix_null in Hrun by done.
    by injection Hrun as <- <-. }
  right. split; [done |].
  assert (Hp : ∃ p, plans s !! h = Some p
                    ∧ class_of (derived p) = CUDPP_SPMVMULT
                    ∧ nested_live s p = true).
  { revert Hrun. unfold cudppDestroySparseMatrix, getPlanPtrFromHandle.
    cbv zeta.
    destruct (Z.eqb_spec h (CUDPP_INVALID_HANDLE K)); [done |]. unfold bind.
    rewrite Hlive.
    destruct (delete_CUDPPSparseMatrixVectorMultiplyPlan h s)
      as [[] s1 |] eqn:Hdel; [| done].
    intros _.
    apply delete_CUDPPSparseMatrixVectorMultiplyPlan_inv in Hdel
      as (p & hs & tbl & rows & nnz & ps & Hp & Hd & Hps & Hds).
    exists p. unfold nested_live. rewrite Hd, Hps. do 2 (split; [done |]).
    by apply bool_decide_eq_true. }
  destruct Hp as (p & Hp & Hclass & Hnested). exists p.
  rewrite (cudppDestroySparseMatrix_success h p s) in Hrun by done.
  by injection Hrun as <- <-.
Qed.

Lemma cudppSparseMatrix_success cudppHandle config numNonZeroElements numRows
    A h_rowIndices h_indices tbl s :
  algorithm config = CUDPP_SPMVMULT ->
  0 < numNonZeroElements -> 0 < numRows ->
  rowFinalIndex_table numRows h_rowIndices numNonZeroElements = Some tbl ->
  cudppSparseMatrix K cudppHandle config numNonZeroElements numRows
    A h_rowIndices h_indices s
  = Ret (CUDPP_SUCCESS, Some (fresh_handle K s))
        (created_sparse_state K (getManagerFromHandle K cudppHandle) config
           numNonZeroElements numRows tbl s).
Proof.
  intros Halg Hnz Hrows Htbl. unfold cudppSparseMatrix. cbv zeta.
  rewrite (bool_decide_eq_true_2 (algorithm config = CUDPP_SPMVMULT) Halg).
  destruct (Z.leb_spec numNonZeroElements 0); [lia |].
  destruct (Z.leb_spec numRows 0); [lia |].
  cbn [negb orb]. rewrite bool_decide_eq_true_2 by done. cbn [negb].
  unfold bind.
  rewrite (new_CUDPPSparseMatrixVectorMultiplyPlan_run _ _ _ _ _ _ _ _ tbl)
    by done.
  unfold getHandle, created_sparse_state.
  destruct (Z.eqb_spec (fresh_handle K s) 0) as [E | E]; [| done].
  by apply fresh_handle_nonnull in E.
Qed.

Lemma cudppSparseMatrix_inv cudppHandle config numNonZeroElements numRows
    A h_rowIndices h_indices s r out s' :
  cudppSparseMatrix K cudppHandle config numNonZeroElements numRows
    A h_rowIndices h_indices s = Ret (r, out) s' ->
  (r = CUDPP_ERROR_ILLEGAL_CONFIGURATION ∧ s' = s
   ∧ out = Some (CUDPP_INVALID_HANDLE K)
   ∧ (algorithm config ≠ CUDPP_SPMVMULT ∨ numNonZeroElements <= 0
      ∨ numRows <= 0))
  ∨ (r = CUDPP_SUCCESS ∧ out = Some (fresh_handle K s)
     ∧ algorithm config = CUDPP_SPMVMULT
     ∧ 0 < numNonZeroElements ∧ 0 < numRows
     ∧ ∃ tbl,
         rowFinalIndex_table numRows h_rowIndices numNonZeroElements
         = Some tbl
         ∧ s' = created_sparse_state K (getManagerFromHandle K cudppHandle)
                  config numNonZeroElements numRows tbl s).
Proof.
  intros Hrun.
  destruct (decide (algorithm config = CUDPP_SPMVMULT)) as [Halg | Halg];
    [destruct (Z.leb_spec numNonZeroElements 0) as [Hnz | Hnz];
     [| destruct (Z.leb_spec numRows 0) as [Hrows | Hrows]] |].
  - left. unfold cudppSparseMatrix in Hrun. cbv zeta in Hrun.
    destruct (Z.leb_spec numNonZeroElements 0); [| lia].
    rewrite orb_true_r in Hrun. cbn in Hrun.
    injection Hrun as <- <- <-. repeat split; auto.
  - left. unfold cudppSparseMatrix in Hrun. cbv zeta in Hrun.
    destruct (Z.leb_spec numRows 0); [| lia].
    rewrite orb_true_r in Hrun. cbn in Hrun.
    injection Hrun as <- <- <-. repeat split; auto.
  - right.
    destruct (rowFinalIndex_table numRows h_rowIndices numNonZeroElements)
      as [tbl |] eqn:Htbl.
    + rewrite (cudppSparseMatrix_success _ _ _ _ _ _ _ tbl) in Hrun by done.
      injection Hrun as <- <- <-. eauto 10.
    + exfalso. revert Hrun. unfold cudppSparseMatrix. cbv zeta.
      rewrite (bool_decide_eq_true_2 (algorithm config = CUDPP_SPMVMULT) Halg).
      destruct (Z.leb_spec numNonZeroElements 0); [lia |].
      destruct (Z.leb_spec numRows 0); [lia |].
      cbn [negb orb]. rewrite bool_decide_eq_true_2 by done. cbn [negb].
      unfold bind.
      by rewrite new_CUDPPSparseMatrixVectorMultiplyPlan_undefined.
  - left. unfold cudppSparseMatrix in Hrun. cbv zeta in Hrun.
    rewrite (bool_decide_eq_false_2 (algorithm config = CUDPP_SPMVMULT) Halg)
      in Hrun.
    cbn in Hrun. injection Hrun as <- <- <-. repeat split; auto.
Qed.

(** ** Handles and the heap *)

Lemma handle_after_usable (h : Z) :
  handle_after K h ≠ 0 ∧ handle_after K h ≠ CUDPP_INVALID_HANDLE K.
Proof.
  pose (s0 := {| plans := ∅; next_handle := h + 1; trace := [] |}).
  split.
  - apply (fresh_handle_nonnull K s0).
  - apply (fresh_handle_valid K s0).
Qed.

Lemma heap_below_grow (s : State) (m : gmap Z CUDPPPlan) (n : Z) t :
  heap_below K s -> next_handle s <= n ->
  (∀ h p, m !! h = Some p ->
          plans s !! h = Some p
          ∨ (h < n ∧ h ≠ 0 ∧ h ≠ CUDPP_INVALID_HANDLE K)) ->
  heap_below K {| plans := m; next_handle := n; trace := t |}.
Proof.
  intros Hs Hn Hm h p Hp. cbn [next_handle].
  destruct (Hm h p Hp) as [Hold | Hnew]; [| done].
  destruct (Hs h p Hold) as (? & ? & ?). repeat split; [lia | done | done].
Qed.

Lemma heap_below_shrink (s : State) (m : gmap Z CUDPPPlan) t :
  heap_below K s -> m ⊆ plans s ->
  heap_below K {| plans := m; next_handle := next_handle s; trace := t |}.
Proof.
  intros Hs Hm h p Hp. apply (Hs h p). by eapply lookup_weaken.
Qed.

Lemma destroyed_subseteq (h : Z) (p : CUDPPPlan) (m : gmap Z CUDPPPlan) :
  delete h (without_nested p m) ⊆ m.
Proof.
  etrans; [apply delete_subseteq |].
  unfold without_nested.
  destruct (nested_plan p); [apply delete_subseteq | done].
Qed.

Lemma heap_below_created mgr config numElements numRows rowPitch s :
  heap_below K s ->
  heap_below K (created_state K mgr config numElements numRows rowPitch s).
Proof.
  intros Hs. unfold created_state.
  pose proof (fresh_handle_ge K s) as Hge.
  pose proof (fresh_handle_nonnull K s) as Hnn.
  pose proof (fresh_handle_valid K s) as Hval.
  pose proof (handle_after_gt K (fresh_handle K s)) as Hgt.
  pose proof (handle_after_usable (fresh_handle K s)) as [Hann Haval].
  destruct (created_nested _ _ _ _ _) as [ps |]; cbv zeta;
    apply (heap_below_grow s); try done; try lia; intros h p.
  - rewrite !lookup_insert_Some. intros [[<- _] | [_ [[<- _] | [_ Hp]]]];
      [right | right | by left]; repeat split; try done; lia.
  - rewrite !lookup_insert_Some. intros [[<- _] | [_ Hp]];
      [right | by left]; repeat split; try done; lia.
Qed.

Lemma heap_below_created_sparse mgr config numNonZeroElements numRows tbl s :
  heap_below K s ->
  heap_below K (created_sparse_state K mgr config numNonZeroElements numRows
                  tbl s).
Proof.
  intros Hs. unfold created_sparse_state. cbv zeta.
  pose proof (fresh_handle_ge K s) as Hge.
  pose proof (fresh_handle_nonnull K s) as Hnn.
  pose proof (fresh_handle_valid K s) as Hval.
  pose proof (handle_after_gt K (fresh_handle K s)) as Hgt.
  pose proof (handle_after_usable (fresh_handle K s)) as [Hann Haval].
  apply (heap_below_grow s); try done; try lia; intros h p.
  rewrite !lookup_insert_Some. intros [[<- _] | [_ [[<- _] | [_ Hp]]]];
    [right | right | by left]; repeat split; try done; lia.
Qed.

(** A handle below the counter that the heap does not hold stays free until
    it is handed out; the fresh handle is never live. *)
Lemma heap_below_fresh (s : State) :
  heap_below K s ->
  plans s !! fresh_handle K s = None
  ∧ plans s !! handle_after K (fresh_handle K s) = None.
Proof.
  intros Hs.
  pose proof (fresh_handle_ge K s) as Hge.
  pose proof (handle_after_gt K (fresh_handle K s)) as Hgt.
  split.
  - destruct (plans s !! fresh_handle K s) as [p |] eqn:Hp; [| done].
    destruct (Hs _ _ Hp) as (? & _). lia.
  - destruct (plans s !! handle_after K (fresh_handle K s)) as [p |] eqn:Hp;
      [| done].
    destruct (Hs _ _ Hp) as (? & _). lia.
Qed.

Lemma reachable_heap (s : State) : reachable K s -> heap_below K s.
Proof.
  induction 1 as [| s ? ? ? ? ? [r out] s' _ IH Hrun | s ? r s' _ IH Hrun
                  | s ? ? ? ? ? ? ? [r out] s' _ IH Hrun
                  | s ? r s' _ IH Hrun].
  - unfold heap_below. cbn [plans initial_state]. apply map_Forall_empty.
  - apply cudppPlan_inv in Hrun
      as [(_ & -> & _) | [(_ & -> & _) | (_ & _ & _ & _ & ->)]];
      [done | done | by apply heap_below_created].
  - apply cudppDestroyPlan_inv in Hrun
      as [(_ & _ & ->) | (_ & p & _ & [(_ & _ & ->) | (_ & _ & _ & _ & ->)])];
      [done | done |].
    apply heap_below_shrink; [done | apply destroyed_subseteq].
  - apply cudppSparseMatrix_inv in Hrun
      as [(_ & -> & _) | (_ & _ & _ & _ & _ & tbl & _ & ->)];
      [done | by apply heap_below_created_sparse].
  - apply cudppDestroySparseMatrix_inv in Hrun
      as [(_ & _ & ->) | [(_ & _ & _ & _ & ->) | (_ & p & _ & _ & _ & _ & ->)]];
      [done | done |].
    apply heap_below_shrink; [done | apply destroyed_subseteq].
Qed.

(** In a reachable state nothing lives at address 0, so the test for the
    null pointer is the comparison with 0. *)
Lemma reachable_is_null s p :
  reachable K s -> is_null p s = Ret (p =? 0) s.
Proof.
  intros Hreach. unfold is_null.
  destruct (Z.eqb_spec p 0) as [-> | Hp]; [| done].
  destruct (plans s !! 0) as [obj |] eqn:Hobj; [| done].
  by destruct (reachable_heap s Hreach 0 obj Hobj) as (_ & ? & _).
Qed.

(** ** Looking up after a creation or a destruction *)

Lemma created_nested_plan mgr config numElements numRows rowPitch h :
  plan_tag (algorithm config) = true ->
  nested_plan (created_plan K mgr config numElements numRows rowPitch h)
  = (fun _ => handle_after K h)
      <$> created_nested K mgr config numElements numRows rowPitch.
Proof.
  unfold nested_plan, created_plan, created_nested.
  by destruct (algorithm config).
Qed.

Lemma created_plan_class mgr config numElements numRows rowPitch h :
  plan_tag (algorithm config) = true ->
  m_config (created_plan K mgr config numElements numRows rowPitch h) = config
  ∧ m_numElements (created_plan K mgr config numElements numRows rowPitch h)
    = numElements
  ∧ m_planManager (created_plan K mgr config numElements numRows rowPitch h)
    = mgr
  ∧ class_of (derived (created_plan K mgr config numElements numRows
                         rowPitch h))
    = algorithm config.
Proof. unfold created_plan. by destruct (algorithm config) eqn:E. Qed.

Lemma created_nested_class mgr config numElements numRows rowPitch ps :
  created_nested K mgr config numElements numRows rowPitch = Some ps ->
  derived ps = ScanPlan ∧ algorithm (m_config ps) = CUDPP_SCAN
  ∧ nested_plan ps = None.
Proof.
  unfold created_nested.
  destruct (algorithm config); try done; by intros [= <-].
Qed.

Lemma created_state_lookup mgr config numElements numRows rowPitch s i :
  plans (created_state K mgr config numElements numRows rowPitch s) !! i
  = if decide (i = fresh_handle K s)
    then Some (created_plan K mgr config numElements numRows rowPitch
                 (fresh_handle K s))
    else match created_nested K mgr config numElements numRows rowPitch with
         | Some ps =>
             if decide (i = handle_after K (fresh_handle K s))
             then Some ps else plans s !! i
         | None => plans s !! i
         end.
Proof.
  unfold created_state. cbv zeta.
  destruct (created_nested _ _ _ _ _); cbn [plans];
    rewrite ?lookup_insert; repeat case_decide; congruence.
Qed.

Lemma created_state_next mgr config numElements numRows rowPitch s :
  fresh_handle K s
  < next_handle (created_state K mgr config numElements numRows rowPitch s)
  ∧ (is_Some (created_nested K mgr config numElements numRows rowPitch) ->
     handle_after K (fresh_handle K s)
     < next_handle (created_state K mgr config numElements numRows
                      rowPitch s))
  ∧ next_handle s
    <= next_handle (created_state K mgr config numElements numRows rowPitch s).
Proof.
  unfold created_state. cbv zeta.
  pose proof (fresh_handle_ge K s).
  pose proof (handle_after_gt K (fresh_handle K s)).
  destruct (created_nested _ _ _ _ _); cbn [next_handle];
    (split; [lia |]); (split; [| lia]); intros [? ?]; [lia | done].
Qed.

Lemma created_state_trace mgr config numElements numRows rowPitch s :
  trace (created_state K mgr config numElements numRows rowPitch s)
  = trace s ++ creation_events K (algorithm config) (fresh_handle K s).
Proof.
  unfold created_state. cbv zeta. by destruct (created_nested _ _ _ _ _).
Qed.

Lemma created_nested_live mgr config numElements numRows rowPitch s :
  plan_tag (algorithm config) = true ->
  nested_live (created_state K mgr config numElements numRows rowPitch s)
    (created_plan K mgr config numElements numRows rowPitch
       (fresh_handle K s))
  = true.
Proof.
  intros Htag. unfold nested_live.
  pose proof (handle_after_ne K (fresh_handle K s)) as Hne.
  assert (Hl : ∀ ps,
    created_nested K mgr config numElements numRows rowPitch = Some ps ->
    plans (created_state K mgr config numElements numRows rowPitch s)
      !! handle_after K (fresh_handle K s) = Some ps).
  { intros ps Hps. rewrite created_state_lookup, Hps.
    rewrite decide_False by done. by rewrite decide_True. }
  unfold created_plan, created_nested in *.
  destruct (algorithm config) eqn:Halg; try done; cbn [derived CUDPPPlan_ctor].
  - by rewrite (Hl _ eq_refl).
  - by rewrite (Hl _ eq_refl).
Qed.

Lemma destroyed_lookup (h : Z) (p : CUDPPPlan) (m : gmap Z CUDPPPlan) (i : Z) :
  delete h (without_nested p m) !! i
  = if decide (i = h) then None
    else match nested_plan p with
         | Some hs => if decide (i = hs) then None else m !! i
         | None => m !! i
         end.
Proof.
  unfold without_nested.
  destruct (nested_plan p); rewrite ?lookup_delete;
    repeat case_decide; congruence.
Qed.

End Interface.

Section RoundTrip.

Context (K : cudpp_header).

Lemma balanced_create_destroy mgr config numElements numRows rowPitch h :
  plan_tag (algorithm config) = true ->
  balanced (creation_events K (algorithm config) h
            ++ cleanup_events h (created_plan K mgr config numElements
                                   numRows rowPitch h)).
Proof.
  intros Htag k h' n.
  pose proof (handle_after_ne K h) as Hne.
  unfold creation_events, cleanup_events, created_plan.
  destruct (algorithm config); try done;
    cbn [derived CUDPPPlan_ctor app];
    (split; [| split]); count_events; lia.
Qed.

Lemma created_then_destroyed mgr config numElements numRows rowPitch s :
  heap_below K s ->
  plan_tag (algorithm config) = true ->
  delete (fresh_handle K s)
    (without_nested
       (created_plan K mgr config numElements numRows rowPitch
          (fresh_handle K s))
       (plans (created_state K mgr config numElements numRows rowPitch s)))
  = plans s.
Proof.
  intros Hs Htag. apply map_eq. intros i.
  destruct (heap_below_fresh K s Hs) as [Hfresh Hafter].
  rewrite destroyed_lookup, created_nested_plan, created_state_lookup by done.
  destruct (created_nested K mgr config numElements numRows rowPitch);
    cbn [fmap option_fmap option_map]; repeat case_decide; congruence.
Qed.

End RoundTrip.

(** X6. From any reachable state, creating a plan for a legal request (any
    tag [cudppPlan] constructs; one row for compact) and then destroying the
    handle it returned both succeed, and bring the heap back to what it was:
    the plan and its nested plan are gone, no other plan has changed.  On
    the stretch of trace the two calls add, every storage allocation has its
    release and every object constructed is destructed. *)
Theorem cudppPlan_cudppDestroyPlan_round_trip (K : cudpp_header)
    (cudppHandle : Z) (config : CUDPPConfiguration)
    (numElements numRows rowPitch : Z) (s : State) :
  reachable K s ->
  ¬ illegal_request K config numRows ->
  plan_tag (algorithm config) = true ->
  (algorithm config = CUDPP_COMPACT -> numRows = 1) ->
  ∃ h s1 s2 evs,
    cudppPlan K cudppHandle config numElements numRows rowPitch s
    = Ret (CUDPP_SUCCESS, Some h) s1
    ∧ cudppDestroyPlan K h s1 = Ret CUDPP_SUCCESS s2
    ∧ plans s2 = plans s
    ∧ trace s2 = trace s ++ evs
    ∧ balanced evs.
Proof.
  intros Hreach Hv Htag Hrows.
  pose proof (reachable_heap K s Hreach) as Hs.
  set (mgr := getManagerFromHandle K cudppHandle).
  set (h := fresh_handle K s).
  set (p := created_plan K mgr config numElements numRows rowPitch h).
  set (s1 := created_state K mgr config numElements numRows rowPitch s).
  destruct (created_plan_class K mgr config numElements numRows rowPitch h Htag)
    as (Hcfg & _ & _ & Hclass).
  eexists h, s1, _, (creation_events K (algorithm config) h
                     ++ cleanup_events h p).
  split; [by apply cudppPlan_success |].
  rewrite (cudppDestroyPlan_success K h p s1).
  - split; [reflexivity |]. cbn [plans trace].
    split; [by apply created_then_destroyed |].
    split.
    + unfold s1. by rewrite created_state_trace, <- app_assoc.
    + by apply balanced_create_destroy.
  - apply fresh_handle_valid.
  - unfold s1. rewrite created_state_lookup. by rewrite decide_True.
  - fold p in Hclass, Hcfg. by rewrite Hcfg.
  - fold p in Hcfg. by rewrite Hcfg.
  - by apply created_nested_live.
Qed.

Lemma cudppPlan_cudppDestroyPlan_round_trip_witness :
  ∃ s1 s2,
    cudppPlan example_header 7 compact_request 100 1 0 initial_state
    = Ret (CUDPP_SUCCESS, Some 1) s1
    ∧ cudppDestroyPlan example_header 1 s1 = Ret CUDPP_SUCCESS s2
    ∧ plans s2 = plans initial_state.
Proof.
  destruct (cudppPlan_cudppDestroyPlan_round_trip example_header 7
              compact_request 100 1 0 initial_state)
    as (h & s1 & s2 & evs & H1 & H2 & H3 & _).
  - apply reachable_initial.
  - unfold illegal_request, option_set. vm_compute.
    intros [[_ H] | [[H _] | [_ H]]]; [by apply H | by apply H | done].
  - reflexivity.
  - reflexivity.
  - assert (Hh : h = 1).
    { assert (Hc : cudppPlan example_header 7 compact_request 100 1 0
                     initial_state
                   = Ret (CUDPP_SUCCESS, Some 1)
                       (created_state example_header 7 compact_request
                          100 1 0 initial_state))
        by (by vm_compute).
      rewrite Hc in H1. by injection H1 as <- _. }
    subst h. by exists s1, s2.
Defined.

(** X1. Whatever [cudppPlan] returns, it returns one of two codes.  On
    [CUDPP_SUCCESS] the output handle is neither null nor the invalid
    sentinel and resolves to a plan that records the caller's
    configuration, element count and manager, is of the class the
    configuration's tag names, and has its nested plan (if the class has
    one) live.  On [CUDPP_ERROR_ILLEGAL_CONFIGURATION] the state is the one
    the call started in.  It never returns [CUDPP_ERROR_UNKNOWN] or
    [CUDPP_ERROR_INVALID_HANDLE]. *)
Theorem cudppPlan_outcomes (K : cudpp_header)
    (cudppHandle : Z) (config : CUDPPConfiguration)
    (numElements numRows rowPitch : Z) (s : State)
    (r : CUDPPResult) (out : option Z) (s' : State) :
  cudppPlan K cudppHandle config numElements numRows rowPitch s
  = Ret (r, out) s' ->
  (r = CUDPP_SUCCESS
   ∧ ∃ h p,
       out = Some h ∧ h ≠ 0 ∧ h ≠ CUDPP_INVALID_HANDLE K
       ∧ plans s' !! h = Some p
       ∧ m_config p = config
       ∧ m_numElements p = numElements
       ∧ m_planManager p = getManagerFromHandle K cudppHandle
       ∧ class_of (derived p) = algorithm config
       ∧ nested_live s' p = true)
  ∨ (r = CUDPP_ERROR_ILLEGAL_CONFIGURATION ∧ s' = s
     ∧ (out = Some (CUDPP_INVALID_HANDLE K) ∨ out = None)).
Proof.
  intros Hrun.
  apply cudppPlan_inv in Hrun
    as [(-> & -> & -> & _) | [(-> & -> & -> & _)
                             | (-> & -> & Htag & _ & ->)]];
    [right; auto | right; auto | left].
  split; [done |].
  destruct (created_plan_class K (getManagerFromHandle K cudppHandle) config
              numElements numRows rowPitch (fresh_handle K s) Htag)
    as (Hcfg & Hn & Hmgr & Hclass).
  eexists _, _. split; [reflexivity |].
  split; [apply fresh_handle_nonnull |].
  split; [apply fresh_handle_valid |].
  split; [rewrite created_state_lookup; by rewrite decide_True |].
  do 4 (split; [done |]). by apply created_nested_live.
Qed.

Lemma cudppPlan_outcomes_witness :
  ∃ h p s',
    cudppPlan example_header 7 compact_request 100 1 0 initial_state
    = Ret (CUDPP_SUCCESS, Some h) s'
    ∧ plans s' !! h = Some p ∧ m_config p = compact_request.
Proof.
  eassert (Hrun : cudppPlan example_header 7 compact_request 100 1 0
                    initial_state = Ret (CUDPP_SUCCESS, Some 1) _)
    by (vm_compute; reflexivity).
  destruct (cudppPlan_outcomes example_header _ _ _ _ _ _ _ _ _ Hrun)
    as [(_ & h & p & Hout & _ & _ & Hp & Hcfg & _) | (Hr & _)];
    [| discriminate Hr].
  injection Hout as <-. eexists 1, p, _. split; [exact Hrun |]. done.
Defined.

(** X2. In a reachable state, [cudppPlan] never disturbs a plan that is
    already there: every handle that resolved before the call resolves to
    the same plan after it, whatever the call returns, and a handle it
    hands out was not live before. *)
Theorem cudppPlan_keeps_live_plans (K : cudpp_header)
    (cudppHandle : Z) (config : CUDPPConfiguration)
    (numElements numRows rowPitch : Z) (s : State)
    (r : CUDPPResult) (out : option Z) (s' : State) :
  reachable K s ->
  cudppPlan K cudppHandle config numElements numRows rowPitch s
  = Ret (r, out) s' ->
  (∀ h p, plans s !! h = Some p -> plans s' !! h = Some p)
  ∧ (∀ h, r = CUDPP_SUCCESS -> out = Some h -> plans s !! h = None).
Proof.
  intros Hreach Hrun.
  pose proof (reachable_heap K s Hreach) as Hs.
  destruct (heap_below_fresh K s Hs) as [Hfresh Hafter].
  apply cudppPlan_inv in Hrun
    as [(-> & -> & -> & _) | [(-> & -> & -> & _)
                             | (-> & -> & Htag & _ & ->)]];
    [split; [done | congruence] | split; [done | congruence] |].
  split.
  - intros h p Hp. rewrite created_state_lookup.
    destruct (created_nested _ _ _ _ _ _); repeat case_decide; congruence.
  - intros h _ [= <-]. done.
Qed.

Lemma cudppPlan_keeps_live_plans_witness :
  ∃ s1 s2 p,
    cudppPlan example_header 7 compact_request 100 1 0 initial_state
    = Ret (CUDPP_SUCCESS, Some 1) s1
    ∧ cudppPlan example_header 7 compact_request 50 1 0 s1
      = Ret (CUDPP_SUCCESS, Some 3) s2
    ∧ plans s1 !! 1 = Some p ∧ plans s2 !! 1 = Some p.
Proof.
  eassert (H1 : cudppPlan example_header 7 compact_request 100 1 0
                  initial_state = Ret (CUDPP_SUCCESS, Some 1) _)
    by (vm_compute; reflexivity).
  match type of H1 with _ = Ret _ ?s1 =>
    eassert (H2 : cudppPlan example_header 7 compact_request 50 1 0 s1
                  = Ret (CUDPP_SUCCESS, Some 3) _)
      by (vm_compute; reflexivity);
    assert (Hp : plans s1 !! 1
                 = Some (CUDPPPlan_ctor 7 compact_request 100 1 0
                           (CompactPlan 2))) by reflexivity
  end.
  eexists _, _, _. split; [exact H1 |]. split; [exact H2 |].
  split; [exact Hp |].
  refine (proj1 (cudppPlan_keeps_live_plans example_header _ _ _ _ _ _ _ _ _
                   _ H2) 1 _ Hp).
  eapply reachable_cudppPlan; [apply reachable_initial | exact H1].
Defined.

(** X4. A call of [cudppDestroyPlan] that does not return [CUDPP_SUCCESS]
    leaves the state as it was, and the call never returns
    [CUDPP_ERROR_UNKNOWN].  A call that returns [CUDPP_SUCCESS] found a live
    plan at the handle, of a class the switch handles; afterwards that
    handle and the handle of its nested plan resolve no more, every other
    handle resolves as before, and no handle has been handed out. *)
Theorem cudppDestroyPlan_outcomes (K : cudpp_header) (h : Z)
    (r : CUDPPResult) (s s' : State) :
  cudppDestroyPlan K h s = Ret r s' ->
  r ≠ CUDPP_ERROR_UNKNOWN
  ∧ (r ≠ CUDPP_SUCCESS -> s' = s)
  ∧ (r = CUDPP_SUCCESS ->
     ∃ p, plans s !! h = Some p
          ∧ plan_tag (algorithm (m_config p)) = true
          ∧ plans s' !! h = None
          ∧ (∀ hs, nested_plan p = Some hs -> plans s' !! hs = None)
          ∧ (∀ h', h' ≠ h -> nested_plan p ≠ Some h' ->
                   plans s' !! h' = plans s !! h')
          ∧ next_handle s' = next_handle s).
Proof.
  intros Hrun.
  apply cudppDestroyPlan_inv in Hrun
    as [(_ & -> & ->)
       | (_ & p & Hp & [(_ & -> & ->) | (Htag & _ & _ & -> & ->)])];
    (split; [done |]); (split; [done |]); try done.
  intros _. exists p. do 2 (split; [done |]). cbn [plans next_handle].
  split; [| split; [| split]].
  - rewrite destroyed_lookup. by rewrite decide_True.
  - intros hs Hhs. rewrite destroyed_lookup, Hhs.
    repeat case_decide; congruence.
  - intros h' Hne Hnn. rewrite destroyed_lookup.
    destruct (nested_plan p); repeat case_decide; congruence.
  - done.
Qed.

Lemma cudppDestroyPlan_outcomes_witness :
  ∃ s1 s2,
    cudppPlan example_header 7 compact_request 100 1 0 initial_state
    = Ret (CUDPP_SUCCESS, Some 1) s1
    ∧ cudppDestroyPlan example_header 1 s1 = Ret CUDPP_SUCCESS s2
    ∧ plans s2 !! 1 = None ∧ plans s2 !! 2 = None.
Proof.
  eassert (H1 : cudppPlan example_header 7 compact_request 100 1 0
                  initial_state = Ret (CUDPP_SUCCESS, Some 1) _)
    by (vm_compute; reflexivity).
  match type of H1 with _ = Ret _ ?s1 =>
    eassert (H2 : cudppDestroyPlan example_header 1 s1 = Ret CUDPP_SUCCESS _)
      by (vm_compute; reflexivity)
  end.
  eexists _, _. split; [exact H1 |]. split; [exact H2 |].
  destruct (cudppDestroyPlan_outcomes example_header _ _ _ _ H2)
    as (_ & _ & H).
  destruct (H eq_refl) as (p & Hp & _ & Hgone & Hnested & _).
  split; [exact Hgone |]. apply Hnested.
  assert (Hp' : p = CUDPPPlan_ctor 7 compact_request 100 1 0 (CompactPlan 2)).
  { vm_compute in Hp. by injection Hp as <-. }
  by rewrite Hp'.
Defined.



Section TwoPlans.

Context (K : cudpp_header).

Lemma nested_live_frame (s s' : State) (p : CUDPPPlan) :
  (∀ hs, nested_plan p = Some hs -> plans s' !! hs = plans s !! hs) ->
  nested_live s' p = nested_live s p.
Proof.
  unfold nested_live, nested_plan. intros H.
  destruct (derived p); try done; by rewrite (H _ eq_refl).
Qed.

Lemma heap_below_none (s : State) (i : Z) :
  heap_below K s -> next_handle s <= i -> plans s !! i = None.
Proof.
  intros Hs Hi. destruct (plans s !! i) as [p |] eqn:Hp; [| done].
  destruct (Hs _ _ Hp) as (? & _). lia.
Qed.

Lemma balanced_sparse (h hs n : Z) (p : CUDPPPlan) tbl rows nnz :
  hs ≠ h ->
  derived p = SparseMatrixVectorMultiplyPlan hs tbl rows nnz ->
  balanced ([OpNew CUDPP_SPMVMULT h; OpNew CUDPP_SEGMENTED_SCAN hs;
             AllocStorage CUDPP_SEGMENTED_SCAN hs; NewArray h n;
             AllocStorage CUDPP_SPMVMULT h] ++ cleanup_events h p).
Proof.
  intros Hne Hd k h' n'. unfold cleanup_events. rewrite Hd. cbn [app].
  (split; [| split]); count_events; lia.
Qed.

End TwoPlans.

(** X7. From any reachable state, [cudppSparseMatrix] on a sparse
    matrix-vector configuration with a positive element count, a row count
    above 0 and below 2^32 and at least that many row indices, followed by
    [cudppDestroySparseMatrix] on the handle returned, both succeed and
    bring the heap back to what it was.  On the stretch of trace they add,
    every storage allocation has its release, both objects constructed are
    destructed, and the final-index array is freed. *)
Theorem cudppSparseMatrix_round_trip (K : cudpp_header)
    (cudppHandle : Z) (config : CUDPPConfiguration)
    (numNonZeroElements numRows : Z)
    (A : Z) (h_rowIndices : list Z) (h_indices : Z) (s : State) :
  reachable K s ->
  algorithm config = CUDPP_SPMVMULT ->
  0 < numNonZeroElements ->
  0 < numRows < 2 ^ 32 ->
  numRows <= Z.of_nat (length h_rowIndices) ->
  ∃ h s1 s2 evs,
    cudppSparseMatrix K cudppHandle config numNonZeroElements numRows
      A h_rowIndices h_indices s
    = Ret (CUDPP_SUCCESS, Some h) s1
    ∧ cudppDestroySparseMatrix K h s1 = Ret CUDPP_SUCCESS s2
    ∧ plans s2 = plans s
    ∧ trace s2 = trace s ++ evs
    ∧ balanced evs.
Proof.
  intros Hreach Halg Hnz Hrows Hlen.
  pose proof (reachable_heap K s Hreach) as Hs.
  destruct (heap_below_fresh K s Hs) as [Hfresh Hafter].
  pose proof (handle_after_ne K (fresh_handle K s)) as Hne.
  destruct (rowFinalIndex_table_exits numRows h_rowIndices numNonZeroElements
              Hrows Hlen) as [tbl Htbl].
  set (mgr := getManagerFromHandle K cudppHandle).
  set (h := fresh_handle K s) in *.
  set (hs := handle_after K h) in *.
  set (p := CUDPPPlan_ctor mgr config numNonZeroElements 1 0
              (SparseMatrixVectorMultiplyPlan hs tbl numRows
                 numNonZeroElements)).
  set (s1 := created_sparse_state K mgr config numNonZeroElements numRows
               tbl s).
  eexists h, s1, _, _.
  split; [apply cudppSparseMatrix_success; [done | done | lia | done] |].
  rewrite (cudppDestroySparseMatrix_success K h p s1).
  - split; [reflexivity |]. cbn [plans trace]. split; [| split].
    + apply map_eq. intros i. rewrite destroyed_lookup.
      unfold nested_plan, s1, created_sparse_state, p. cbv zeta.
      cbn [derived CUDPPPlan_ctor plans]. fold h. fold hs.
      rewrite !lookup_insert. repeat case_decide; congruence.
    + unfold s1, created_sparse_state. cbv zeta. cbn [trace].
      rewrite <- app_assoc. reflexivity.
    + fold h. fold hs. by apply (balanced_sparse h hs numRows p tbl numRows
                                   numNonZeroElements).
  - apply fresh_handle_valid.
  - unfold s1, created_sparse_state. cbv zeta. cbn [plans].
    apply lookup_insert_eq.
  - done.
  - unfold nested_live, p, s1, created_sparse_state. cbv zeta.
    cbn [derived CUDPPPlan_ctor plans]. fold h. fold hs.
    rewrite lookup_insert_ne by done. by rewrite lookup_insert_eq.
Qed.

Lemma cudppSparseMatrix_round_trip_witness :
  ∃ s1 s2,
    cudppSparseMatrix example_header 7
      {| algorithm := CUDPP_SPMVMULT; op := CUDPP_ADD; datatype := CUDPP_FLOAT;
         options := 0 |} 12 3 4096 [0; 4; 9] 8192 initial_state
    = Ret (CUDPP_SUCCESS, Some 1) s1
    ∧ cudppDestroySparseMatrix example_header 1 s1 = Ret CUDPP_SUCCESS s2
    ∧ plans s2 = plans initial_state.
Proof.
  destruct (cudppSparseMatrix_round_trip example_header 7
              {| algorithm := CUDPP_SPMVMULT; op := CUDPP_ADD;
                 datatype := CUDPP_FLOAT; options := 0 |}
              12 3 4096 [0; 4; 9] 8192 initial_state)
    as (h & s1 & s2 & evs & H1 & H2 & H3 & _);
    [apply reachable_initial | reflexivity | lia | lia | cbn; lia |].
  assert (Hh : h = 1).
  { eassert (Hc : cudppSparseMatrix example_header 7
                    {| algorithm := CUDPP_SPMVMULT; op := CUDPP_ADD;
                       datatype := CUDPP_FLOAT; options := 0 |}
                    12 3 4096 [0; 4; 9] 8192 initial_state
                  = Ret (CUDPP_SUCCESS, Some 1) _)
      by (vm_compute; reflexivity).
    rewrite Hc in H1. by injection H1 as <- _. }
  subst h. by exists s1, s2.
Defined.

(** X8. Whatever [cudppSparseMatrix] returns, it returns one of two codes.
    On [CUDPP_ERROR_ILLEGAL_CONFIGURATION] the state is unchanged and the
    output handle is the invalid sentinel.  On [CUDPP_SUCCESS] the handle is
    neither null nor the sentinel and resolves to a sparse matrix-vector plan
    that records the caller's configuration and row count, the element count
    with 1 row and pitch 0 in its base fields, and owns a live segmented-scan
    plan configured as segmented scan, Add, the caller's datatype, options
    Forward | Inclusive, for the same element count, 1 row and pitch 0. *)
Theorem cudppSparseMatrix_outcomes (K : cudpp_header)
    (cudppHandle : Z) (config : CUDPPConfiguration)
    (numNonZeroElements numRows : Z)
    (A : Z) (h_rowIndices : list Z) (h_indices : Z) (s : State)
    (r : CUDPPResult) (out : option Z) (s' : State) :
  cudppSparseMatrix K cudppHandle config numNonZeroElements numRows
    A h_rowIndices h_indices s = Ret (r, out) s' ->
  (r = CUDPP_ERROR_ILLEGAL_CONFIGURATION ∧ s' = s
   ∧ out = Some (CUDPP_INVALID_HANDLE K))
  ∨ (r = CUDPP_SUCCESS
     ∧ ∃ h hs tbl,
         out = Some h ∧ h ≠ 0 ∧ h ≠ CUDPP_INVALID_HANDLE K ∧ hs ≠ h
         ∧ ∃ p ps,
             plans s' !! h = Some p
             ∧ derived p
               = SparseMatrixVectorMultiplyPlan hs tbl numRows
                   numNonZeroElements
             ∧ m_config p = config
             ∧ m_numElements p = numNonZeroElements
             ∧ m_numRows p = 1
             ∧ m_rowPitch p = 0
             ∧ m_planManager p = getManagerFromHandle K cudppHandle
             ∧ plans s' !! hs = Some ps
             ∧ derived ps = SegmentedScanPlan
             ∧ m_config ps
               = {| algorithm := CUDPP_SEGMENTED_SCAN; op := CUDPP_ADD;
                    datatype := datatype config;
                    options := Z.lor (CUDPP_OPTION_FORWARD K)
                                     (CUDPP_OPTION_INCLUSIVE K) |}
             ∧ m_numElements ps = numNonZeroElements
             ∧ m_numRows ps = 1
             ∧ m_rowPitch ps = 0
             ∧ m_planManager ps = getManagerFromHandle K cudppHandle).
Proof.
  intros Hrun.
  apply cudppSparseMatrix_inv in Hrun
    as [(-> & -> & -> & _) | (-> & -> & _ & _ & _ & tbl & _ & ->)];
    [by left | right].
  split; [done |].
  pose proof (handle_after_ne K (fresh_handle K s)) as Hne.
  exists (fresh_handle K s), (handle_after K (fresh_handle K s)), tbl.
  split; [done |]. split; [apply fresh_handle_nonnull |].
  split; [apply fresh_handle_valid |]. split; [done |].
  unfold created_sparse_state. cbv zeta. cbn [plans]. eexists _, _.
  split; [apply lookup_insert_eq |].
  do 6 (split; [reflexivity |]).
  split; [rewrite lookup_insert_ne by done; apply lookup_insert_eq |].
  by repeat split.
Qed.

Lemma cudppSparseMatrix_outcomes_witness :
  ∃ s' hs tbl,
    cudppSparseMatrix example_header 7
      {| algorithm := CUDPP_SPMVMULT; op := CUDPP_ADD; datatype := CUDPP_FLOAT;
         options := 0 |} 12 3 4096 [0; 4; 9] 8192 initial_state
    = Ret (CUDPP_SUCCESS, Some 1) s'
    ∧ m_config <$> plans s' !! hs
      = Some {| algorithm := CUDPP_SEGMENTED_SCAN; op := CUDPP_ADD;
                datatype := CUDPP_FLOAT; options := 9 |}
    ∧ m_numElements <$> plans s' !! hs = Some 12
    ∧ m_numElements <$> plans s' !! 1 = Some 12
    ∧ derived <$> plans s' !! 1
      = Some (SparseMatrixVectorMultiplyPlan hs tbl 3 12).
Proof.
  eassert (H1 : cudppSparseMatrix example_header 7
                  {| algorithm := CUDPP_SPMVMULT; op := CUDPP_ADD;
                     datatype := CUDPP_FLOAT; options := 0 |}
                  12 3 4096 [0; 4; 9] 8192 initial_state
                = Ret (CUDPP_SUCCESS, Some 1) _)
    by (vm_compute; reflexivity).
  destruct (cudppSparseMatrix_outcomes example_header _ _ _ _ _ _ _ _ _ _ _ H1)
    as [(Hr & _)
       | (_ & h & hs & tbl & Hout & _ & _ & _ & p & ps & Hp & Hd & _ & Hn
          & _ & _ & _ & Hps & _ & Hcs & Hns & _)];
    [discriminate Hr |].
  injection Hout as <-. eexists _, hs, tbl. split; [exact H1 |].
  rewrite Hp, Hps. cbn [fmap option_fmap option_map].
  by rewrite Hd, Hn, Hcs, Hns.
Defined.

(** X9. In every state reachable through the four entry points, each live
    plan is of the class its stored algorithm tag names.  So the cast that
    [cudppDestroyPlan] picks from the tag is a cast to the object's own
    class. *)
Theorem reachable_class_matches_tag (K : cudpp_header) (s : State) (h : Z)
    (p : CUDPPPlan) :
  reachable K s ->
  plans s !! h = Some p ->
  class_of (derived p) = algorithm (m_config p).
Proof.
  intros Hreach Hp. exact (reachable_tags_match K s Hreach h p Hp).
Qed.

Lemma reachable_class_matches_tag_witness :
  ∃ s1 p,
    cudppPlan example_header 7 compact_request 100 1 0 initial_state
    = Ret (CUDPP_SUCCESS, Some 1) s1
    ∧ plans s1 !! 2 = Some p
    ∧ class_of (derived p) = algorithm (m_config p).
Proof.
  eassert (H1 : cudppPlan example_header 7 compact_request 100 1 0
                  initial_state = Ret (CUDPP_SUCCESS, Some 1) _)
    by (vm_compute; reflexivity).
  match type of H1 with _ = Ret _ ?s1 =>
    assert (Hp : plans s1 !! 2
                 = Some (CUDPPPlan_ctor 7
                           {| algorithm := CUDPP_SCAN; op := CUDPP_ADD;
                              datatype := CUDPP_UINT; options := 5 |}
                           100 1 0 ScanPlan)) by reflexivity
  end.
  eexists _, _. split; [exact H1 |]. split; [exact Hp |].
  eapply reachable_class_matches_tag; [| exact Hp].
  eapply reachable_cudppPlan; [apply reachable_initial | exact H1].
Defined.

(** X10. Two plans made one after the other from a reachable state get
    different handles and do not depend on each other: destroying the first
    succeeds and leaves the second as it was, destroying the second then
    succeeds too, and the heap is back to what it was before both. *)
Theorem two_plans_independent (K : cudpp_header)
    (cudppHandle : Z) (configA configB : CUDPPConfiguration)
    (numElementsA numRowsA rowPitchA numElementsB numRowsB rowPitchB : Z)
    (s : State) :
  reachable K s ->
  ¬ illegal_request K configA numRowsA ->
  ¬ illegal_request K configB numRowsB ->
  plan_tag (algorithm configA) = true ->
  plan_tag (algorithm configB) = true ->
  (algorithm configA = CUDPP_COMPACT -> numRowsA = 1) ->
  (algorithm configB = CUDPP_COMPACT -> numRowsB = 1) ->
  ∃ hA hB s1 s2 s3 s4 pB,
    cudppPlan K cudppHandle configA numElementsA numRowsA rowPitchA s
    = Ret (CUDPP_SUCCESS, Some hA) s1
    ∧ cudppPlan K cudppHandle configB numElementsB numRowsB rowPitchB s1
      = Ret (CUDPP_SUCCESS, Some hB) s2
    ∧ hA ≠ hB
    ∧ plans s2 !! hB = Some pB
    ∧ cudppDestroyPlan K hA s2 = Ret CUDPP_SUCCESS s3
    ∧ plans s3 !! hB = Some pB
    ∧ cudppDestroyPlan K hB s3 = Ret CUDPP_SUCCESS s4
    ∧ plans s4 = plans s.
Proof.
  intros Hreach HvA HvB HtagA HtagB HrowsA HrowsB.
  pose proof (reachable_heap K s Hreach) as Hs.
  set (mgr := getManagerFromHandle K cudppHandle).
  set (hA := fresh_handle K s).
  set (s1 := created_state K mgr configA numElementsA numRowsA rowPitchA s).
  set (pA := created_plan K mgr configA numElementsA numRowsA rowPitchA hA).
  set (hB := fresh_handle K s1).
  set (s2 := created_state K mgr configB numElementsB numRowsB rowPitchB s1).
  set (pB := created_plan K mgr configB numElementsB numRowsB rowPitchB hB).
  pose proof (heap_below_created K mgr configA numElementsA numRowsA
                rowPitchA s Hs) as Hs1.
  fold s1 in Hs1.
  (* the four handles, in increasing order, none of them live in [s] *)
  destruct (heap_below_fresh K s Hs) as [HfA HfsA].
  destruct (heap_below_fresh K s1 Hs1) as [HfB HfsB].
  fold hA in HfA, HfsA. fold hB in HfB, HfsB.
  pose proof (handle_after_gt K hA) as HgtA.
  pose proof (handle_after_gt K hB) as HgtB.
  pose proof (fresh_handle_ge K s1) as HgeB. fold hB in HgeB.
  destruct (created_state_next K mgr configA numElementsA numRowsA rowPitchA s)
    as (HnA & HnsA & HnextA).
  fold s1 hA in HnA, HnsA, HnextA.
  assert (HsB : plans s !! hB = None) by (apply (heap_below_none K); [done | lia]).
  assert (HssB : plans s !! handle_after K hB = None)
    by (apply (heap_below_none K); [done | lia]).
  assert (HAB : hA ≠ hB) by lia.
  assert (HAsB : hA ≠ handle_after K hB) by lia.
  assert (HAsA : hA ≠ handle_after K hA) by lia.
  assert (HBsB : hB ≠ handle_after K hB) by lia.
  destruct (created_plan_class K mgr configA numElementsA numRowsA rowPitchA
              hA HtagA) as (HcfgA & _ & _ & HclassA).
  destruct (created_plan_class K mgr configB numElementsB numRowsB rowPitchB
              hB HtagB) as (HcfgB & _ & _ & HclassB).
  fold pA in HcfgA, HclassA. fold pB in HcfgB, HclassB.
  pose proof (created_nested_plan K mgr configA numElementsA numRowsA
                rowPitchA hA HtagA) as HnestA.
  pose proof (created_nested_plan K mgr configB numElementsB numRowsB
                rowPitchB hB HtagB) as HnestB.
  fold pA in HnestA. fold pB in HnestB.
  (* lookups in the state holding both plans *)
  assert (Hlook2 : ∀ i,
    plans s2 !! i
    = if decide (i = hB) then Some pB
      else match created_nested K mgr configB numElementsB numRowsB
                   rowPitchB with
           | Some ps => if decide (i = handle_after K hB) then Some ps
                        else plans s1 !! i
           | None => plans s1 !! i
           end) by (intros i; apply created_state_lookup).
  assert (Hlook1 : ∀ i,
    plans s1 !! i
    = if decide (i = hA) then Some pA
      else match created_nested K mgr configA numElementsA numRowsA
                   rowPitchA with
           | Some ps => if decide (i = handle_after K hA) then Some ps
                        else plans s !! i
           | None => plans s !! i
           end) by (intros i; apply created_state_lookup).
  assert (HsAB : is_Some (created_nested K mgr configA numElementsA numRowsA
                            rowPitchA) ->
                 handle_after K hA ≠ hB ∧ handle_after K hA ≠ handle_after K hB).
  { intros Hsome. specialize (HnsA Hsome). lia. }
  assert (Hp2A : plans s2 !! hA = Some pA).
  { rewrite Hlook2, Hlook1.
    destruct (created_nested K mgr configB _ _ _); repeat case_decide;
      congruence. }
  assert (Hp2B : plans s2 !! hB = Some pB).
  { rewrite Hlook2. by rewrite decide_True. }
  assert (Hlive1 : nested_live s1 pA = true)
    by (by apply created_nested_live).
  assert (Hlive2A : nested_live s2 pA = true).
  { rewrite <- Hlive1. apply nested_live_frame. intros hs Hhs.
    rewrite HnestA in Hhs.
    destruct (created_nested K mgr configA _ _ _) as [psA |] eqn:EA;
      [| done].
    injection Hhs as <-. destruct (HsAB ltac:(eauto)) as [? ?].
    rewrite Hlook2.
    destruct (created_nested K mgr configB _ _ _); repeat case_decide;
      congruence. }
  assert (Hlive2B : nested_live s2 pB = true)
    by (by apply created_nested_live).
  set (s3 := {| plans := delete hA (without_nested pA (plans s2));
                next_handle := next_handle s2;
                trace := trace s2 ++ cleanup_events hA pA |}).
  assert (Hlook3 : ∀ i,
    plans s3 !! i
    = if decide (i = hA) then None
      else match nested_plan pA with
           | Some hs => if decide (i = hs) then None else plans s2 !! i
           | None => plans s2 !! i
           end) by (intros i; apply destroyed_lookup).
  assert (Hp3B : plans s3 !! hB = Some pB).
  { rewrite Hlook3, HnestA.
    destruct (created_nested K mgr configA _ _ _) as [psA |] eqn:EA;
      cbn [fmap option_fmap option_map].
    - destruct (HsAB ltac:(eauto)) as [? ?].
      repeat case_decide; congruence.
    - repeat case_decide; congruence. }
  assert (Hlive3B : nested_live s3 pB = true).
  { rewrite <- Hlive2B. apply nested_live_frame. intros hs Hhs.
    rewrite HnestB in Hhs.
    destruct (created_nested K mgr configB _ _ _) as [psB |] eqn:EB;
      [| done].
    injection Hhs as <-. rewrite Hlook3, HnestA.
    destruct (created_nested K mgr configA _ _ _) as [psA |] eqn:EA;
      cbn [fmap option_fmap option_map].
    - destruct (HsAB ltac:(eauto)) as [? ?].
      repeat case_decide; congruence.
    - repeat case_decide; congruence. }
  eexists hA, hB, s1, s2, s3, _, pB.
  split; [by apply cudppPlan_success |].
  split; [by apply cudppPlan_success |].
  split; [done |]. split; [done |].
  split.
  { apply cudppDestroyPlan_success; try done.
    - apply fresh_handle_valid.
    - by rewrite HcfgA.
    - by rewrite HcfgA. }
  split; [done |].
  rewrite (cudppDestroyPlan_success K hB pB s3); try done.
  - split; [reflexivity |]. cbn [plans]. apply map_eq. intros i.
    rewrite destroyed_lookup, HnestB.
    destruct (decide (i = hB)) as [-> | HiB]; [by rewrite HsB |].
    assert (Hrest : plans s3 !! i = plans s !! i
                    ∨ (is_Some (created_nested K mgr configB numElementsB
                                  numRowsB rowPitchB)
                       ∧ i = handle_after K hB)).
    { rewrite Hlook3, HnestA, Hlook2, Hlook1.
      destruct (created_nested K mgr configA _ _ _) as [psA |] eqn:EA,
        (created_nested K mgr configB _ _ _) as [psB |] eqn:EB;
        cbn [fmap option_fmap option_map];
        repeat case_decide;
        first [left; congruence | right; split; [eauto | done]]. }
    destruct (created_nested K mgr configB _ _ _) as [psB |] eqn:EB;
      cbn [fmap option_fmap option_map].
    + destruct (decide (i = handle_after K hB)) as [-> | HisB];
        [by rewrite HssB |].
      destruct Hrest as [Hrest | [_ ?]]; [exact Hrest | done].
    + destruct Hrest as [Hrest | [[? ?] _]]; [exact Hrest | done].
  - apply fresh_handle_valid.
  - by rewrite HcfgB.
  - by rewrite HcfgB.
Qed.

Lemma two_plans_independent_witness :
  ∃ hA hB s1 s2 s3 s4,
    cudppPlan example_header 7 compact_request 100 1 0 initial_state
    = Ret (CUDPP_SUCCESS, Some hA) s1
    ∧ cudppPlan example_header 7 compact_request 50 1 0 s1
      = Ret (CUDPP_SUCCESS, Some hB) s2
    ∧ hA ≠ hB
    ∧ cudppDestroyPlan example_header hA s2 = Ret CUDPP_SUCCESS s3
    ∧ cudppDestroyPlan example_header hB s3 = Ret CUDPP_SUCCESS s4
    ∧ plans s4 = plans initial_state.
Proof.
  destruct (two_plans_independent example_header 7 compact_request
              compact_request 100 1 0 50 1 0 initial_state)
    as (hA & hB & s1 & s2 & s3 & s4 & pB & H1 & H2 & Hne & _ & H3 & _ & H4
        & H5);
    [apply reachable_initial | | | reflexivity | reflexivity
     | reflexivity | reflexivity |].
  - unfold illegal_request, option_set. vm_compute.
    intros [[_ H] | [[H _] | [_ H]]]; [by apply H | by apply H | done].
  - unfold illegal_request, option_set. vm_compute.
    intros [[_ H] | [[H _] | [_ H]]]; [by apply H | by apply H | done].
  - by exists hA, hB, s1, s2, s3, s4.
Defined.

(** X11. The block count of the radix-sort constructor is 0 exactly for an
    empty input, never decreases when the element count grows, and is at
    most the element count: a radix-sort plan for no elements owns a scan
    plan for no elements, and a bigger sort never gets a smaller scan.
    (For a tile size above 8 whose double is an [int], as in the claim on
    the nested scan's size.) *)
Theorem numBlocks2_monotone (K : cudpp_header) (a b : Z) :
  8 < SORT_CTA_SIZE K ->
  SORT_CTA_SIZE K * 2 < 2 ^ 31 ->
  0 <= a <= b -> b < 2 ^ 64 ->
  numBlocks2 K a <= numBlocks2 K b
  ∧ (numBlocks2 K a = 0 <-> a = 0)
  ∧ 0 <= numBlocks2 K a <= a.
Proof.
  intros Hmin Hint Hab Hb.
  rewrite (numBlocks2_ceil K a), (numBlocks2_ceil K b) by lia.
  pose proof (ceil_div_spec a (2 * SORT_CTA_SIZE K) ltac:(lia)) as Ha.
  pose proof (ceil_div_spec b (2 * SORT_CTA_SIZE K) ltac:(lia)) as Hb'.
  set (ca := ceil_div a (2 * SORT_CTA_SIZE K)) in *.
  set (cb := ceil_div b (2 * SORT_CTA_SIZE K)) in *.
  set (d := 2 * SORT_CTA_SIZE K) in *.
  assert (Hd : 18 <= d) by (unfold d; lia).
  split; [nia |]. split; [split; nia | nia].
Qed.

Lemma numBlocks2_monotone_witness :
  numBlocks2 example_header 1000 <= numBlocks2 example_header 1025
  ∧ (numBlocks2 example_header 1000 = 0 <-> 1000 = 0)
  ∧ 0 <= numBlocks2 example_header 1000 <= 1000.
Proof.
  apply (numBlocks2_monotone example_header 1000 1025);
    [reflexivity | reflexivity | lia | reflexivity].
Defined.

(** * The test rig's vector utilities: properties *)

Ltac lia_pow :=
  change (2 ^ 64) with 18446744073709551616 in *;
  change (2 ^ 32) with 4294967296 in *;
  change (2 ^ 31) with 2147483648 in *;
  change (2 ^ 16) with 65536 in *;
  lia.

Lemma to_uint_le (z : Z) : 0 <= z -> 0 <= to_uint z <= z.
Proof.
  intros H. unfold to_uint, UINT_MAX_plus_1. split.
  - by apply Z.mod_pos_bound.
  - apply Z.mod_le; lia.
Qed.

Lemma to_int_small (z : Z) : - 2 ^ 31 <= z < 2 ^ 31 -> to_int z = z.
Proof. intros H. unfold to_int. rewrite Z.mod_small; lia. Qed.

(** A loop whose bound no [unsigned int] counter reaches leaves only by
    [break]. *)
Lemma for_uint_no_exit {S : Type} (n : Z) (body : Z -> S -> loop_step S)
    (P Q : S -> Prop) :
  2 ^ 32 <= n ->
  (∀ i s, P s -> match body i s with
                 | Continue s' => P s' | Break s' => Q s' | Fault => True
                 end) ->
  ∀ fuel i s, 0 <= i < 2 ^ 32 -> P s ->
    for_uint fuel n body i s = None
    ∨ ∃ s', for_uint fuel n body i s = Some s' ∧ Q s'.
Proof.
  intros Hn Hbody. induction fuel as [|fuel IH]; intros i s Hi Hs;
    [by left|].
  cbn [for_uint]. destruct (Z.ltb_spec i n); [|lia].
  specialize (Hbody i s Hs). destruct (body i s) as [s'|s'|].
  - apply IH; [|done]. apply to_uint_range.
  - right. by exists s'.
  - by left.
Qed.

(** A loop whose body leaves the state alone unless it breaks: it exits
    with the state it started from, or breaks at the first counter whose
    body breaks. *)
Lemma for_uint_search {S : Type} (n : Z) (body : Z -> S -> loop_step S)
    (s : S) :
  n < 2 ^ 32 ->
  ∀ (m : nat) (i : Z) (fuel : nat),
    0 <= i -> n - i <= Z.of_nat m -> (m < fuel)%nat ->
    (∀ j, i <= j < n -> body j s = Continue s ∨ ∃ s', body j s = Break s') ->
    (for_uint fuel n body i s = Some s
     ∧ ∀ j, i <= j < n -> body j s = Continue s)
    ∨ ∃ j s', i <= j < n ∧ body j s = Break s'
        ∧ (∀ j', i <= j' < j -> body j' s = Continue s)
        ∧ for_uint fuel n body i s = Some s'.
Proof.
  intros Hn. induction m as [|m IH]; intros i fuel Hi Hm Hfuel Hbody.
  - destruct fuel as [|fuel]; [lia|]. cbn [for_uint].
    destruct (Z.ltb_spec i n); [lia|]. left. split; [done|]. intros; lia.
  - destruct fuel as [|fuel]; [lia|]. cbn [for_uint].
    destruct (Z.ltb_spec i n) as [Hlt|Hge].
    2:{ left. split; [done|]. intros; lia. }
    destruct (Hbody i ltac:(lia)) as [Hc|[s' Hb]].
    + rewrite Hc. rewrite to_uint_small by lia_pow.
      destruct (IH (i + 1) fuel) as [[Hr Hall]|(j & s' & Hj & Hb & Hbefore & Hr)];
        [lia|lia|lia|intros; apply Hbody; lia| |].
      * left. split; [done|]. intros j Hj.
        destruct (decide (j = i)) as [->|]; [done|]. apply Hall. lia.
      * right. exists j, s'. split; [lia|]. split; [done|]. split; [|done].
        intros j' Hj'. destruct (decide (j' = i)) as [->|]; [done|].
        apply Hbefore. lia.
    + right. exists i, s'. rewrite Hb. split; [lia|]. split; [done|].
      split; [|done]. intros; lia.
Qed.

Lemma lor_lt_pow2 (a b n : Z) :
  0 <= n -> 0 <= a < 2 ^ n -> 0 <= b < 2 ^ n -> 0 <= Z.lor a b < 2 ^ n.
Proof.
  intros Hn Ha Hb. split; [apply Z.lor_nonneg; lia|].
  assert (H0 : 0 <= Z.lor a b) by (apply Z.lor_nonneg; lia).
  destruct (decide (Z.lor a b = 0)) as [->|Hne]; [lia|].
  apply Z.log2_lt_pow2; [lia|].
  rewrite Z.log2_lor by lia.
  assert (Hlog : ∀ x, 0 <= x < 2 ^ n -> 0 < n -> Z.log2 x < n).
  { intros x Hx Hpos. destruct (decide (x = 0)) as [->|]; [by cbn|].
    apply Z.log2_lt_pow2; lia. }
  destruct (decide (n = 0)) as [->|].
  - assert (a = 0) by lia. assert (b = 0) by lia. subst. by cbn in Hne.
  - apply Z.max_lub_lt; apply Hlog; lia.
Qed.

Lemma shl_one_minus_1 (n : Z) :
  0 <= n < 31 -> (fun x => x - 1) <$> shl_one n = Some (Z.ones n).
Proof.
  intros Hn. unfold shl_one.
  destruct (Z.leb_spec 0 n); [|lia]. destruct (Z.ltb_spec n 31); [|lia].
  cbn. f_equal; unfold Z.ones; lia.
Qed.

Lemma key_masks_defined (keybits : Z) :
  0 <= keybits <= 46 ->
  key_masks keybits
  = Some (Z.ones (Z.max 0 (keybits - 16)), Z.ones (Z.min keybits 16)).
Proof.
  intros Hk. unfold key_masks.
  destruct (Z.ltb_spec 16 keybits) as [Hhi|Hhi].
  - rewrite (to_uint_small (keybits - 16)) by lia_pow.
    rewrite (shl_one_minus_1 (keybits - 16)) by lia. cbn [mbind option_bind].
    destruct (Z.ltb_spec keybits 16); [lia|]. cbn.
    rewrite Z.max_r by lia. by rewrite Z.min_r by lia.
  - cbn [mbind option_bind]. rewrite Z.max_l by lia.
    destruct (Z.ltb_spec keybits 16) as [Hlo|Hlo].
    + rewrite (shl_one_minus_1 keybits) by lia. cbn. by rewrite Z.min_l by lia.
    + cbn. assert (keybits = 16) as -> by lia. done.
Qed.

Lemma key_masks_undefined (keybits : Z) :
  47 <= keybits < 2 ^ 32 -> key_masks keybits = None.
Proof.
  intros Hk. unfold key_masks.
  destruct (Z.ltb_spec 16 keybits); [|lia].
  rewrite (to_uint_small (keybits - 16)) by lia_pow.
  unfold shl_one. destruct (Z.ltb_spec (keybits - 16) 31); [lia|].
  by rewrite andb_false_r.
Qed.

Lemma fill_element_bound (rand : nat -> Z) (hi_first : bool)
    (keybits : Z) (k : nat) :
  0 <= keybits <= 32 ->
  0 <= fill_element rand hi_first (Z.ones (Z.max 0 (keybits - 16)))
         (Z.ones (Z.min keybits 16)) k < 2 ^ keybits.
Proof.
  intros Hk. unfold fill_element.
  set (r_hi := if hi_first then rand k else rand (S k)).
  set (r_lo := if hi_first then rand (S k) else rand k).
  clearbody r_hi r_lo.
  destruct (decide (keybits = 32)) as [->|Hne]; [apply to_uint_range|].
  rewrite !Z.land_ones by lia. rewrite Z.shiftl_mul_pow2 by lia.
  set (p := Z.max 0 (keybits - 16)). set (q := Z.min keybits 16).
  assert (Hhi : 0 <= r_hi mod 2 ^ p < 2 ^ p)
    by (apply Z.mod_pos_bound; apply Z.pow_pos_nonneg; lia).
  assert (Hlo : 0 <= r_lo mod 2 ^ q < 2 ^ q)
    by (apply Z.mod_pos_bound; apply Z.pow_pos_nonneg; lia).
  assert (Hq : 2 ^ q <= 2 ^ keybits) by (apply Z.pow_le_mono_r; lia).
  assert (Hp : r_hi mod 2 ^ p * 2 ^ 16 < 2 ^ keybits).
  { destruct (Z.le_gt_cases keybits 16).
    - assert (p = 0) as -> by lia. change (2 ^ 0) with 1 in *.
      assert (r_hi mod 1 = 0) as -> by lia.
      cbn. apply Z.pow_pos_nonneg; lia.
    - assert (Hsplit : 2 ^ keybits = 2 ^ p * 2 ^ 16)
        by (rewrite <- Z.pow_add_r by lia; f_equal; lia).
      rewrite Hsplit. apply Z.mul_lt_mono_pos_r; [done|lia]. }
  assert (Hkb : 2 ^ keybits <= 2 ^ 31) by (apply Z.pow_le_mono_r; lia).
  rewrite to_int_small by (change (2 ^ 31) with 2147483648 in *; nia).
  pose proof (lor_lt_pow2 (r_hi mod 2 ^ p * 2 ^ 16) (r_lo mod 2 ^ q) keybits
                ltac:(lia) ltac:(nia) ltac:(lia)).
  rewrite to_uint_small; lia_pow.
Qed.

Lemma fill_loop (rand : nat -> Z) (hi_first : bool) (ksm km n : Z) :
  n < 2 ^ 32 ->
  ∀ (m : nat) (i : Z) (fuel : nat) (a : list Z) (k : nat),
    0 <= i -> n - i <= Z.of_nat m -> (m < fuel)%nat ->
    n <= Z.of_nat (length a) ->
    ∃ a' k',
      for_uint fuel n (fill_body rand hi_first ksm km) i (a, k)
      = Some (a', k')
      ∧ length a' = length a
      ∧ (∀ j : nat, Z.of_nat j < i ∨ n <= Z.of_nat j -> a' !! j = a !! j)
      ∧ (∀ j : nat, i <= Z.of_nat j < n ->
           a' !! j = Some (fill_element rand hi_first ksm km
                             (k + 2 * (j - Z.to_nat i))%nat)).
Proof.
  intros Hn. induction m as [|m IH]; intros i fuel a k Hi Hm Hfuel Hlen.
  - destruct fuel as [|fuel]; [lia|]. cbn [for_uint].
    destruct (Z.ltb_spec i n); [lia|]. exists a, k.
    split; [done|]. split; [done|]. split; [done|]. intros; lia.
  - destruct fuel as [|fuel]; [lia|]. cbn [for_uint].
    destruct (Z.ltb_spec i n) as [Hlt|Hge].
    2:{ exists a, k. split; [done|]. split; [done|]. split; [done|].
        intros; lia. }
    cbn [fill_body]. destruct (Nat.ltb_spec (Z.to_nat i) (length a)); [|lia].
    rewrite to_uint_small by lia_pow.
    destruct (IH (i + 1) fuel
                (<[Z.to_nat i := fill_element rand hi_first ksm km k]> a)
                (S (S k)))
      as (a' & k' & Hrun & Hlen' & Hframe & Hfill);
      [lia|lia|lia|rewrite length_insert; lia|].
    exists a', k'. split; [done|]. rewrite length_insert in Hlen'.
    split; [done|]. split.
    + intros j Hj. rewrite Hframe by lia.
      apply list_lookup_insert_ne. lia.
    + intros j Hj. destruct (decide (Z.of_nat j = i)) as [Heq|Hneq].
      * rewrite Hframe by lia. subst i. rewrite Nat2Z.id.
        rewrite list_lookup_insert_eq by lia. do 2 f_equal. lia.
      * rewrite Hfill by lia. do 2 f_equal. lia.
Qed.

Lemma fill_loop_overrun (rand : nat -> Z) (hi_first : bool) (ksm km n : Z)
    (len : nat) :
  Z.of_nat len < n ->
  ∀ (fuel : nat) (i : Z) (a : list Z) (k : nat),
    0 <= i <= Z.of_nat len -> length a = len ->
    for_uint fuel n (fill_body rand hi_first ksm km) i (a, k) = None.
Proof.
  intros Hn. induction fuel as [|fuel IH]; intros i a k Hi Hlen; [done|].
  cbn [for_uint]. destruct (Z.ltb_spec i n); [|lia].
  cbn [fill_body]. destruct (Nat.ltb_spec (Z.to_nat i) (length a)); [|done].
  apply IH; [|by rewrite length_insert].
  pose proof (to_uint_le (i + 1)). lia.
Qed.

Lemma fill_loop_endless (rand : nat -> Z) (hi_first : bool) (ksm km n : Z) :
  2 ^ 32 <= n ->
  ∀ (fuel : nat) (i : Z) (st : list Z * nat),
    0 <= i < 2 ^ 32 ->
    for_uint fuel n (fill_body rand hi_first ksm km) i st = None.
Proof.
  intros Hn fuel i st Hi.
  destruct (for_uint_no_exit n (fill_body rand hi_first ksm km)
              (fun _ => True) (fun _ => False) Hn) with fuel i st
    as [Hnone|(s' & _ & [])]; [|done|done|done].
  intros j [a k] _. cbn [fill_body]. by destruct (_ <? _)%nat.
Qed.

Lemma to_int_to_uint (z : Z) : INT_MIN <= z <= INT_MAX -> to_int (to_uint z) = z.
Proof.
  unfold INT_MIN, INT_MAX, to_int, to_uint, UINT_MAX_plus_1. intros Hz.
  change (2 ^ 31) with 2147483648 in *. change (2 ^ 32) with 4294967296 in *.
  destruct (Z.lt_ge_cases z 0).
  - rewrite <- (Z_mod_plus_full z 1 4294967296).
    rewrite (Z.mod_small (z + 1 * 4294967296)) by lia.
    rewrite <- (Z_mod_plus_full _ (-1) 4294967296).
    rewrite Z.mod_small; lia.
  - rewrite (Z.mod_small z) by lia. rewrite Z.mod_small; lia.
Qed.

Lemma fillVector_uint_run (rand : nat -> Z) (hi_first : bool)
    (fuel : nat) (a : list Z) (numElements keybits range : Z) :
  0 <= keybits <= 46 ->
  0 <= numElements <= Z.of_nat (length a) ->
  numElements < 2 ^ 32 ->
  (Z.to_nat numElements < fuel)%nat ->
  ∃ a',
    fillVector_uint rand hi_first fuel a numElements keybits range = Some a'
    ∧ length a' = length a
    ∧ (∀ j : nat, numElements <= Z.of_nat j -> a' !! j = a !! j)
    ∧ (∀ j : nat, Z.of_nat j < numElements ->
         a' !! j
         = Some (fill_element rand hi_first
                   (Z.ones (Z.max 0 (keybits - 16)))
                   (Z.ones (Z.min keybits 16)) (2 * j)%nat)).
Proof.
  intros Hk Hn Hn32 Hfuel. unfold fillVector_uint.
  rewrite key_masks_defined by done. cbn [mbind option_bind].
  destruct (fill_loop rand hi_first (Z.ones (Z.max 0 (keybits - 16)))
              (Z.ones (Z.min keybits 16)) numElements Hn32
              (Z.to_nat numElements) 0 fuel a O)
    as (a' & k' & Hrun & Hlen & Hframe & Hfill); [lia|lia|lia|lia|].
  exists a'. rewrite Hrun. split; [done|]. split; [done|]. split.
  - intros j Hj. apply Hframe. by right.
  - intros j Hj. rewrite Hfill by lia. do 2 f_equal. cbn. lia.
Qed.

(** ** verifySort's two loops *)

Lemma order_body_cases (keysSorted : list Z) (j : Z) (st : Z * list Report) :
  0 <= j -> j + 1 < Z.of_nat (length keysSorted) -> j + 1 < 2 ^ 32 ->
  ∃ a b,
    keysSorted !! Z.to_nat j = Some a
    ∧ keysSorted !! S (Z.to_nat j) = Some b
    ∧ ((a <= b ∧ order_body keysSorted j st = Continue st)
       ∨ (b < a
          ∧ order_body keysSorted j st
            = Break (1, st.2 ++ [UnorderedKey j a (j + 1) b]))).
Proof.
  intros Hj Hlen H32. unfold order_body.
  rewrite to_uint_small by lia.
  replace (Z.to_nat (j + 1)) with (S (Z.to_nat j)) by lia.
  destruct (lookup_lt_is_Some_2 keysSorted (Z.to_nat j)) as [a Ha]; [lia|].
  destruct (lookup_lt_is_Some_2 keysSorted (S (Z.to_nat j))) as [b Hb]; [lia|].
  rewrite Ha, Hb. exists a, b. split; [done|]. split; [done|].
  destruct (Z.ltb_spec b a); [right|left]; done.
Qed.

Lemma values_body_cases (keysSorted values keysUnsorted : list Z) (j : Z)
    (st : Z * list Report) :
  0 <= j -> j < Z.of_nat (length keysSorted) ->
  j < Z.of_nat (length values) ->
  (∀ v, values !! Z.to_nat j = Some v ->
        0 <= v < Z.of_nat (length keysUnsorted)) ->
  ∃ v ku ks,
    values !! Z.to_nat j = Some v
    ∧ keysUnsorted !! Z.to_nat v = Some ku
    ∧ keysSorted !! Z.to_nat j = Some ks
    ∧ ((ku = ks
        ∧ values_body keysSorted values keysUnsorted j st = Continue st)
       ∨ (ku ≠ ks
          ∧ values_body keysSorted values keysUnsorted j st
            = Break (1, st.2 ++ [IncorrectValue j v ku ks]))).
Proof.
  intros Hj Hkeys Hvalues Hv. unfold values_body.
  destruct (lookup_lt_is_Some_2 values (Z.to_nat j)) as [v Hv']; [lia|].
  specialize (Hv v Hv').
  destruct (lookup_lt_is_Some_2 keysUnsorted (Z.to_nat v)) as [ku Hku]; [lia|].
  destruct (lookup_lt_is_Some_2 keysSorted (Z.to_nat j)) as [ks Hks]; [lia|].
  rewrite Hv', Hku, Hks. exists v, ku, ks. do 3 (split; [done|]).
  destruct (Z.eqb_spec ku ks); [left|right]; done.
Qed.

Lemma order_loop (keysSorted : list Z) (len : Z) (fuel : nat) :
  1 <= len <= 2 ^ 32 -> len <= Z.of_nat (length keysSorted) ->
  (Z.to_nat len <= fuel)%nat ->
  (ascending keysSorted len
   ∧ for_uint fuel (to_size_t (len - 1)) (order_body keysSorted) 0 (0, [])
     = Some (0, []))
  ∨ ∃ (i : nat) (a b : Z),
      Z.of_nat i < len - 1
      ∧ keysSorted !! i = Some a ∧ keysSorted !! S i = Some b ∧ b < a
      ∧ ascending keysSorted (Z.of_nat i + 1)
      ∧ for_uint fuel (to_size_t (len - 1)) (order_body keysSorted) 0 (0, [])
        = Some (1, [UnorderedKey (Z.of_nat i) a (Z.of_nat i + 1) b]).
Proof.
  intros Hlen Hkeys Hfuel. rewrite to_size_t_small by lia_pow.
  destruct (for_uint_search (len - 1) (order_body keysSorted) (0, [])
              ltac:(lia) (Z.to_nat (len - 1)) 0 fuel)
    as [[Hrun Hall]|(j & s' & Hj & Hbreak & Hbefore & Hrun)];
    [lia|lia|lia| | |].
  - intros j Hj.
    destruct (order_body_cases keysSorted j (0, [])) as (a & b & _ & _ & H);
      [lia|lia|lia|].
    destruct H as [[_ H]|[_ H]]; [by left|right; eauto].
  - left. split; [|done]. intros i a b Hi Ha Hb.
    destruct (order_body_cases keysSorted (Z.of_nat i) (0, []))
      as (a' & b' & Ha' & Hb' & H); [lia|lia|lia|].
    rewrite Nat2Z.id in Ha', Hb'. simplify_eq.
    destruct H as [[H _]|[_ H]]; [done|].
    rewrite Hall in H by lia. done.
  - right.
    destruct (order_body_cases keysSorted j (0, []))
      as (a & b & Ha & Hb & H); [lia|lia|lia|].
    destruct H as [[_ H]|[Hlt H]]; [congruence|].
    rewrite Hbreak in H. injection H as ->.
    exists (Z.to_nat j), a, b. rewrite Z2Nat.id by lia.
    split; [lia|]. do 3 (split; [done|]). split; [|done].
    intros i a' b' Hi Ha' Hb'.
    destruct (order_body_cases keysSorted (Z.of_nat i) (0, []))
      as (a'' & b'' & Ha'' & Hb'' & H); [lia|lia|lia|].
    rewrite Nat2Z.id in Ha'', Hb''. simplify_eq.
    destruct H as [[H _]|[_ H]]; [done|].
    rewrite Hbefore in H by lia. done.
Qed.

Lemma values_loop (keysSorted values keysUnsorted : list Z) (len : Z)
    (fuel : nat) (st : Z * list Report) :
  0 <= len < 2 ^ 32 -> len <= Z.of_nat (length keysSorted) ->
  values_in_bounds (Some values) keysUnsorted len ->
  (Z.to_nat len < fuel)%nat ->
  (values_match keysSorted values keysUnsorted len
   ∧ for_uint fuel len (values_body keysSorted values keysUnsorted) 0 st
     = Some st)
  ∨ ∃ (i : nat) (v ku ks : Z),
      Z.of_nat i < len
      ∧ values !! i = Some v ∧ keysUnsorted !! Z.to_nat v = Some ku
      ∧ keysSorted !! i = Some ks ∧ ku ≠ ks
      ∧ values_match keysSorted values keysUnsorted (Z.of_nat i)
      ∧ for_uint fuel len (values_body keysSorted values keysUnsorted) 0 st
        = Some (1, st.2 ++ [IncorrectValue (Z.of_nat i) v ku ks]).
Proof.
  intros Hlen Hkeys [Hvalues Hidx] Hfuel.
  assert (Hcases : ∀ j, 0 <= j < len ->
    ∃ v ku ks,
      values !! Z.to_nat j = Some v
      ∧ keysUnsorted !! Z.to_nat v = Some ku
      ∧ keysSorted !! Z.to_nat j = Some ks
      ∧ ((ku = ks
          ∧ values_body keysSorted values keysUnsorted j st = Continue st)
         ∨ (ku ≠ ks
            ∧ values_body keysSorted values keysUnsorted j st
              = Break (1, st.2 ++ [IncorrectValue j v ku ks])))).
  { intros j Hj. apply values_body_cases; [lia|lia|lia|].
    intros v Hv. apply (Hidx (Z.to_nat j)); [lia|done]. }
  destruct (for_uint_search len (values_body keysSorted values keysUnsorted)
              st ltac:(lia) (Z.to_nat len) 0 fuel)
    as [[Hrun Hall]|(j & s' & Hj & Hbreak & Hbefore & Hrun)];
    [lia|lia|lia| | |].
  - intros j Hj. destruct (Hcases j Hj) as (v & ku & ks & _ & _ & _ & H).
    destruct H as [[_ H]|[_ H]]; [by left|right; eauto].
  - left. split; [|done]. intros i v ku ks Hi Hv Hku Hks.
    destruct (Hcases (Z.of_nat i)) as (v' & ku' & ks' & Hv' & Hku' & Hks' & H);
      [lia|].
    rewrite Nat2Z.id in Hv', Hks'. simplify_eq.
    destruct H as [[H _]|[_ H]]; [done|].
    rewrite Hall in H by lia. done.
  - right. destruct (Hcases j Hj) as (v & ku & ks & Hv & Hku & Hks & H).
    destruct H as [[_ H]|[Hne H]]; [congruence|].
    rewrite Hbreak in H. injection H as ->.
    exists (Z.to_nat j), v, ku, ks. rewrite Z2Nat.id by lia.
    split; [lia|]. do 4 (split; [done|]). split; [|done].
    intros i v' ku' ks' Hi Hv' Hku' Hks'.
    destruct (Hcases (Z.of_nat i))
      as (v'' & ku'' & ks'' & Hv'' & Hku'' & Hks'' & H); [lia|].
    rewrite Nat2Z.id in Hv'', Hks''. simplify_eq.
    destruct H as [[H _]|[_ H]]; [done|].
    rewrite Hbefore in H by lia. done.
Qed.

(** X12.  [fillVector] for [unsigned int], asked for at most 32 key bits
    and for no more elements than the array holds (and than an
    [unsigned int] counts), returns: the array keeps its length, each of
    the first [numElements] elements is a key of at most [keybits] bits,
    and the elements after them are untouched. *)
Theorem fillVector_uint_fills (rand : nat -> Z) (hi_first : bool)
    (fuel : nat) (a : list Z) (numElements keybits range : Z) :
  0 <= keybits <= 32 ->
  0 <= numElements <= Z.of_nat (length a) ->
  numElements < 2 ^ 32 ->
  (Z.to_nat numElements < fuel)%nat ->
  ∃ a',
    fillVector_uint rand hi_first fuel a numElements keybits range = Some a'
    ∧ length a' = length a
    ∧ (∀ (j : nat) (v : Z),
         Z.of_nat j < numElements -> a' !! j = Some v ->
         0 <= v < 2 ^ keybits)
    ∧ (∀ j : nat, numElements <= Z.of_nat j -> a' !! j = a !! j).
Proof.
  intros Hk Hn Hn32 Hfuel.
  destruct (fillVector_uint_run rand hi_first fuel a numElements keybits
              range) as (a' & Hrun & Hlen & Hframe & Hfill);
    [lia|done|done|done|].
  exists a'. split; [done|]. split; [done|]. split; [|done].
  intros j v Hj Hv. rewrite Hfill in Hv by done. injection Hv as <-.
  by apply fill_element_bound.
Qed.

Lemma fillVector_uint_fills_witness :
  ∃ a',
    fillVector_uint (fun k => Z.of_nat k * 7919 + 104729) true 4
      [0; 0; 0; 7] 3 20 0 = Some a'
    ∧ length a' = 4%nat
    ∧ (∀ (j : nat) (v : Z),
         Z.of_nat j < 3 -> a' !! j = Some v -> 0 <= v < 2 ^ 20)
    ∧ (∀ j : nat, 3 <= Z.of_nat j -> a' !! j = [0; 0; 0; 7] !! j).
Proof.
  apply (fillVector_uint_fills (fun k => Z.of_nat k * 7919 + 104729) true 4
           [0; 0; 0; 7] 3 20 0); first [lia | cbn; lia | by vm_compute].
Defined.



(** X14.  [fillVector] has no result when it is asked for 47 key bits or
    more (the mask's shift overflows [int]), for more elements than the
    array holds (it writes past the end), or for more elements than an
    [unsigned int] counts (the counter wraps and the loop goes on for
    ever). *)
Theorem fillVector_uint_no_result (rand : nat -> Z) (hi_first : bool)
    (fuel : nat) (a : list Z) (numElements keybits range : Z) :
  47 <= keybits < 2 ^ 32
  ∨ Z.of_nat (length a) < numElements
  ∨ 2 ^ 32 <= numElements ->
  fillVector_uint rand hi_first fuel a numElements keybits range = None.
Proof.
  intros H. unfold fillVector_uint.
  destruct (key_masks keybits) as [[ksm km]|] eqn:Hmasks; [|done].
  cbn [mbind option_bind].
  destruct H as [Hk|[Hlen|Hn]].
  - by rewrite key_masks_undefined in Hmasks.
  - by rewrite (fill_loop_overrun rand hi_first ksm km numElements
                  (length a) Hlen) by (done || lia).
  - by rewrite (fill_loop_endless rand hi_first ksm km numElements Hn)
      by lia_pow.
Qed.

Lemma fillVector_uint_no_result_witness :
  fillVector_uint (fun k => Z.of_nat k) true 100 [0; 0] 3 32 0 = None.
Proof.
  apply (fillVector_uint_no_result (fun k => Z.of_nat k) true 100 [0; 0] 3
           32 0).
  right. left. vm_compute. reflexivity.
Defined.

(** X15.  [fillVector] for [int], asked for at most 31 key bits, fills the
    array with non-negative keys of at most [keybits] bits and leaves the
    elements after them as they were. *)
Theorem fillVector_int_fills (rand : nat -> Z) (hi_first : bool)
    (fuel : nat) (a : list Z) (numElements keybits range : Z) :
  0 <= keybits <= 31 ->
  0 <= numElements <= Z.of_nat (length a) ->
  numElements < 2 ^ 32 ->
  (Z.to_nat numElements < fuel)%nat ->
  (∀ (j : nat) (v : Z), a !! j = Some v -> INT_MIN <= v <= INT_MAX) ->
  ∃ a',
    fillVector_int rand hi_first fuel a numElements keybits range = Some a'
    ∧ length a' = length a
    ∧ (∀ (j : nat) (v : Z),
         Z.of_nat j < numElements -> a' !! j = Some v ->
         0 <= v < 2 ^ keybits)
    ∧ (∀ j : nat, numElements <= Z.of_nat j -> a' !! j = a !! j).
Proof.
  intros Hk Hn Hn32 Hfuel Hint. unfold fillVector_int.
  destruct (fillVector_uint_run rand hi_first fuel (to_uint <$> a)
              numElements keybits (to_uint range))
    as (a' & Hrun & Hlen & Hframe & Hfill);
    [lia|by rewrite length_fmap|done|done|].
  rewrite Hrun. cbn [fmap option_fmap option_map].
  exists (to_int <$> a'). split; [done|].
  rewrite length_fmap in *. split; [done|]. split.
  - intros j v Hj Hv. rewrite list_lookup_fmap, Hfill in Hv by done.
    cbn [fmap option_fmap option_map] in Hv. injection Hv as <-.
    assert (2 ^ keybits <= 2 ^ 31) by (apply Z.pow_le_mono_r; lia).
    match goal with
    | |- _ <= to_int (fill_element _ _ _ _ ?k) < _ =>
        pose proof (fill_element_bound rand hi_first keybits k ltac:(lia))
          as Hb
    end.
    rewrite to_int_small; [done|]. change (2 ^ 31) with 2147483648 in *. lia.
  - intros j Hj. rewrite list_lookup_fmap, Hframe by done.
    rewrite list_lookup_fmap. destruct (a !! j) as [v|] eqn:Hv; [|done].
    cbn. f_equal. apply to_int_to_uint. by apply (Hint j).
Qed.

Lemma fillVector_int_fills_witness :
  ∃ a',
    fillVector_int (fun k => Z.of_nat k * 7919 + 104729) true 4
      [-1; 0; 0; -7] 3 12 0 = Some a'
    ∧ length a' = 4%nat
    ∧ (∀ (j : nat) (v : Z),
         Z.of_nat j < 3 -> a' !! j = Some v -> 0 <= v < 2 ^ 12)
    ∧ (∀ j : nat, 3 <= Z.of_nat j -> a' !! j = [-1; 0; 0; -7] !! j).
Proof.
  apply (fillVector_int_fills (fun k => Z.of_nat k * 7919 + 104729) true 4
           [-1; 0; 0; -7] 3 12 0).
  - lia.
  - cbn; lia.
  - by vm_compute.
  - lia.
  - intros j v Hv.
    do 4 (destruct j as [|j]; [injection Hv as <-; by vm_compute|]).
    done.
Defined.

Lemma descent_not_ascending (keys : list Z) (len : Z) (i : nat) (a b : Z) :
  Z.of_nat i < len - 1 -> keys !! i = Some a -> keys !! S i = Some b ->
  b < a -> ¬ ascending keys len.
Proof. intros Hi Ha Hb Hlt Hasc. specialize (Hasc i a b Hi Ha Hb). lia. Qed.

Lemma mismatch_not_values_match (keysSorted values keysUnsorted : list Z)
    (len : Z) (i : nat) (v ku ks : Z) :
  Z.of_nat i < len -> values !! i = Some v ->
  keysUnsorted !! Z.to_nat v = Some ku -> keysSorted !! i = Some ks ->
  ku ≠ ks -> ¬ values_match keysSorted values keysUnsorted len.
Proof. intros Hi Hv Hku Hks Hne Hm. by specialize (Hm i v ku ks Hi Hv Hku Hks). Qed.

(** X16.  [verifySort], given at least one and at most [UINT_MAX]
    elements that the arrays hold, returns 0 or 1: it returns 0 exactly
    when the sorted keys ascend and, where values are given, each value
    names the place of its key among the unsorted keys; and it prints
    something exactly when it returns 1. *)
Theorem verifySort_correct (fuel : nat) (keysSorted : list Z)
    (valuesSorted : option (list Z)) (keysUnsorted : list Z) (len : Z) :
  1 <= len < 2 ^ 32 ->
  len <= Z.of_nat (length keysSorted) ->
  values_in_bounds valuesSorted keysUnsorted len ->
  (Z.to_nat len < fuel)%nat ->
  ∃ retval out,
    verifySort fuel keysSorted valuesSorted keysUnsorted len
    = Some (retval, out)
    ∧ (retval = 0 ∨ retval = 1)
    ∧ (retval = 0 ↔ sort_ok keysSorted valuesSorted keysUnsorted len)
    ∧ (retval = 0 ↔ out = []).
Proof.
  intros Hlen Hkeys Hvalues Hfuel. unfold verifySort, sort_ok.
  destruct (order_loop keysSorted len fuel)
    as [[Hasc Hrun]|(i & a & b & Hi & Ha & Hb & Hlt & _ & Hrun)];
    [lia|done|lia| |]; rewrite Hrun; cbn [mbind option_bind].
  - destruct valuesSorted as [values|].
    + destruct (values_loop keysSorted values keysUnsorted len fuel (0, []))
        as [[Hmatch Hrun2]|(i & v & ku & ks & Hi & Hv & Hku & Hks & Hne & _
                            & Hrun2)]; [lia|done|done|done| |];
        rewrite Hrun2.
      * exists 0, []. split; [done|]. split; [by left|]. done.
      * eexists 1, _. split; [done|]. split; [by right|].
        split; (split; [done|]).
        -- intros [_ Hmatch].
           by destruct (mismatch_not_values_match keysSorted values
                          keysUnsorted len i v ku ks).
        -- done.
    + exists 0, []. split; [done|]. split; [by left|]. done.
  - pose proof (descent_not_ascending keysSorted len i a b Hi Ha Hb Hlt)
      as Hnot.
    destruct valuesSorted as [values|].
    + destruct (values_loop keysSorted values keysUnsorted len fuel
                  (1, [UnorderedKey (Z.of_nat i) a (Z.of_nat i + 1) b]))
        as [[Hmatch Hrun2]|(i' & v & ku & ks & _ & _ & _ & _ & _ & _
                            & Hrun2)]; [lia|done|done|done| |];
        rewrite Hrun2; eexists 1, _; (split; [done|]);
        (split; [by right|]); split; (split; [done|]); try done;
        by intros [? _].
    + eexists 1, _. split; [done|]. split; [by right|].
      split; (split; [done|]); [by intros [? _]|done].
Qed.

Lemma verifySort_correct_witness :
  ∃ retval out,
    verifySort 4 [1; 3; 3] (Some [2; 0; 1]) [3; 3; 1] 3 = Some (retval, out)
    ∧ (retval = 0 ∨ retval = 1)
    ∧ (retval = 0 ↔ sort_ok [1; 3; 3] (Some [2; 0; 1]) [3; 3; 1] 3)
    ∧ (retval = 0 ↔ out = []).
Proof.
  apply (verifySort_correct 4 [1; 3; 3] (Some [2; 0; 1]) [3; 3; 1] 3).
  - by vm_compute.
  - cbn; lia.
  - split; [cbn; lia|]. intros i v Hi Hv.
    do 3 (destruct i as [|i]; [injection Hv as <-; cbn; lia|]). done.
  - lia.
Defined.

(** X17.  Where the sorted keys first descend, [verifySort] returns 1 and
    its first line of output names that place and the two keys there; at
    most one more line, about a value, follows, and none when no values
    are given. *)
Theorem verifySort_first_unordered_key (fuel : nat) (keysSorted : list Z)
    (valuesSorted : option (list Z)) (keysUnsorted : list Z) (len : Z)
    (i : nat) (a b : Z) :
  1 <= len < 2 ^ 32 ->
  len <= Z.of_nat (length keysSorted) ->
  values_in_bounds valuesSorted keysUnsorted len ->
  (Z.to_nat len < fuel)%nat ->
  Z.of_nat i < len - 1 ->
  keysSorted !! i = Some a -> keysSorted !! S i = Some b -> b < a ->
  ascending keysSorted (Z.of_nat i + 1) ->
  ∃ rest,
    verifySort fuel keysSorted valuesSorted keysUnsorted len
    = Some (1, UnorderedKey (Z.of_nat i) a (Z.of_nat i + 1) b :: rest)
    ∧ (length rest <= 1)%nat
    ∧ (valuesSorted = None -> rest = []).
Proof.
  intros Hlen Hkeys Hvalues Hfuel Hi Ha Hb Hlt Hasc. unfold verifySort.
  destruct (order_loop keysSorted len fuel)
    as [[Hasc' Hrun]|(i' & a' & b' & Hi' & Ha' & Hb' & Hlt' & Hasc' & Hrun)];
    [lia|done|lia| |].
  { by destruct (descent_not_ascending keysSorted len i a b). }
  assert (i' = i) as ->.
  { destruct (Nat.lt_trichotomy i' i) as [Hlti|[->|Hgti]]; [|done|].
    - destruct (descent_not_ascending keysSorted (Z.of_nat i + 1) i' a' b');
        [lia|done|done|done|done].
    - destruct (descent_not_ascending keysSorted (Z.of_nat i' + 1) i a b);
        [lia|done|done|done|done]. }
  simplify_eq. rewrite Hrun. cbn [mbind option_bind].
  destruct valuesSorted as [values|].
  - destruct (values_loop keysSorted values keysUnsorted len fuel
                (1, [UnorderedKey (Z.of_nat i) a (Z.of_nat i + 1) b]))
      as [[_ Hrun2]|(j & v & ku & ks & _ & _ & _ & _ & _ & _ & Hrun2)];
      [lia|done|done|done| |]; rewrite Hrun2.
    + exists []. split; [done|]. split; [cbn; lia|done].
    + eexists [_]. split; [done|]. split; [cbn; lia|done].
  - exists []. split; [done|]. split; [cbn; lia|done].
Qed.

Lemma verifySort_first_unordered_key_witness :
  ∃ rest,
    verifySort 5 [1; 4; 2; 0] None [] 4
    = Some (1, UnorderedKey 1 4 2 2 :: rest)
    ∧ (length rest <= 1)%nat
    ∧ (@None (list Z) = None -> rest = []).
Proof.
  apply (verifySort_first_unordered_key 5 [1; 4; 2; 0] None [] 4 1%nat 4 2).
  - by vm_compute.
  - cbn; lia.
  - exact I.
  - lia.
  - lia.
  - reflexivity.
  - reflexivity.
  - lia.
  - intros j x y Hj Hx Hy.
    destruct j as [|j]; [|lia]. cbn in Hx, Hy. simplify_eq. lia.
Defined.

(** X18.  Where a value first fails to name the place of its key,
    [verifySort] returns 1 and its last line of output names that place,
    the value and the two keys compared; it is the only line when the
    sorted keys ascend. *)
Theorem verifySort_first_incorrect_value (fuel : nat)
    (keysSorted values keysUnsorted : list Z) (len : Z)
    (i : nat) (v ku ks : Z) :
  1 <= len < 2 ^ 32 ->
  len <= Z.of_nat (length keysSorted) ->
  values_in_bounds (Some values) keysUnsorted len ->
  (Z.to_nat len < fuel)%nat ->
  Z.of_nat i < len ->
  values !! i = Some v -> keysUnsorted !! Z.to_nat v = Some ku ->
  keysSorted !! i = Some ks -> ku ≠ ks ->
  values_match keysSorted values keysUnsorted (Z.of_nat i) ->
  ∃ before,
    verifySort fuel keysSorted (Some values) keysUnsorted len
    = Some (1, before ++ [IncorrectValue (Z.of_nat i) v ku ks])
    ∧ (length before <= 1)%nat
    ∧ (ascending keysSorted len -> before = []).
Proof.
  intros Hlen Hkeys Hvalues Hfuel Hi Hv Hku Hks Hne Hmatch.
  unfold verifySort.
  assert (Hsecond : ∀ st,
    for_uint fuel len (values_body keysSorted values keysUnsorted) 0 st
    = Some (1, st.2 ++ [IncorrectValue (Z.of_nat i) v ku ks])).
  { intros st.
    destruct (values_loop keysSorted values keysUnsorted len fuel st)
      as [[Hmatch' _]|(i' & v' & ku' & ks' & Hi' & Hv' & Hku' & Hks' & Hne'
                       & Hmatch' & Hrun2)]; [lia|done|done|done| |].
    { by destruct (mismatch_not_values_match keysSorted values keysUnsorted
                     len i v ku ks). }
    assert (i' = i) as ->.
    { destruct (Nat.lt_trichotomy i' i) as [Hlti|[->|Hgti]]; [|done|].
      - destruct (mismatch_not_values_match keysSorted values keysUnsorted
                    (Z.of_nat i) i' v' ku' ks'); [lia|done..].
      - destruct (mismatch_not_values_match keysSorted values keysUnsorted
                    (Z.of_nat i') i v ku ks); [lia|done..]. }
    by simplify_eq. }
  destruct (order_loop keysSorted len fuel)
    as [[Hasc Hrun]|(j & a & b & Hj & Ha & Hb & Hlt & _ & Hrun)];
    [lia|done|lia| |]; rewrite Hrun; cbn [mbind option_bind];
    rewrite Hsecond.
  - exists []. split; [done|]. split; [cbn; lia|done].
  - eexists [_]. split; [done|]. split; [cbn; lia|].
    intros Hasc. by destruct (descent_not_ascending keysSorted len j a b).
Qed.

Lemma verifySort_first_incorrect_value_witness :
  ∃ before,
    verifySort 4 [1; 3; 5] (Some [2; 1; 1]) [5; 3; 1] 3
    = Some (1, before ++ [IncorrectValue 2 1 3 5])
    ∧ (length before <= 1)%nat
    ∧ (ascending [1; 3; 5] 3 -> before = []).
Proof.
  apply (verifySort_first_incorrect_value 4 [1; 3; 5] [2; 1; 1] [5; 3; 1] 3
           2%nat 1 3 5).
  - by vm_compute.
  - cbn; lia.
  - split; [cbn; lia|]. intros i v Hi Hv.
    do 3 (destruct i as [|i]; [injection Hv as <-; cbn; lia|]). done.
  - lia.
  - lia.
  - reflexivity.
  - reflexivity.
  - reflexivity.
  - lia.
  - intros i v ku ks Hi Hv Hku Hks.
    do 2 (destruct i as [|i];
          [cbn in Hv, Hks; simplify_eq; vm_compute in Hku; congruence|]).
    lia.
Defined.

(** X19.  Asked about no elements, or about more than an [unsigned int]
    counts, [verifySort] never returns 0: the bound of its first loop,
    [len - 1], is then beyond every counter, so the loop ends only at a
    descent of the keys, with 1, or reads past the array. *)
Theorem verifySort_bad_length (fuel : nat) (keysSorted : list Z)
    (valuesSorted : option (list Z)) (keysUnsorted : list Z) (len : Z) :
  len = 0 ∨ 2 ^ 32 < len < 2 ^ 64 ->
  verifySort fuel keysSorted valuesSorted keysUnsorted len = None
  ∨ ∃ out,
      verifySort fuel keysSorted valuesSorted keysUnsorted len
      = Some (1, out).
Proof.
  intros Hlen. unfold verifySort.
  assert (Hbound : 2 ^ 32 <= to_size_t (len - 1)).
  { destruct Hlen as [->|Hlen]; [by vm_compute|].
    rewrite to_size_t_small; lia_pow. }
  destruct (for_uint_no_exit (to_size_t (len - 1)) (order_body keysSorted)
              (fun _ => True) (fun s => s.1 = 1) Hbound) with fuel 0
              ((0, []) : Z * list Report)
    as [Hrun|([r out] & Hrun & Hr)]; [|done|done| |].
  { intros j st _. unfold order_body.
    repeat case_match; by simplify_eq. }
  { left. by rewrite Hrun. }
  cbn in Hr. subst r. rewrite Hrun. cbn [mbind option_bind].
  destruct valuesSorted as [values|]; [|right; by exists out].
  destruct Hlen as [->|Hlen].
  - destruct fuel as [|fuel]; [by left|]. right. by exists out.
  - destruct (for_uint_no_exit len
                (values_body keysSorted values keysUnsorted)
                (fun s => s.1 = 1) (fun s => s.1 = 1) ltac:(lia)) with fuel 0
                (1, out)
      as [Hrun2|([r out'] & Hrun2 & Hr)]; [|done|done| |].
    { intros j st Hst. unfold values_body. repeat case_match; by simplify_eq. }
    { by left. }
    cbn in Hr. subst r. right. by exists out'.
Qed.

Lemma verifySort_bad_length_witness :
  verifySort 3 [2; 1] None [] 0 = None
  ∨ ∃ out, verifySort 3 [2; 1] None [] 0 = Some (1, out).
Proof.
  apply (verifySort_bad_length 3 [2; 1] None [] 0). left. reflexivity.
Defined.

(** X20.  The identities of the max and min operators bound their types:
    no [int] is below [OperatorMax<int>]'s identity or above
    [OperatorMin<int>]'s, and no [unsigned int] is below
    [OperatorMax<unsigned int>]'s or above [OperatorMin<unsigned int>]'s. *)
Theorem operator_identities_bound (z : Z) :
  OperatorMax_int_identity <= to_int z <= OperatorMin_int_identity
  ∧ OperatorMax_uint_identity <= to_uint z <= OperatorMin_uint_identity.
Proof.
  unfold OperatorMax_int_identity, OperatorMin_int_identity,
    OperatorMax_uint_identity, OperatorMin_uint_identity,
    INT_MIN, INT_MAX, UINT_MAX, to_int.
  pose proof (to_uint_range z).
  pose proof (Z.mod_pos_bound (z + 2 ^ 31) (2 ^ 32) ltac:(lia)).
  lia_pow.
Qed.
